(** * LiDAR placement solver: a shallow embedding of [solver.py]

    The Python module [backend/services/lidar_solver/solver.py] is embedded
    function by function.  Python floats are idealised as exact rationals
    ([Q]): every finite float is a rational, and the arithmetic of the
    source ([+], [-], [*], [/], [%], comparisons, [int], [round], [abs],
    [min]) is computable on [Q]; rounding error is outside the model.
    The external libraries ([math], [random], [shapely], [ortools]) and
    the iteration order of Python sets are interfaces (type classes);
    dictionaries and sets are stdpp's [gmap] and [gset]; in-place mutation
    is explicit state passing; exceptions and non-termination are the
    [outcome] monad. *)

From Stdlib Require Import QArith Qround Qabs Qminmax ZArith Lia Lqa.
From Stdlib Require Import String.
From Stdlib Require Reals Qreals Lra.
From stdpp Require Import gmap list pretty.

Open Scope Q_scope.

(** * Part I: the embedding *)

(** ** Python numerics on exact rationals *)

Module Py.

(** [x % y] on floats: the result takes the sign of the divisor,
    [x - y * floor (x / y)]. *)
Definition mod_ (x y : Q) : Q := x - y * inject_Z (Qfloor (x / y)).

(** [int(x)]: truncation toward zero. *)
Definition int (x : Q) : Z := Z.quot (Qnum x) (Zpos (Qden x)).

(** [min(a, b)]: the first argument unless the second is smaller. *)
Definition min (a b : Q) : Q := if Qlt_le_dec b a then b else a.

(** [a <= b], [a < b], [a >= b], [a > b] as booleans. *)
Definition le (a b : Q) : bool := Qle_bool a b.
Definition lt (a b : Q) : bool := negb (Qle_bool b a).
Definition ge (a b : Q) : bool := Qle_bool b a.
Definition gt (a b : Q) : bool := negb (Qle_bool a b).

(** Rounding of a rational to the nearest integer, ties to even. *)
Definition round_half_even (q : Q) : Z :=
  let f := Qfloor q in
  let d := q - inject_Z f in
  if lt d (1 # 2) then f
  else if gt d (1 # 2) then (f + 1)%Z
  else if Z.even f then f else (f + 1)%Z.

(** [round(x, 4)], in lowest terms so that equal values are identical. *)
Definition round4 (x : Q) : Q :=
  Qred (inject_Z (round_half_even (x * 10000)) / 10000).

(** [numpy.arange(start, stop, step)]: [ceil((stop - start) / step)]
    values [start + i * step]. *)
Definition arange (start stop step : Q) : list Q :=
  map (fun i : nat => start + inject_Z (Z.of_nat i) * step)
      (seq 0 (Z.to_nat (Qceiling ((stop - start) / step)))).

(** [l[:n]]: the first [n] elements, all but the last [-n] when [n] is
    negative. *)
Definition slice_to {A} (l : list A) (n : Z) : list A :=
  if (0 <=? n)%Z then take (Z.to_nat n) l
  else take (length l - Z.to_nat (- n)) l.

(** [len(l)]. *)
Definition len {A} (l : list A) : Z := Z.of_nat (length l).

End Py.

(** ** Data model (the dataclasses of the source) *)

(** A polygon vertex, the dictionary [{'x': _, 'z': _}]. *)
Module Vertex.
Record t := mk { x : Q; z : Q }.
End Vertex.

Definition vertices := list Vertex.t.

Record LidarModel := {
  hfov_deg : Q;
  vfov_deg : Q;
  range_m : Q;
  dome_mode : bool
}.

Record PlannerSettings := {
  mount_y_m : Q;
  sample_spacing_m : Q;
  candidate_spacing_m : Q;
  keepout_distance_m : Q;
  overlap_mode : string;
  k_required : Z;
  overlap_target_pct : Q;
  los_enabled : bool;
  los_cell_m : Q;
  yaw_step_deg : Q;
  max_sensors : Z;
  solver_time_limit_s : Q;
  seed : Z
}.

Module Candidate.
Record t := mk {
  idx : Z;
  x : Q;
  z : Q;
  yaw_deg : Q;
  covered_points : list Z
}.
End Candidate.

Module SamplePoint.
Record t := mk {
  idx : Z;
  x : Q;
  z : Q;
  is_critical : bool
}.
End SamplePoint.

(** The defaults of the dataclasses. *)
Definition default_model : LidarModel :=
  {| hfov_deg := 360; vfov_deg := 30; range_m := 10; dome_mode := true |}.

Definition default_settings : PlannerSettings :=
  {| mount_y_m := 3; sample_spacing_m := 3 # 4; candidate_spacing_m := 2;
     keepout_distance_m := 1 # 2; overlap_mode := "everywhere";
     k_required := 2; overlap_target_pct := 4 # 5; los_enabled := false;
     los_cell_m := 1 # 4; yaw_step_deg := 30; max_sensors := 50;
     solver_time_limit_s := 10; seed := 42 |}.

(** ** Outcomes of a call

    A call returns a value, raises an exception, or does not terminate.
    [try ... except] is a match on [Raises]; a [while] loop whose condition
    never becomes false is [Diverges]. *)

Inductive exn :=
  | KeyError
  | IndexError
  | ValueError
  | TypeError
  | ZeroDivisionError
  | GeometryError.

Inductive outcome (A : Type) : Type :=
  | Returns (a : A)
  | Raises (e : exn)
  | Diverges.

Arguments Returns {A} a.
Arguments Raises {A} e.
Arguments Diverges {A}.

#[global] Instance outcome_bind : MBind outcome := fun A B k m =>
  match m with
  | Returns a => k a
  | Raises e => Raises e
  | Diverges => Diverges
  end.

(** A [for] loop over a list whose body may raise. *)
Fixpoint for_each {A S} (body : S -> A -> outcome S) (l : list A) (s : S)
    : outcome S :=
  match l with
  | [] => Returns s
  | a :: r => s' ← body s a; for_each body r s'
  end.

(** [d[k]] on a dictionary. *)
Definition getitem {V} (d : gmap Z V) (k : Z) : outcome V :=
  match d !! k with
  | Some v => Returns v
  | None => Raises KeyError
  end.

(** [min(xs)] and [max(xs)] on a list: [ValueError] on the empty list, the
    first extremal element otherwise. *)
Definition list_min (xs : list Q) : outcome Q :=
  match xs with
  | [] => Raises ValueError
  | x :: r => Returns (fold_left (fun m y => if Py.lt y m then y else m) r x)
  end.

Definition list_max (xs : list Q) : outcome Q :=
  match xs with
  | [] => Raises ValueError
  | x :: r => Returns (fold_left (fun m y => if Py.gt y m then y else m) r x)
  end.

(** [x / y] on floats. *)
Definition truediv (x y : Q) : outcome Q :=
  if Qeq_bool y 0 then Raises ZeroDivisionError else Returns (x / y).

(** ** [while v <= hi: body; v += step]

    The loop of the sampler and of the candidate generator.  [while_le]
    runs at most [fuel] tests of the condition; [scan_fuel] is the number
    of tests the loop makes when it terminates, and no fuel at all when it
    does not (a step that is not positive, with the condition true at
    entry). *)

Fixpoint while_le {S} (fuel : nat) (hi step : Q)
    (body : Q -> S -> outcome S) (v : Q) (s : S) : outcome S :=
  match fuel with
  | O => Diverges
  | Datatypes.S fuel' =>
      if Py.le v hi then
        s' ← body v s;
        while_le fuel' hi step body (v + step) s'
      else Returns s
  end.

Definition scan_fuel (lo hi step : Q) : nat :=
  if Py.gt step 0 then Datatypes.S (Z.to_nat (Qfloor ((hi - lo) / step) + 1))
  else if Py.le lo hi then O else 1%nat.

Definition scan {S} (lo hi step : Q) (body : Q -> S -> outcome S) (s : S)
    : outcome S :=
  while_le (scan_fuel lo hi step) hi step body lo s.

(** ** External libraries *)

(** [math]: functions on floats. *)
Class Math := {
  math_sqrt : Q -> Q;
  math_tan : Q -> Q;
  math_radians : Q -> Q;
  math_degrees : Q -> Q;
  math_atan2 : Q -> Q -> Q
}.

(** [random]: the generator state after [random.seed(s)], and
    [random.random()], a draw from [[0, 1)] that advances the state. *)
Class Random := {
  rng : Type;
  random_seed : Z -> rng;
  random_random : rng -> Q * rng
}.

(** [shapely]: geometries.  [Polygon] is the constructor ([None] when it
    raises), [contains g (x, z)] is [g.contains(Point(x, z))], and
    [is_empty] decides the truth value of a geometry. *)
Class Shapely := {
  geom : Type;
  Polygon : list (Q * Q) -> option geom;
  is_valid : geom -> bool;
  is_empty : geom -> bool;
  contains : geom -> Q * Q -> bool;
  buffer : geom -> Q -> geom;
  unary_union : list geom -> geom
}.

(** The order in which a Python [set] of integers is iterated: some
    enumeration of its elements without repetition. *)
Class PySet := {
  set_iter : gset Z -> list Z;
  set_iter_perm : forall s, set_iter s ≡ₚ elements s
}.

(** [ortools.sat]: the model built by [solve_k_coverage] is a list of
    Boolean variables, linear constraints [sum terms >= bound], each
    optionally enforced only if a literal holds, and a sum to minimise.
    The solver is an oracle with a state of its own (a search bounded by
    wall-clock time is not a function of the model): [cp_solve] takes the
    model, the time limit and the seed, and answers with a status and the
    value of each variable. *)
Inductive cpvar :=
  | X (i : Z)
  | Y (i : Z).

Record linear_ge := {
  terms : list cpvar;
  bound : Z;
  only_enforce_if : option cpvar
}.

Record CpModel := {
  cp_vars : list cpvar;
  cp_constraints : list linear_ge;
  cp_minimize : list cpvar
}.

Inductive CpStatus :=
  | UNKNOWN
  | MODEL_INVALID
  | FEASIBLE
  | INFEASIBLE
  | OPTIMAL.

Definition StatusName (st : CpStatus) : string :=
  match st with
  | UNKNOWN => "UNKNOWN"
  | MODEL_INVALID => "MODEL_INVALID"
  | FEASIBLE => "FEASIBLE"
  | INFEASIBLE => "INFEASIBLE"
  | OPTIMAL => "OPTIMAL"
  end.

Class CpSat := {
  cp_world : Type;
  cp_solve : CpModel -> Q -> Z -> cp_world -> CpStatus * (cpvar -> Z) * cp_world
}.

(** ** The functions of [solver.py] *)

Section Solver.
Context {ML : Math} {RL : Random} {SL : Shapely} {PS : PySet} {CP : CpSat}.

(** *** [compute_effective_radius] *)

Definition compute_effective_radius (model : LidarModel) (mount_height : Q)
    : Q :=
  if dome_mode model || Py.ge (hfov_deg model) 360 then
    range_m model * (9 # 10)
  else
    let alpha_rad := math_radians (vfov_deg model / 2) in
    let r_vfov := mount_height * math_tan alpha_rad in
    Py.min (range_m model) r_vfov.

(** *** [point_in_polygon] *)

Definition point_in_polygon (px pz : Q) (polygon : vertices) : bool :=
  match last polygon with
  | None => false
  | Some v_last =>
      fst (fold_left
        (fun '(inside, vj) vi =>
           let xi := Vertex.x vi in
           let zi := Vertex.z vi in
           let xj := Vertex.x vj in
           let zj := Vertex.z vj in
           if negb (eqb (Py.gt zi pz) (Py.gt zj pz))
              && Py.lt px ((xj - xi) * (pz - zi) / (zj - zi) + xi)
           then (negb inside, vi)
           else (inside, vi))
        polygon (false, v_last))
  end.

(** *** Shared prologue of the sampler and the candidate generator *)

(** [[(v['x'], v['z']) for v in polygon]]. *)
Definition coords (p : vertices) : list (Q * Q) :=
  map (fun v => (Vertex.x v, Vertex.z v)) p.

(** [Polygon(...)] outside a [try]: a raise propagates. *)
Definition make_polygon (p : vertices) : outcome geom :=
  match Polygon (coords p) with
  | Some g => Returns g
  | None => Raises GeometryError
  end.

(** The bounding box [min_x, max_x, min_z, max_z]. *)
Definition bounding_box (p : vertices) : outcome (Q * Q * Q * Q) :=
  let xs := map Vertex.x p in
  let zs := map Vertex.z p in
  min_x ← list_min xs;
  max_x ← list_max xs;
  min_z ← list_min zs;
  max_z ← list_max zs;
  Returns (min_x, max_x, min_z, max_z).

(** One obstacle of the sampler: kept when it has at least 3 vertices,
    its construction does not raise ([try ... except: pass]) and it is
    valid. *)
Definition valid_obstacle (obs : vertices) : option geom :=
  if (3 <=? length obs)%nat then
    match Polygon (coords obs) with
    | Some obs_poly => if is_valid obs_poly then Some obs_poly else None
    | None => None
    end
  else None.

(** [obstacle_polys]; a missing or empty [obstacles] leaves it empty. *)
Definition obstacle_polys (obstacles : option (list vertices)) : list geom :=
  match obstacles with
  | None => []
  | Some obs => omap valid_obstacle obs
  end.

(** [unary_union(gs) if gs else None]. *)
Definition union_or_none (gs : list geom) : option geom :=
  match gs with
  | [] => None
  | _ => Some (unary_union gs)
  end.

(** [random.uniform(a, b)]. *)
Definition random_uniform (a b : Q) (g : rng) : Q * rng :=
  let '(u, g') := random_random g in (a + (b - a) * u, g').

(** [np.random.seed(seed)] accepts seeds in [[0, 2**32)] only. *)
Definition np_random_seed (seed : Z) : outcome unit :=
  if ((0 <=? seed) && (seed <? 2 ^ 32))%Z then Returns tt
  else Raises ValueError.

(** *** [sample_points_in_polygon] *)

(** The state of the two loops: generator, [points], [idx]. *)
Definition sampler_state : Type := rng * list SamplePoint.t * Z.

(** The body of the inner loop. *)
Definition sample_cell (poly : geom) (obstacle_union : option geom)
    (jitter x z : Q) (st : sampler_state) : sampler_state :=
  let '(g, points, idx) := st in
  let '(ux, g1) := random_uniform (- jitter) jitter g in
  let jx := x + ux in
  let '(uz, g2) := random_uniform (- jitter) jitter g1 in
  let jz := z + uz in
  if contains poly (jx, jz) then
    if match obstacle_union with
       | None => true
       | Some u => negb (contains u (jx, jz))
       end
    then (g2, points ++ [SamplePoint.mk idx jx jz false], (idx + 1)%Z)
    else (g2, points, idx)
  else (g2, points, idx).

Definition sample_points_in_polygon (polygon : vertices) (spacing_m : Q)
    (seed : Z) (obstacles : option (list vertices))
    : outcome (list SamplePoint.t) :=
  let g := random_seed seed in
  np_random_seed seed;;
  '(min_x, max_x, min_z, max_z) ← bounding_box polygon;
  poly ← make_polygon polygon;
  let obstacle_union := union_or_none (obstacle_polys obstacles) in
  let jitter := spacing_m * (1 # 4) in
  '(_, points, _) ←
    scan (min_x + spacing_m / 2) max_x spacing_m
      (fun x st =>
         scan (min_z + spacing_m / 2) max_z spacing_m
           (fun z st => Returns (sample_cell poly obstacle_union jitter x z st))
           st)
      (g, [], 0%Z);
  Returns points.

(** *** [mark_critical_points]

    The points are mutated in place; the function returns the list after
    the call. *)

Definition mark_critical_points (points : list SamplePoint.t)
    (critical_polygon : option vertices) : outcome (list SamplePoint.t) :=
  match critical_polygon with
  | Some cp =>
      if (3 <=? length cp)%nat then
        crit_poly ← make_polygon cp;
        Returns (map
          (fun pt =>
             if contains crit_poly (SamplePoint.x pt, SamplePoint.z pt)
             then SamplePoint.mk (SamplePoint.idx pt) (SamplePoint.x pt)
                    (SamplePoint.z pt) true
             else pt)
          points)
      else Returns points
  | None => Returns points
  end.

(** *** [generate_candidates] *)

(** One obstacle of the generator, inflated by the keepout distance. *)
Definition buffered_obstacle (keepout_m : Q) (obs : vertices) : option geom :=
  match valid_obstacle obs with
  | Some obs_poly => Some (buffer obs_poly keepout_m)
  | None => None
  end.

Definition obstacle_buffers (keepout_m : Q)
    (obstacles : option (list vertices)) : list geom :=
  match obstacles with
  | None => []
  | Some obs => omap (buffered_obstacle keepout_m) obs
  end.

(** [yaw_angles]: the step is the literal [30.0]. *)
Definition yaw_angles (model : LidarModel) : list Q :=
  if Py.ge (hfov_deg model) 360 || dome_mode model then [0]
  else
    let yaw_step := 30 in
    Py.arange 0 360 yaw_step.

(** The body of the inner loop on the state [candidates], [idx]. *)
Definition candidate_cell (poly : geom) (obstacle_union : option geom)
    (yaws : list Q) (x z : Q) (st : list Candidate.t * Z)
    : list Candidate.t * Z :=
  if contains poly (x, z) then
    let valid :=
      match obstacle_union with
      | Some u => negb (negb (is_empty u) && contains u (x, z))
      | None => true
      end in
    if valid then
      fold_left
        (fun '(candidates, idx) yaw =>
           (candidates ++ [Candidate.mk idx x z yaw []], (idx + 1)%Z))
        yaws st
    else st
  else st.

Definition generate_candidates (polygon : vertices) (spacing_m keepout_m : Q)
    (model : LidarModel) (seed : Z) (obstacles : option (list vertices))
    : outcome (list Candidate.t) :=
  '(min_x, max_x, min_z, max_z) ← bounding_box polygon;
  poly ← make_polygon polygon;
  let obstacle_union := union_or_none (obstacle_buffers keepout_m obstacles) in
  let yaws := yaw_angles model in
  '(candidates, _) ←
    scan (min_x + spacing_m / 2) max_x spacing_m
      (fun x st =>
         scan (min_z + spacing_m / 2) max_z spacing_m
           (fun z st => Returns (candidate_cell poly obstacle_union yaws x z st))
           st)
      ([], 0%Z);
  Returns candidates.

(** *** [smallest_angle_diff] *)

Definition smallest_angle_diff (a b : Q) : Q :=
  let diff := Py.mod_ (a - b + 180) 360 - 180 in
  Qabs diff.

(** *** The occupancy grid

    A two-dimensional [numpy] array of booleans with its [shape]. *)

Record ndarray := {
  shape : Z * Z;
  data : list (list bool)
}.

(** [np.zeros((height, width), dtype=bool)]; a negative dimension raises. *)
Definition np_zeros (height width : Z) : outcome ndarray :=
  if ((height <? 0) || (width <? 0))%Z then Raises ValueError
  else Returns {| shape := (height, width);
                  data := replicate (Z.to_nat height)
                            (replicate (Z.to_nat width) false) |}.

(** [grid[row, col]] for indices within the shape. *)
Definition grid_get (grid : ndarray) (row col : Z) : bool :=
  match data grid !! Z.to_nat row with
  | Some r => default false (r !! Z.to_nat col)
  | None => false
  end.

(** [grid[row, col] = True] for indices within the shape. *)
Definition grid_set (grid : ndarray) (row col : Z) : ndarray :=
  {| shape := shape grid;
     data := alter (fun r => <[Z.to_nat col := true]> r) (Z.to_nat row)
               (data grid) |}.

(** The dictionary [bounds]. *)
Record GridBounds := {
  b_min_x : Q;
  b_max_x : Q;
  b_min_z : Q;
  b_max_z : Q
}.

(** [range(n)] as integers. *)
Definition range (n : Z) : list Z := map Z.of_nat (seq 0 (Z.to_nat n)).

(** [range(a, b)]. *)
Definition range_from (a b : Z) : list Z :=
  map (fun i => (a + Z.of_nat i)%Z) (seq 0 (Z.to_nat (b - a))).

(** *** [check_los_blocked] *)

Definition check_los_blocked (cx cz px pz : Q)
    (obstacle_grid : option ndarray) (grid_bounds : option GridBounds)
    (cell_size : Q) : outcome bool :=
  match obstacle_grid with
  | None => Returns false
  | Some grid =>
      let dx := px - cx in
      let dz := pz - cz in
      let dist := math_sqrt (dx * dx + dz * dz) in
      if Py.lt dist (1 # 100) then Returns false
      else
        q ← truediv dist (cell_size * (1 # 2));
        let steps := (Py.int q + 1)%Z in
        for_each
          (fun blocked i =>
             if blocked : bool then Returns true
             else
               let t := inject_Z i / inject_Z steps in
               let x := cx + dx * t in
               let z := cz + dz * t in
               match grid_bounds with
               | None => Raises TypeError
               | Some bounds =>
                   qc ← truediv (x - b_min_x bounds) cell_size;
                   let col := Py.int qc in
                   qr ← truediv (z - b_min_z bounds) cell_size;
                   let row := Py.int qr in
                   if ((0 <=? row) && (row <? fst (shape grid))
                       && (0 <=? col) && (col <? snd (shape grid)))%Z
                   then Returns (grid_get grid row col)
                   else Returns false
               end)
          (range_from 1 steps) false
  end.

(** *** [build_obstacle_grid] *)

(** The two loops over the cells for one obstacle polygon. *)
Definition mark_obstacle_cells (obs_poly : geom) (min_x min_z cell_size : Q)
    (height width : Z) (grid : ndarray) : ndarray :=
  fold_left
    (fun grid row =>
       fold_left
         (fun grid col =>
            let cx := min_x + (inject_Z col + (1 # 2)) * cell_size in
            let cz := min_z + (inject_Z row + (1 # 2)) * cell_size in
            if contains obs_poly (cx, cz) then grid_set grid row col
            else grid)
         (range width) grid)
    (range height) grid.

Definition build_obstacle_grid (polygon : vertices)
    (obstacles : list vertices) (cell_size : Q)
    : outcome (ndarray * GridBounds) :=
  '(min_x, max_x, min_z, max_z) ← bounding_box polygon;
  qw ← truediv (max_x - min_x) cell_size;
  let width := (Py.int qw + 1)%Z in
  qh ← truediv (max_z - min_z) cell_size;
  let height := (Py.int qh + 1)%Z in
  grid ← np_zeros height width;
  let bounds := {| b_min_x := min_x; b_max_x := max_x;
                   b_min_z := min_z; b_max_z := max_z |} in
  grid ← for_each
    (fun grid obs =>
       if (3 <=? length obs)%nat then
         obs_poly ← make_polygon obs;
         if negb (is_valid obs_poly) then Returns grid
         else Returns (mark_obstacle_cells obs_poly min_x min_z cell_size
                         height width grid)
       else Returns grid)
    obstacles grid;
  Returns (grid, bounds).

(** *** [compute_coverage_sets]

    [covers] is the body of the inner loop: whether the point's index is
    appended.  The candidates are mutated in place; the function returns
    the list after the call. *)

Definition covers (model : LidarModel) (r_eff : Q) (los_enabled : bool)
    (obstacle_grid : option ndarray) (grid_bounds : option GridBounds)
    (los_cell_m : Q) (c : Candidate.t) (p : SamplePoint.t) : outcome bool :=
  let dx := SamplePoint.x p - Candidate.x c in
  let dz := SamplePoint.z p - Candidate.z c in
  let dist := math_sqrt (dx * dx + dz * dz) in
  if Py.gt dist r_eff then Returns false
  else if Py.lt (hfov_deg model) 360 && negb (dome_mode model)
          && Py.gt (smallest_angle_diff (math_degrees (math_atan2 dz dx))
                      (Candidate.yaw_deg c))
                   (hfov_deg model / 2)
  then Returns false
  else if los_enabled && bool_decide (obstacle_grid <> None) then
    blocked ← check_los_blocked (Candidate.x c) (Candidate.z c)
                (SamplePoint.x p) (SamplePoint.z p)
                obstacle_grid grid_bounds los_cell_m;
    Returns (negb blocked)
  else Returns true.

Definition compute_coverage_sets (candidates : list Candidate.t)
    (points : list SamplePoint.t) (model : LidarModel) (r_eff : Q)
    (los_enabled : bool) (obstacle_grid : option ndarray)
    (grid_bounds : option GridBounds) (los_cell_m : Q)
    : outcome (list Candidate.t) :=
  for_each
    (fun done c =>
       covered ← for_each
         (fun covered p =>
            b ← covers model r_eff los_enabled obstacle_grid grid_bounds
                  los_cell_m c p;
            Returns (if b : bool then covered ++ [SamplePoint.idx p]
                     else covered))
         points [];
       Returns (done ++ [Candidate.mk (Candidate.idx c) (Candidate.x c)
                          (Candidate.z c) (Candidate.yaw_deg c) covered]))
    candidates [].

(** *** Dictionaries keyed by index *)

(** [{c.idx: c for c in candidates}]: a later entry replaces an earlier
    one with the same index. *)
Definition candidate_map (candidates : list Candidate.t)
    : gmap Z Candidate.t :=
  fold_left (fun m c => <[Candidate.idx c := c]> m) candidates ∅.

(** [{p.idx: 0 for p in points}]. *)
Definition zero_counts (points : list SamplePoint.t) : gmap Z Z :=
  fold_left (fun m p => <[SamplePoint.idx p := 0%Z]> m) points ∅.

(** The keys of a dictionary filled in the order of [l]: each index at its
    first position. *)
Fixpoint dict_keys (l : list Z) : list Z :=
  match l with
  | [] => []
  | k :: r => k :: filter (fun k' => k' <> k) (dict_keys r)
  end.

(** [for c_idx in sel: for p_idx in candidate_map[c_idx].covered_points:
    coverage_count[p_idx] += 1]. *)
Definition count_coverage (cmap : gmap Z Candidate.t)
    (points : list SamplePoint.t) (sel : list Z) : outcome (gmap Z Z) :=
  for_each
    (fun count c_idx =>
       c ← getitem cmap c_idx;
       for_each
         (fun count p_idx =>
            n ← getitem count p_idx;
            Returns (<[p_idx := (n + 1)%Z]> count))
         (Candidate.covered_points c) count)
    sel (zero_counts points).

(** *** [solve_k_coverage] *)

(** [point_covers]: for each point index the covering candidate indices. *)
Definition point_covers (candidates : list Candidate.t)
    (points : list SamplePoint.t) : outcome (gmap Z (list Z)) :=
  for_each
    (fun pc c =>
       for_each
         (fun pc p_idx =>
            l ← getitem pc p_idx;
            Returns (<[p_idx := l ++ [Candidate.idx c]]> pc))
         (Candidate.covered_points c) pc)
    candidates
    (fold_left (fun m p => <[SamplePoint.idx p := []]> m) points ∅).

(** [sum(x[c_idx] for c_idx in covering) >= k]. *)
Definition cover_ge (covering : list Z) (k : Z) (lit : option cpvar)
    : linear_ge :=
  {| terms := map X covering; bound := k; only_enforce_if := lit |}.

(** The constraints added in each overlap mode, in the order of the
    calls to [model.Add], with the indicator variables created. *)
Definition coverage_constraints (pc : gmap Z (list Z))
    (points : list SamplePoint.t) (settings : PlannerSettings)
    : outcome (list cpvar * list linear_ge) :=
  let critical_indices : gset Z :=
    list_to_set (map SamplePoint.idx
                   (filter (fun p => SamplePoint.is_critical p = true) points)) in
  let all_indices : gset Z := list_to_set (map SamplePoint.idx points) in
  if String.eqb (overlap_mode settings) "everywhere" then
    cs ← for_each
      (fun cs p_idx =>
         covering ← getitem pc p_idx;
         match covering with
         | [] => Returns cs
         | _ => Returns (cs ++ [cover_ge covering (k_required settings) None])
         end)
      (set_iter all_indices) [];
    Returns ([], cs)
  else if String.eqb (overlap_mode settings) "critical_only" then
    cs ← for_each
      (fun cs p_idx =>
         covering ← getitem pc p_idx;
         match covering with
         | [] => Returns cs
         | _ =>
             if bool_decide (p_idx ∈ critical_indices)
             then Returns (cs ++ [cover_ge covering (k_required settings) None])
             else Returns (cs ++ [cover_ge covering 1 None])
         end)
      (set_iter all_indices) [];
    Returns ([], cs)
  else if String.eqb (overlap_mode settings) "percent_target" then
    '(ys, cs) ← for_each
      (fun '(ys, cs) p =>
         covering ← getitem pc (SamplePoint.idx p);
         match covering with
         | [] => Returns (ys, cs)
         | _ =>
             let y := Y (SamplePoint.idx p) in
             Returns (ys ++ [SamplePoint.idx p],
                      cs ++ [cover_ge covering 1 None;
                             cover_ge covering (k_required settings) (Some y)])
         end)
      points ([], []);
    let target_count :=
      Py.int (overlap_target_pct settings * inject_Z (Py.len points)) in
    match ys with
    | [] => Returns ([], cs)
    | _ => Returns (map Y ys,
                    cs ++ [{| terms := map Y (dict_keys ys);
                              bound := target_count;
                              only_enforce_if := None |}])
    end
  else Returns ([], []).

Definition solve_k_coverage (candidates : list Candidate.t)
    (points : list SamplePoint.t) (settings : PlannerSettings)
    (w : cp_world) : outcome (list Z * string * bool * cp_world) :=
  let xs := map (fun c => X (Candidate.idx c)) candidates in
  pc ← point_covers candidates points;
  '(ys, cs) ← coverage_constraints pc points settings;
  let model :=
    {| cp_vars := xs ++ ys;
       cp_constraints := cs;
       cp_minimize := map X (dict_keys (map Candidate.idx candidates)) |} in
  let '(status, value, w') :=
    cp_solve model (solver_time_limit_s settings) (seed settings) w in
  match status with
  | OPTIMAL | FEASIBLE =>
      let selected :=
        map Candidate.idx
          (filter (fun c => value (X (Candidate.idx c)) = 1%Z) candidates) in
      let status_str :=
        match status with OPTIMAL => "OPTIMAL" | _ => "FEASIBLE" end in
      Returns (selected, status_str, true, w')
  | _ => Returns ([], StatusName status, false, w')
  end.

(** *** [prune_redundant_sensors] *)

(** The cover count a point needs in each overlap mode. *)
Definition required_cover (settings : PlannerSettings) (p : SamplePoint.t)
    : Z :=
  if String.eqb (overlap_mode settings) "everywhere" then k_required settings
  else if String.eqb (overlap_mode settings) "critical_only" then
    if SamplePoint.is_critical p then k_required settings else 1%Z
  else 1%Z.

(** The loop over the points that sets [valid], with its [break]. *)
Fixpoint constraints_hold (settings : PlannerSettings) (count : gmap Z Z)
    (points : list SamplePoint.t) : outcome bool :=
  match points with
  | [] => Returns true
  | p :: r =>
      n ← getitem count (SamplePoint.idx p);
      if (n <? required_cover settings p)%Z then Returns false
      else constraints_hold settings count r
  end.

(** One iteration of the loop over [list(selected)]. *)
Definition prune_step (cmap : gmap Z Candidate.t)
    (points : list SamplePoint.t) (settings : PlannerSettings)
    (selected : gset Z) (idx : Z) : outcome (gset Z) :=
  let test_selected := selected ∖ {[idx]} in
  count ← count_coverage cmap points (set_iter test_selected);
  valid ← constraints_hold settings count points;
  Returns (if valid : bool then test_selected else selected).

Definition prune_redundant_sensors (selected_indices : list Z)
    (candidates : list Candidate.t) (points : list SamplePoint.t)
    (settings : PlannerSettings) : outcome (list Z) :=
  let cmap := candidate_map candidates in
  let selected : gset Z := list_to_set selected_indices in
  selected ← for_each (prune_step cmap points settings)
               (set_iter selected) selected;
  Returns (set_iter selected).

(** *** [refine_yaw_angles] *)

(** The key [(round(c.x, 4), round(c.z, 4))]. *)
Definition position_key (c : Candidate.t) : Q * Q :=
  (Py.round4 (Candidate.x c), Py.round4 (Candidate.z c)).

Definition key_eqb (k1 k2 : Q * Q) : bool :=
  Qeq_bool (fst k1) (fst k2) && Qeq_bool (snd k1) (snd k2).

(** The dictionary [positions], in insertion order:
    [if key not in positions: positions[key] = []] and
    [positions[key].append(c)]. *)
Fixpoint positions_append (key : Q * Q) (c : Candidate.t)
    (positions : list (Q * Q * list Candidate.t))
    : list (Q * Q * list Candidate.t) :=
  match positions with
  | [] => [(key, [c])]
  | (k, cs) :: r =>
      if key_eqb k key then (k, cs ++ [c]) :: r
      else (k, cs) :: positions_append key c r
  end.

(** The loop that picks [best_yaw] among the candidates of a position. *)
Definition best_yaw_of (first : Candidate.t) (pos_candidates : list Candidate.t)
    : Q :=
  fst (fold_left
    (fun '(best_yaw, best_coverage) c =>
       if (best_coverage <? Py.len (Candidate.covered_points c))%Z
       then (Candidate.yaw_deg c, Py.len (Candidate.covered_points c))
       else (best_yaw, best_coverage))
    pos_candidates
    (Candidate.yaw_deg first, Py.len (Candidate.covered_points first))).

Definition refine_yaw_angles (selected_indices : list Z)
    (candidates : list Candidate.t) (points : list SamplePoint.t)
    (model : LidarModel) (r_eff : Q) : outcome (gmap Z Q) :=
  if Py.ge (hfov_deg model) 360 || dome_mode model then Returns ∅
  else
    let cmap := candidate_map candidates in
    positions ← for_each
      (fun positions idx =>
         c ← getitem cmap idx;
         Returns (positions_append (position_key c) c positions))
      selected_indices [];
    for_each
      (fun refined_yaw '(pos, pos_candidates) =>
         match pos_candidates with
         | [] => Raises IndexError
         | first :: _ =>
             let best_yaw := best_yaw_of first pos_candidates in
             Returns (fold_left
                        (fun refined_yaw c =>
                           <[Candidate.idx c := best_yaw]> refined_yaw)
                        pos_candidates refined_yaw)
         end)
      positions ∅.

(** *** [compute_coverage_stats] *)

Definition compute_coverage_stats (selected_indices : list Z)
    (candidates : list Candidate.t) (points : list SamplePoint.t)
    (k_required : Z) : outcome (Q * Q) :=
  let cmap := candidate_map candidates in
  count ← count_coverage cmap points selected_indices;
  let values := (map_to_list count).*2 in
  let covered := Py.len (filter (fun c => (1 <= c)%Z) values) in
  let k_covered := Py.len (filter (fun c => (k_required <= c)%Z) values) in
  let total := Py.len points in
  let coverage_pct :=
    if (0 <? total)%Z then inject_Z covered / inject_Z total else 0 in
  let k_coverage_pct :=
    if (0 <? total)%Z then inject_Z k_covered / inject_Z total else 0 in
  Returns (coverage_pct, k_coverage_pct).

(** *** [solve_lidar_placement] *)

(** The parsed [params]: missing keys have been given their defaults. *)
Record Params := {
  roi_polygon : vertices;
  obstacles : list vertices;
  critical_polygon : option vertices;
  model : LidarModel;
  settings : PlannerSettings
}.

Record Position := {
  pos_x : Q;
  pos_z : Q;
  pos_yaw : Q
}.

(** The result dictionary; a key absent from the dictionary is [None]. *)
Record SolverOutput := {
  success : bool;
  error : option string;
  traceback : option string;
  selected_positions : list Position;
  num_sensors : Z;
  coverage_pct : option Q;
  k_coverage_pct : option Q;
  out_overlap_mode : option string;
  out_k_required : option Z;
  warnings : option (list string);
  out_seed : option Z;
  solver_status : option string;
  total_sample_points : option Z;
  total_candidates : option Z;
  effective_radius_m : option Q
}.

(** The dictionary returned on a failure. *)
Definition failure (msg : string) (tb : option string)
    (warns : option (list string)) : SolverOutput :=
  {| success := false;
     error := Some msg;
     traceback := tb;
     selected_positions := [];
     num_sensors := 0;
     coverage_pct := None;
     k_coverage_pct := None;
     out_overlap_mode := None;
     out_k_required := None;
     warnings := warns;
     out_seed := None;
     solver_status := None;
     total_sample_points := None;
     total_candidates := None;
     effective_radius_m := None |}.

(** [str(e)] and [traceback.format_exc()] of a caught exception. *)
Definition exn_message (e : exn) : string :=
  match e with
  | KeyError => "KeyError"
  | IndexError => "list index out of range"
  | ValueError => "ValueError"
  | TypeError => "TypeError"
  | ZeroDivisionError => "float division by zero"
  | GeometryError => "GeometryError"
  end.

Definition format_exc (e : exn) : string :=
  ("Traceback (most recent call last): " ++ exn_message e)%string.

(** [relaxed_settings]: a copy of the settings with [k_required = 1] and
    [overlap_mode = "everywhere"]. *)
Definition relaxed (settings : PlannerSettings) : PlannerSettings :=
  {| mount_y_m := mount_y_m settings;
     sample_spacing_m := sample_spacing_m settings;
     candidate_spacing_m := candidate_spacing_m settings;
     keepout_distance_m := keepout_distance_m settings;
     overlap_mode := "everywhere";
     k_required := 1;
     overlap_target_pct := overlap_target_pct settings;
     los_enabled := los_enabled settings;
     los_cell_m := los_cell_m settings;
     yaw_step_deg := yaw_step_deg settings;
     max_sensors := max_sensors settings;
     solver_time_limit_s := solver_time_limit_s settings;
     seed := seed settings |}.

(** The occupancy grid of the solve: built only when [los_enabled] and
    the list of obstacles is not empty. *)
Definition los_grid (roi_polygon : vertices) (obstacles : list vertices)
    (settings : PlannerSettings)
    : outcome (option ndarray * option GridBounds) :=
  if los_enabled settings && bool_decide (obstacles <> []) then
    '(obstacle_grid, grid_bounds) ←
      build_obstacle_grid roi_polygon obstacles (los_cell_m settings);
    Returns (Some obstacle_grid, Some grid_bounds)
  else Returns (None, None).

(** The solve with its retry: the first call, and on a failure the
    warning and the second call with the relaxed settings. *)
Definition solve_with_retry (candidates : list Candidate.t)
    (points : list SamplePoint.t) (settings : PlannerSettings)
    (w : cp_world)
    : outcome (list Z * string * bool * list string * cp_world) :=
  let warnings : list string := [] in
  '(selected_indices, solver_status, success, w) ←
    solve_k_coverage candidates points settings w;
  if negb success then
    let warnings :=
      warnings ++ [("Initial solve failed (" ++ solver_status
                    ++ "), relaxing to k=1")%string] in
    let relaxed_settings := relaxed settings in
    '(selected_indices, solver_status, success, w) ←
      solve_k_coverage candidates points relaxed_settings w;
    Returns (selected_indices, solver_status, success, warnings, w)
  else Returns (selected_indices, solver_status, success, warnings, w).

(** The output positions: one per rounded position, the first kept. *)
Definition output_positions (selected_indices : list Z)
    (cmap : gmap Z Candidate.t) (refined_yaw : gmap Z Q)
    : outcome (list Position) :=
  '(_, selected_positions) ← for_each
    (fun '(seen_positions, selected_positions) idx =>
       c ← getitem cmap idx;
       let pos_key := position_key c in
       if existsb (key_eqb pos_key) seen_positions
       then Returns (seen_positions, selected_positions)
       else
         let yaw := default (Candidate.yaw_deg c) (refined_yaw !! idx) in
         Returns (seen_positions ++ [pos_key],
                  selected_positions
                    ++ [{| pos_x := Candidate.x c; pos_z := Candidate.z c;
                           pos_yaw := yaw |}]))
    selected_indices ([], []);
  Returns selected_positions.

(** The steps before the solve: the early failures, or the marked sample
    points, the candidates with their coverage lists and the effective
    radius.  The two debug prints are left out. *)
Definition prepare (params : Params)
    : outcome (SolverOutput + list SamplePoint.t * list Candidate.t * Q) :=
  let roi_polygon := roi_polygon params in
  let obstacles := obstacles params in
  let critical_polygon := critical_polygon params in
  let model := model params in
  let settings := settings params in
  if (length roi_polygon <? 3)%nat then
    Returns (inl (failure "ROI polygon must have at least 3 vertices" None None))
  else
    let r_eff := compute_effective_radius model (mount_y_m settings) in
    let candidate_spacing := candidate_spacing_m settings in
    points ← sample_points_in_polygon roi_polygon (sample_spacing_m settings)
               (seed settings) (Some obstacles);
    if (length points =? 0)%nat then
      Returns (inl (failure "No sample points generated inside ROI" None None))
    else
      points ←
        match critical_polygon with
        | Some (_ :: _) => mark_critical_points points critical_polygon
        | _ => Returns points
        end;
      candidates ← generate_candidates roi_polygon candidate_spacing
                     (keepout_distance_m settings) model (seed settings)
                     (Some obstacles);
      if (length candidates =? 0)%nat then
        Returns (inl (failure "No candidate positions generated" None None))
      else
        '(obstacle_grid, grid_bounds) ← los_grid roi_polygon obstacles settings;
        candidates ← compute_coverage_sets candidates points model r_eff
                       (los_enabled settings) obstacle_grid grid_bounds
                       (los_cell_m settings);
        Returns (inr (points, candidates, r_eff)).

(** The steps after a successful solve. *)
Definition finish (settings : PlannerSettings) (model : LidarModel)
    (points : list SamplePoint.t) (candidates : list Candidate.t) (r_eff : Q)
    (selected_indices : list Z) (solver_status : string)
    (warnings : list string) : outcome SolverOutput :=
  selected_indices ← prune_redundant_sensors selected_indices
                       candidates points settings;
  let '(warnings, selected_indices) :=
    if (max_sensors settings <? Py.len selected_indices)%Z then
      (warnings ++ [("Reduced from "
                     ++ pretty (Py.len selected_indices) ++ " to "
                     ++ pretty (max_sensors settings)
                     ++ " sensors")%string],
       Py.slice_to selected_indices (max_sensors settings))
    else (warnings, selected_indices) in
  refined_yaw ← refine_yaw_angles selected_indices candidates points
                  model r_eff;
  let cmap := candidate_map candidates in
  selected_positions ← output_positions selected_indices cmap refined_yaw;
  '(coverage_pct, k_coverage_pct) ←
    compute_coverage_stats selected_indices candidates points
      (k_required settings);
  Returns
    {| success := true;
       error := None;
       traceback := None;
       selected_positions := selected_positions;
       num_sensors := Py.len selected_positions;
       coverage_pct := Some coverage_pct;
       k_coverage_pct := Some k_coverage_pct;
       out_overlap_mode := Some (overlap_mode settings);
       out_k_required := Some (k_required settings);
       warnings := Some warnings;
       out_seed := Some (seed settings);
       solver_status := Some solver_status;
       total_sample_points := Some (Py.len points);
       total_candidates := Some (Py.len candidates);
       effective_radius_m := Some r_eff |}.

(** The body of the [try]. *)
Definition solve_body (params : Params) (w : cp_world)
    : outcome (SolverOutput * cp_world) :=
  prepared ← prepare params;
  match prepared with
  | inl out => Returns (out, w)
  | inr (points, candidates, r_eff) =>
      '(selected_indices, solver_status, success, warnings, w) ←
        solve_with_retry candidates points (settings params) w;
      if negb success then
        Returns (failure ("Solver failed: " ++ solver_status) None
                   (Some warnings), w)
      else
        out ← finish (settings params) (model params) points candidates r_eff
                selected_indices solver_status warnings;
        Returns (out, w)
  end.

(** [try: ... except Exception as e: ...].  The state of the solver is
    followed along the paths that return from the body. *)
Definition solve_lidar_placement (params : Params) (w : cp_world)
    : outcome (SolverOutput * cp_world) :=
  match solve_body params w with
  | Raises e =>
      Returns (failure (exn_message e) (Some (format_exc e)) None, w)
  | r => r
  end.

End Solver.

(** ** Instances of the interfaces

    Executable stand-ins for the libraries, on which the embedding runs on
    concrete inputs.  A geometry is a union of polygons, each inflated by a
    distance; membership is the ray casting of [point_in_polygon] and the
    squared distance to the edges.  The generator is a linear congruential
    one; sets are iterated in the order of [elements]; the functions of
    [math] are rational approximations. *)

Module Ref.

(** Squared distance from [(px, pz)] to the segment from [a] to [b]. *)
Definition dist2_segment (px pz : Q) (a b : Q * Q) : Q :=
  let '(ax, az) := a in
  let '(bx, bz) := b in
  let ex := bx - ax in
  let ez := bz - az in
  let l2 := ex * ex + ez * ez in
  let t :=
    if Qeq_bool l2 0 then 0
    else
      let t0 := ((px - ax) * ex + (pz - az) * ez) / l2 in
      if Py.lt t0 0 then 0 else if Py.gt t0 1 then 1 else t0 in
  let qx := ax + t * ex - px in
  let qz := az + t * ez - pz in
  qx * qx + qz * qz.

(** Whether some edge of the closed polygon is nearer than [d]. *)
Definition near_boundary (px pz d : Q) (cs : list (Q * Q)) : bool :=
  match last cs with
  | None => false
  | Some c_last =>
      fst (fold_left
        (fun '(near, a) b =>
           (near || Py.lt (dist2_segment px pz a b) (d * d), b))
        cs (false, c_last))
  end.

Definition to_vertices (cs : list (Q * Q)) : vertices :=
  map (fun '(x, z) => Vertex.mk x z) cs.

#[export] Instance shapely : Shapely := {|
  geom := list (list (Q * Q) * Q);
  Polygon cs := Some [(cs, 0)];
  is_valid _ := true;
  is_empty g := match g with [] => true | _ => false end;
  contains g '(px, pz) :=
    existsb
      (fun '(cs, d) =>
         point_in_polygon px pz (to_vertices cs)
         || (Py.gt d 0 && near_boundary px pz d cs))
      g;
  buffer g d := map (fun '(cs, d0) => (cs, d0 + d)) g;
  unary_union gs := concat gs
|}.

#[export] Instance random : Random := {|
  rng := Z;
  random_seed s := s;
  random_random g :=
    let g' := ((g * 1103515245 + 12345) mod 2147483648)%Z in
    (g' # 2147483648, g')
|}.

#[export] Instance pyset : PySet := {|
  set_iter := elements;
  set_iter_perm s := reflexivity (elements s)
|}.

(** Square root to six decimals, by the integer square root. *)
Definition sqrt6 (q : Q) : Q :=
  Z.sqrt (Qfloor (q * 1000000000000)) # 1000000.

(** [pi] as 355/113, the tangent by its series to the seventh power, the
    arc tangent by a rational fit on [[-1, 1]] extended by quadrants. *)
Definition pi : Q := 355 # 113.

Definition tan7 (x : Q) : Q :=
  let x2 := x * x in
  x * (1 + x2 * ((1 # 3) + x2 * ((2 # 15) + x2 * (17 # 315)))).

Definition atan_unit (t : Q) : Q := t / (1 + (28 # 100) * t * t).

Definition atan2_fit (y x : Q) : Q :=
  if Qeq_bool x 0 && Qeq_bool y 0 then 0
  else if Py.le (Qabs y) (Qabs x) then
    let a := atan_unit (y / x) in
    if Py.gt x 0 then a
    else if Py.ge y 0 then a + pi else a - pi
  else
    let a := atan_unit (x / y) in
    if Py.gt y 0 then pi / 2 - a else - (pi / 2) - a.

#[export] Instance math : Math := {|
  math_sqrt := sqrt6;
  math_tan := tan7;
  math_radians x := x * pi / 180;
  math_degrees x := x * 180 / pi;
  math_atan2 := atan2_fit
|}.

(** A solver that finds every model infeasible and counts its calls. *)
#[export] Instance cp_infeasible : CpSat := {|
  cp_world := nat;
  cp_solve _ _ _ n := (INFEASIBLE, fun _ => 0%Z, Datatypes.S n)
|}.

(** A solver that selects every candidate and reports [FEASIBLE]. *)
Definition cp_take_all : CpSat := {|
  cp_world := nat;
  cp_solve _ _ _ n := (FEASIBLE, fun _ => 1%Z, Datatypes.S n)
|}.

End Ref.

(** * Part II: properties *)

(** ** Comparisons, [min] and [%] *)

Lemma le_true a b : Py.le a b = true <-> a <= b.
Proof. apply Qle_bool_iff. Qed.

Lemma ge_true a b : Py.ge a b = true <-> b <= a.
Proof. apply Qle_bool_iff. Qed.

Lemma lt_true a b : Py.lt a b = true <-> a < b.
Proof.
  unfold Py.lt. rewrite negb_true_iff, <- not_true_iff_false, Qle_bool_iff.
  split; [apply Qnot_le_lt | apply Qlt_not_le].
Qed.

Lemma gt_true a b : Py.gt a b = true <-> b < a.
Proof.
  unfold Py.gt. rewrite negb_true_iff, <- not_true_iff_false, Qle_bool_iff.
  split; [apply Qnot_le_lt | apply Qlt_not_le].
Qed.

Lemma ge_false a b : Py.ge a b = false <-> a < b.
Proof.
  unfold Py.ge. rewrite <- not_true_iff_false, Qle_bool_iff.
  split; [apply Qnot_le_lt | apply Qlt_not_le].
Qed.

Lemma min_Qmin a b : Py.min a b == Qmin a b.
Proof.
  unfold Py.min. destruct (Qlt_le_dec b a) as [Hlt | Hle].
  - symmetry. apply Q.min_r. apply Qlt_le_weak, Hlt.
  - symmetry. apply Q.min_l. exact Hle.
Qed.

(** The remainder by a positive divisor lies in [[0, y)]. *)
Lemma mod_bounds x y : 0 < y -> 0 <= Py.mod_ x y /\ Py.mod_ x y < y.
Proof.
  intros Hy. unfold Py.mod_.
  pose proof (Qfloor_le (x / y)) as Hlo.
  pose proof (Qlt_floor (x / y)) as Hhi.
  rewrite inject_Z_plus in Hhi.
  assert (Hxy : x == y * (x / y)) by (field; lra).
  set (n := inject_Z (Qfloor (x / y))) in *.
  assert (H1 : y * n <= y * (x / y)) by (apply Qmult_le_l; assumption).
  assert (H2 : y * (x / y) < y * (n + inject_Z 1))
    by (apply Qmult_lt_l; assumption).
  change (inject_Z 1) with 1 in H2.
  split; lra.
Qed.

(** It is the only number of [[0, 360)] that differs from the dividend by
    a whole number of turns. *)
Lemma mod_unique (x : Q) (k : Z) (r : Q) :
  x == 360 * inject_Z k + r -> 0 <= r -> r < 360 -> Py.mod_ x 360 == r.
Proof.
  intros Hx H0 H1.
  destruct (mod_bounds x 360 ltac:(lra)) as [Hm0 Hm1].
  unfold Py.mod_ in *. set (n := Qfloor (x / 360)) in *.
  assert (Hd : 360 * inject_Z (k - n) == (x - 360 * inject_Z n) - r).
  { unfold Zminus. rewrite inject_Z_plus, inject_Z_opp. lra. }
  assert (Hlt : inject_Z (-1) < inject_Z (k - n) /\ inject_Z (k - n) < inject_Z 1).
  { change (inject_Z (-1)) with (-1). change (inject_Z 1) with 1. split; lra. }
  destruct Hlt as [Ha Hb]. rewrite <- Zlt_Qlt in Ha, Hb.
  assert (Hz : (k - n)%Z = 0%Z) by lia.
  rewrite Hz in Hd. change (inject_Z 0) with 0 in Hd. lra.
Qed.

Lemma mod_decompose x :
  x == 360 * inject_Z (Qfloor (x / 360)) + Py.mod_ x 360.
Proof. unfold Py.mod_. lra. Qed.

Lemma mod_shift x y (k : Z) :
  y == x + 360 * inject_Z k -> Py.mod_ y 360 == Py.mod_ x 360.
Proof.
  intros Hy.
  destruct (mod_bounds x 360 ltac:(lra)) as [H0 H1].
  apply (mod_unique y (Qfloor (x / 360) + k)); try assumption.
  rewrite inject_Z_plus, Hy.
  pose proof (mod_decompose x) as Hx. lra.
Qed.

Lemma mod_reflect x y :
  y == 360 - x ->
  Py.mod_ y 360 - 180 == - (Py.mod_ x 360 - 180) \/
  (Py.mod_ x 360 == 0 /\ Py.mod_ y 360 == 0).
Proof.
  intros Hy.
  destruct (mod_bounds x 360 ltac:(lra)) as [H0 H1].
  pose proof (mod_decompose x) as Hx.
  destruct (Qlt_le_dec 0 (Py.mod_ x 360)) as [Hpos | Hzero].
  - left.
    assert (Hm : Py.mod_ y 360 == 360 - Py.mod_ x 360).
    { apply (mod_unique y (- Qfloor (x / 360))); [| lra | lra].
      rewrite inject_Z_opp. lra. }
    lra.
  - right. assert (Hr : Py.mod_ x 360 == 0) by lra. split; [exact Hr |].
    apply (mod_unique y (1 - Qfloor (x / 360))); [| lra | lra].
    unfold Zminus. rewrite inject_Z_plus, inject_Z_opp.
    change (inject_Z 1) with 1. lra.
Qed.

(** ** Inversion of outcomes *)

Lemma bind_Returns {A B} (m : outcome A) (k : A -> outcome B) (b : B) :
  m ≫= k = Returns b -> exists a, m = Returns a /\ k a = Returns b.
Proof. destruct m; simpl; intros Hb; try discriminate. eauto. Qed.

Lemma bind_ret {A B} (a : A) (k : A -> outcome B) : Returns a ≫= k = k a.
Proof. reflexivity. Qed.

Lemma getitem_Some {V} (d : gmap Z V) (k : Z) (v : V) :
  d !! k = Some v -> getitem d k = Returns v.
Proof. unfold getitem. now intros ->. Qed.

(** An invariant of the state of a [for] loop. *)
Lemma for_each_invariant {A S} (P : S -> Prop) (body : S -> A -> outcome S)
    (l : list A) (s r : S) :
  (forall s a s', a ∈ l -> P s -> body s a = Returns s' -> P s') ->
  P s -> for_each body l s = Returns r -> P r.
Proof.
  revert s. induction l as [| a l IH]; intros s Hbody Hs Hr; simpl in Hr.
  - congruence.
  - apply bind_Returns in Hr as (s' & Hs' & Hr).
    apply (IH s'); [| | exact Hr].
    + intros s0 a0 s0' Hin. apply Hbody. now right.
    + eapply Hbody; [left | exact Hs | exact Hs'].
Qed.

(** A [for] loop whose body returns on every element returns. *)
Lemma for_each_returns {A S} (body : S -> A -> outcome S) (l : list A) (s : S) :
  (forall s a, a ∈ l -> exists s', body s a = Returns s') ->
  exists r, for_each body l s = Returns r.
Proof.
  revert s. induction l as [| a l IH]; intros s Hbody; cbn [for_each].
  - eauto.
  - destruct (Hbody s a) as [s' Hs']; [left |]. rewrite Hs', bind_ret.
    apply IH. intros s0 a0 Hin. apply Hbody. now right.
Qed.

(** ** Adequacy of [scan] *)

Section WhileLe.
Context {S : Type}.
Variables (hi step : Q) (body : Q -> S -> outcome S).

(** A result other than [Diverges] is stable under more fuel. *)
Lemma while_le_mono (fuel fuel' : nat) (v : Q) (s : S) :
  (fuel <= fuel')%nat ->
  while_le fuel hi step body v s <> Diverges ->
  while_le fuel' hi step body v s = while_le fuel hi step body v s.
Proof.
  revert fuel' v s. induction fuel as [| fuel IH]; intros fuel' v s Hle Hnd.
  - simpl in Hnd. congruence.
  - destruct fuel' as [| fuel']; [lia |]. simpl in *.
    destruct (Py.le v hi); [| reflexivity].
    destruct (body v s) as [s' | e |]; simpl in *; try reflexivity.
    apply IH; [lia | assumption].
Qed.

(** With a step that is not positive the condition stays true: the loop
    returns for no amount of fuel. *)
Lemma while_le_never_returns (fuel : nat) (v : Q) (s r : S) :
  step <= 0 -> v <= hi ->
  while_le fuel hi step body v s <> Returns r.
Proof.
  intros Hstep. revert v s. induction fuel as [| fuel IH]; intros v s Hv.
  - simpl. congruence.
  - simpl. apply le_true in Hv as Hb. rewrite Hb.
    destruct (body v s) as [s' | e |]; simpl; try congruence.
    apply IH. lra.
Qed.

Definition tests_left (v : Q) : nat :=
  Z.to_nat (Qfloor ((hi - v) / step) + 1).

Lemma tests_left_step (v : Q) :
  0 < step -> v <= hi ->
  tests_left v = Datatypes.S (tests_left (v + step)).
Proof.
  intros Hstep Hv. unfold tests_left.
  assert (Hq : (hi - (v + step)) / step == (hi - v) / step - 1)
    by (field; lra).
  rewrite (Qfloor_comp _ _ Hq).
  assert (Hf : Qfloor ((hi - v) / step - 1) = (Qfloor ((hi - v) / step) - 1)%Z).
  { pose proof (Qfloor_le ((hi - v) / step)) as H1.
    pose proof (Qlt_floor ((hi - v) / step)) as H2.
    pose proof (Qfloor_le ((hi - v) / step - 1)) as H3.
    pose proof (Qlt_floor ((hi - v) / step - 1)) as H4.
    rewrite inject_Z_plus in H2, H4. change (inject_Z 1) with 1 in H2, H4.
    set (a := Qfloor ((hi - v) / step)) in *.
    set (b := Qfloor ((hi - v) / step - 1)) in *.
    assert (Ha : inject_Z b < inject_Z (a - 1 + 1)).
    { rewrite inject_Z_plus. unfold Zminus.
      rewrite inject_Z_plus, inject_Z_opp.
      change (inject_Z 1) with 1. lra. }
    assert (Hb : inject_Z (a - 1) < inject_Z (b + 1)).
    { rewrite inject_Z_plus. unfold Zminus.
      rewrite inject_Z_plus, inject_Z_opp.
      change (inject_Z 1) with 1. lra. }
    rewrite <- Zlt_Qlt in Ha, Hb. lia. }
  rewrite Hf.
  assert (H0 : (0 <= Qfloor ((hi - v) / step))%Z).
  { change 0%Z with (Qfloor 0). apply Qfloor_resp_le.
    apply Qle_shift_div_l; lra. }
  lia.
Qed.

(** Two amounts of fuel above the number of remaining tests agree. *)
Lemma while_le_enough (fuel fuel' : nat) (v : Q) (s : S) :
  0 < step ->
  (tests_left v < fuel)%nat -> (tests_left v < fuel')%nat ->
  while_le fuel hi step body v s = while_le fuel' hi step body v s.
Proof.
  intros Hstep. revert fuel' v s.
  induction fuel as [| fuel IH]; intros fuel' v s H1 H2; [lia |].
  destruct fuel' as [| fuel']; [lia |]. simpl.
  destruct (Py.le v hi) eqn:Hv; [| reflexivity].
  apply le_true in Hv.
  rewrite (tests_left_step v Hstep Hv) in H1, H2.
  destruct (body v s) as [s' | e |]; simpl; try reflexivity.
  apply IH; lia.
Qed.

(** [scan] is the loop: whatever the loop returns with some fuel, [scan]
    returns. *)
Lemma scan_complete (fuel : nat) (lo : Q) (s r : S) :
  while_le fuel hi step body lo s = Returns r ->
  scan lo hi step body s = Returns r.
Proof.
  intros Hr. unfold scan, scan_fuel.
  destruct (Py.gt step 0) eqn:Hstep.
  - apply gt_true in Hstep.
    set (f := Datatypes.S (Z.to_nat (Qfloor ((hi - lo) / step) + 1))).
    rewrite <- Hr.
    rewrite <- (while_le_mono fuel (Nat.max fuel f) lo s); [| lia | congruence].
    apply while_le_enough; [assumption | |]; unfold tests_left, f; lia.
  - assert (Hs : step <= 0).
    { apply Qnot_lt_le. intros Hlt. apply gt_true in Hlt. congruence. }
    destruct (Py.le lo hi) eqn:Hlo.
    + apply le_true in Hlo.
      exfalso. eapply while_le_never_returns; eassumption.
    + destruct fuel as [| fuel]; [discriminate |].
      simpl in *. rewrite Hlo in *. assumption.
Qed.

(** With a positive step and a body that returns, [scan] returns. *)
Lemma scan_returns (lo : Q) (s : S) :
  0 < step ->
  (forall v s, exists s', body v s = Returns s') ->
  exists r, scan lo hi step body s = Returns r.
Proof.
  intros Hstep Hbody. unfold scan, scan_fuel.
  apply gt_true in Hstep as Hb. rewrite Hb.
  assert (Hgen : forall fuel v s, (tests_left v < fuel)%nat ->
            exists r, while_le fuel hi step body v s = Returns r).
  { induction fuel as [| fuel IH]; intros v s0 Hf; [lia |]. simpl.
    destruct (Py.le v hi) eqn:Hv; [| eauto].
    apply le_true in Hv.
    rewrite (tests_left_step v Hstep Hv) in Hf.
    destruct (Hbody v s0) as [s' Hs']. rewrite Hs'. simpl.
    apply IH. lia. }
  apply Hgen. unfold tests_left. lia.
Qed.

(** Invariants of the loop state. *)
Lemma while_le_invariant (P : S -> Prop) (fuel : nat) (v : Q) (s r : S) :
  (forall v s s', P s -> body v s = Returns s' -> P s') ->
  P s -> while_le fuel hi step body v s = Returns r -> P r.
Proof.
  intros Hbody. revert v s.
  induction fuel as [| fuel IH]; intros v s Hs Hr; simpl in Hr; [discriminate |].
  destruct (Py.le v hi).
  - apply bind_Returns in Hr as (s' & Hs' & Hr). eauto.
  - congruence.
Qed.

Lemma scan_invariant (P : S -> Prop) (lo : Q) (s r : S) :
  (forall v s s', P s -> body v s = Returns s' -> P s') ->
  P s -> scan lo hi step body s = Returns r -> P r.
Proof. unfold scan. apply while_le_invariant. Qed.

End WhileLe.

(** ** The effective radius *)

(** C1.  For every model and mount height [h]: if [dome_mode] is true or
    [hfov_deg >= 360], [compute_effective_radius] returns
    [0.9 * range_m]; otherwise it returns
    [min(range_m, h * tan(radians(vfov_deg / 2)))]. *)
Theorem compute_effective_radius_spec {ML : Math} (model : LidarModel) (h : Q) :
  (dome_mode model = true \/ 360 <= hfov_deg model ->
   compute_effective_radius model h == (9 # 10) * range_m model) /\
  (dome_mode model = false /\ hfov_deg model < 360 ->
   compute_effective_radius model h ==
     Qmin (range_m model)
          (h * math_tan (math_radians (vfov_deg model / 2)))).
Proof.
  unfold compute_effective_radius. split.
  - intros Hdome.
    assert (Hb : dome_mode model || Py.ge (hfov_deg model) 360 = true).
    { destruct Hdome as [-> | Hge]; [reflexivity |].
      apply orb_true_iff. right. now apply ge_true. }
    rewrite Hb. ring.
  - intros [Hdome Hlt].
    apply ge_false in Hlt. rewrite Hdome, Hlt. simpl.
    apply min_Qmin.
Qed.

(** The law at the default dome model and at a 90 degree sensor with a
    vertical field of view of 90 degrees mounted at 10 m. *)
Lemma compute_effective_radius_spec_witness :
  compute_effective_radius (ML := Ref.math) default_model 3 == (9 # 10) * 10 /\
  compute_effective_radius (ML := Ref.math)
    {| hfov_deg := 90; vfov_deg := 90; range_m := 5; dome_mode := false |} 10
  == Qmin 5 (10 * Ref.tan7 (45 * Ref.pi / 180)).
Proof.
  split.
  - apply (proj1 (compute_effective_radius_spec (ML := Ref.math) default_model 3)).
    left. reflexivity.
  - apply (proj2 (compute_effective_radius_spec (ML := Ref.math)
      {| hfov_deg := 90; vfov_deg := 90; range_m := 5; dome_mode := false |} 10)).
    split; reflexivity.
Defined.

(** ** The angular difference *)

Example smallest_angle_diff_same : smallest_angle_diff 45 45 == 0.
Proof. reflexivity. Qed.

Example smallest_angle_diff_180 :
  smallest_angle_diff 0 180 == 180 /\ smallest_angle_diff 90 270 == 180.
Proof. split; reflexivity. Qed.

Example smallest_angle_diff_wrap :
  smallest_angle_diff 10 350 == 20 /\ smallest_angle_diff 350 10 == 20.
Proof. split; reflexivity. Qed.

Example smallest_angle_diff_negative : smallest_angle_diff (-10) 10 == 20.
Proof. reflexivity. Qed.

(** C8.  For all angles [a] and [b], [smallest_angle_diff a b] lies in
    [[0, 180]], is symmetric in its arguments, and is unchanged when 360
    degrees is added to either argument. *)
Theorem smallest_angle_diff_spec (a b : Q) :
  (0 <= smallest_angle_diff a b /\ smallest_angle_diff a b <= 180) /\
  smallest_angle_diff a b == smallest_angle_diff b a /\
  smallest_angle_diff (a + 360) b == smallest_angle_diff a b /\
  smallest_angle_diff a (b + 360) == smallest_angle_diff a b.
Proof.
  unfold smallest_angle_diff. cbv zeta. repeat split.
  - apply Qabs_nonneg.
  - destruct (mod_bounds (a - b + 180) 360 ltac:(lra)) as [H0 H1].
    apply Qabs_Qle_condition. split; lra.
  - destruct (mod_reflect (a - b + 180) (b - a + 180) ltac:(lra))
      as [Hneg | [Hx Hy]].
    + rewrite Hneg. symmetry. apply Qabs_opp.
    + rewrite Hx, Hy. reflexivity.
  - apply Qabs_wd.
    rewrite (mod_shift (a - b + 180) (a + 360 - b + 180) 1); [reflexivity |].
    change (inject_Z 1) with 1. lra.
  - apply Qabs_wd.
    rewrite (mod_shift (a - b + 180) (a - (b + 360) + 180) (-1)); [reflexivity |].
    change (inject_Z (-1)) with (-1). lra.
Qed.

(** ** The sampler *)

Section Sampler.
Context {RL : Random} {SL : Shapely}.

(** The obstacles the sampler keeps are those with at least 3 vertices
    whose polygon is constructed and valid. *)
Lemma elem_of_obstacle_polys (g : geom) (obstacles : list vertices) :
  g ∈ obstacle_polys (Some obstacles) <->
  exists obs, obs ∈ obstacles /\ (3 <= length obs)%nat /\
              Polygon (coords obs) = Some g /\ is_valid g = true.
Proof.
  unfold obstacle_polys. rewrite list_elem_of_omap. unfold valid_obstacle.
  split; intros (obs & Hin & Hobs); exists obs.
  - destruct (3 <=? length obs)%nat eqn:Hlen; [| discriminate].
    apply Nat.leb_le in Hlen.
    destruct (Polygon (coords obs)) as [g' |]; [| discriminate].
    destruct (is_valid g') eqn:Hvalid; [| discriminate].
    injection Hobs as ->. auto.
  - destruct Hobs as (Hlen & Hpoly & Hvalid).
    apply Nat.leb_le in Hlen. rewrite Hlen, Hpoly, Hvalid. auto.
Qed.






(** The sampler returns whenever the spacing is positive, the seed is one
    [numpy] accepts, the polygon is not empty and its construction does
    not raise. *)
Lemma sample_points_in_polygon_returns (polygon : vertices) (spacing_m : Q)
    (seed : Z) (obstacles : option (list vertices)) :
  0 < spacing_m -> (0 <= seed < 2 ^ 32)%Z -> polygon <> [] ->
  Polygon (coords polygon) <> None ->
  exists points,
    sample_points_in_polygon polygon spacing_m seed obstacles = Returns points.
Proof.
  intros Hs Hseed Hne Hpoly. unfold sample_points_in_polygon, np_random_seed.
  assert (Hb : ((0 <=? seed) && (seed <? 2 ^ 32))%Z = true).
  { apply andb_true_iff. split; [apply Z.leb_le | apply Z.ltb_lt]; lia. }
  rewrite Hb. simpl.
  unfold bounding_box. destruct polygon as [| v polygon]; [congruence |].
  simpl. unfold make_polygon.
  destruct (Polygon (coords (v :: polygon))) as [poly |]; [| congruence].
  simpl.
  match goal with
  | |- exists _, scan ?lo ?hi ?st ?body ?s ≫= _ = _ =>
      destruct (scan_returns hi st body lo s Hs) as [[[g pts] idx] Hscan]
  end.
  - intros x s. apply scan_returns; [assumption |]. intros z s0. eauto.
  - rewrite Hscan. simpl. eauto.
Qed.

(** And it does not terminate when the spacing is not positive. *)
Lemma sample_points_in_polygon_diverges (polygon : vertices) (spacing_m : Q)
    (seed : Z) (obstacles : option (list vertices))
    (points : list SamplePoint.t) :
  spacing_m <= 0 -> (3 <= length polygon)%nat ->
  sample_points_in_polygon polygon spacing_m seed obstacles <> Returns points.
Proof.
  intros Hs Hlen Hr. unfold sample_points_in_polygon in Hr.
  apply bind_Returns in Hr as (_ & _ & Hr).
  apply bind_Returns in Hr as ([[[min_x max_x] min_z] max_z] & Hbox & Hr).
  apply bind_Returns in Hr as (poly & _ & Hr).
  apply bind_Returns in Hr as (st & Hscan & _).
  unfold scan, scan_fuel in Hscan.
  assert (Hgt : Py.gt spacing_m 0 = false).
  { apply not_true_iff_false. rewrite gt_true. lra. }
  rewrite Hgt in Hscan.
  destruct (Py.le (min_x + spacing_m / 2) max_x) eqn:Hle; [discriminate |].
  unfold bounding_box in Hbox.
  apply bind_Returns in Hbox as (x0 & Hmin_x & Hbox).
  apply bind_Returns in Hbox as (x1 & Hmax_x & Hbox).
  apply bind_Returns in Hbox as (z0 & _ & Hbox).
  apply bind_Returns in Hbox as (z1 & _ & Hbox).
  injection Hbox as -> -> -> ->.
  assert (Hmm : min_x <= max_x).
  { clear - Hmin_x Hmax_x.
    destruct (map Vertex.x polygon) as [| x r]; [discriminate |].
    simpl in *. injection Hmin_x as <-. injection Hmax_x as <-.
    assert (Hmin : forall l m, fold_left (fun m y => if Py.lt y m then y else m) l m <= m).
    { induction l as [| y l IH]; intros m; simpl; [lra |].
      destruct (Py.lt y m) eqn:Hlt; [| apply IH].
      apply lt_true in Hlt. specialize (IH y). lra. }
    assert (Hmax : forall l m, m <= fold_left (fun m y => if Py.gt y m then y else m) l m).
    { induction l as [| y l IH]; intros m; simpl; [lra |].
      destruct (Py.gt y m) eqn:Hlt; [| apply IH].
      apply gt_true in Hlt. specialize (IH y). lra. }
    specialize (Hmin r x). specialize (Hmax r x). lra. }
  apply not_true_iff_false in Hle. apply Hle. apply le_true.
  assert (Hhalf : spacing_m / 2 <= 0).
  { apply Qle_shift_div_r; lra. }
  lra.
Qed.

End Sampler.

Section SamplerExample.
Import Ref.


End SamplerExample.

(** ** Marking the critical points *)

Section Critical.
Context {SL : Shapely}.

(** C10.  [mark_critical_points] changes only [is_critical]: the index and
    the coordinates of every point are unchanged, [is_critical] changes
    only from false to true and only for a point the critical polygon
    contains, and without a critical polygon, or with one of fewer than 3
    vertices, no point is modified. *)
Theorem mark_critical_points_frame (points : list SamplePoint.t)
    (critical_polygon : option vertices) (points' : list SamplePoint.t) :
  mark_critical_points points critical_polygon = Returns points' ->
  length points' = length points /\
  (forall (i : nat) p p',
     points !! i = Some p -> points' !! i = Some p' ->
     SamplePoint.idx p' = SamplePoint.idx p /\
     SamplePoint.x p' = SamplePoint.x p /\
     SamplePoint.z p' = SamplePoint.z p /\
     (SamplePoint.is_critical p' <> SamplePoint.is_critical p ->
      SamplePoint.is_critical p = false /\
      SamplePoint.is_critical p' = true /\
      exists cp crit_poly,
        critical_polygon = Some cp /\ (3 <= length cp)%nat /\
        Polygon (coords cp) = Some crit_poly /\
        contains crit_poly (SamplePoint.x p, SamplePoint.z p) = true)) /\
  ((critical_polygon = None \/
    exists cp, critical_polygon = Some cp /\ (length cp < 3)%nat) ->
   points' = points).
Proof.
  unfold mark_critical_points. intros Hr.
  destruct critical_polygon as [cp |].
  - destruct (3 <=? length cp)%nat eqn:Hlen.
    + apply Nat.leb_le in Hlen.
      apply bind_Returns in Hr as (crit_poly & Hmk & Hr).
      injection Hr as <-.
      unfold make_polygon in Hmk.
      destruct (Polygon (coords cp)) as [g |] eqn:Hpoly; [| discriminate].
      injection Hmk as ->.
      split; [apply length_map |]. split.
      * intros i p p' Hp Hp'.
        rewrite list_lookup_fmap, Hp in Hp'. simpl in Hp'.
        injection Hp' as <-.
        destruct (contains crit_poly (SamplePoint.x p, SamplePoint.z p)) eqn:Hin.
        -- simpl. repeat split; try reflexivity.
           ++ destruct (SamplePoint.is_critical p); congruence.
           ++ exists cp, crit_poly. auto.
        -- repeat split; congruence.
      * intros [Hnone | (cp' & [= <-] & Hshort)]; [discriminate | lia].
    + injection Hr as <-. split; [reflexivity |]. split; [| reflexivity].
      intros i p p' Hp Hp'. rewrite Hp in Hp'. injection Hp' as <-.
      repeat split; congruence.
  - injection Hr as <-. split; [reflexivity |]. split; [| reflexivity].
    intros i p p' Hp Hp'. rewrite Hp in Hp'. injection Hp' as <-.
    repeat split; congruence.
Qed.

(** The call returns unless the constructor of the critical polygon
    raises. *)
Lemma mark_critical_points_returns (points : list SamplePoint.t)
    (critical_polygon : option vertices) :
  (forall cp, critical_polygon = Some cp -> Polygon (coords cp) <> None) ->
  exists points', mark_critical_points points critical_polygon = Returns points'.
Proof.
  intros Hok. unfold mark_critical_points.
  destruct critical_polygon as [cp |]; [| eauto].
  destruct (3 <=? length cp)%nat; [| eauto].
  unfold make_polygon. specialize (Hok cp eq_refl).
  destruct (Polygon (coords cp)); [simpl; eauto | congruence].
Qed.

End Critical.

Section CriticalExample.
Import Ref.

(** Two points, one of them inside the unit square. *)
Lemma mark_critical_points_frame_witness :
  exists points',
    mark_critical_points
      [SamplePoint.mk 0 (1 # 2) (1 # 2) false; SamplePoint.mk 1 3 3 false]
      (Some [Vertex.mk 0 0; Vertex.mk 1 0; Vertex.mk 1 1; Vertex.mk 0 1])
    = Returns points' /\
    map SamplePoint.is_critical points' = [true; false] /\
    length points' = 2%nat.
Proof.
  eexists. split; [vm_compute; reflexivity |]. split; [reflexivity |].
  apply (mark_critical_points_frame (SL := shapely)
    [SamplePoint.mk 0 (1 # 2) (1 # 2) false; SamplePoint.mk 1 3 3 false]
    (Some [Vertex.mk 0 0; Vertex.mk 1 0; Vertex.mk 1 1; Vertex.mk 0 1])).
  vm_compute. reflexivity.
Defined.

End CriticalExample.

(** ** The candidate generator *)

Section Candidates.
Context {SL : Shapely}.

(** A dome or full-circle model has the single yaw 0. *)
Lemma yaw_angles_dome (model : LidarModel) :
  dome_mode model = true \/ 360 <= hfov_deg model ->
  yaw_angles model = [0].
Proof.
  intros Hdome. unfold yaw_angles.
  assert (Hb : Py.ge (hfov_deg model) 360 || dome_mode model = true).
  { apply orb_true_iff. destruct Hdome as [-> | Hge]; [now right | left].
    now apply ge_true. }
  now rewrite Hb.
Qed.

(** A partial model has the twelve yaws 0, 30, ..., 330, whatever the
    settings. *)
Lemma yaw_angles_partial (model : LidarModel) :
  dome_mode model = false -> hfov_deg model < 360 ->
  yaw_angles model = Py.arange 0 360 30 /\
  Forall2 Qeq (yaw_angles model)
    [0; 30; 60; 90; 120; 150; 180; 210; 240; 270; 300; 330].
Proof.
  intros Hdome Hlt. unfold yaw_angles.
  apply ge_false in Hlt. rewrite Hlt, Hdome. simpl orb. cbv iota.
  split; [reflexivity |].
  vm_compute. repeat constructor.
Qed.

(** Position and yaw of a candidate. *)
Definition pose (c : Candidate.t) : Q * Q * Q :=
  (Candidate.x c, Candidate.z c, Candidate.yaw_deg c).

(** The loop over the yaws appends one candidate per yaw, in order, with
    consecutive indices. *)
Lemma yaw_loop (x z : Q) (yaws : list Q) (candidates : list Candidate.t)
    (idx : Z) :
  exists new,
    fold_left
      (fun '(candidates, idx) yaw =>
         (candidates ++ [Candidate.mk idx x z yaw []], (idx + 1)%Z))
      yaws (candidates, idx)
    = (candidates ++ new, (idx + Py.len yaws)%Z) /\
    map pose new = map (fun yaw => (x, z, yaw)) yaws /\
    map Candidate.idx new = range_from idx (idx + Py.len yaws).
Proof.
  revert candidates idx. induction yaws as [| yaw yaws IH]; intros candidates idx.
  - exists []. unfold Py.len, range_from. simpl.
    rewrite app_nil_r, Z.add_0_r, Z.sub_diag. auto.
  - simpl fold_left.
    destruct (IH (candidates ++ [Candidate.mk idx x z yaw []]) (idx + 1)%Z)
      as (new & Hfold & Hpose & Hidx).
    exists (Candidate.mk idx x z yaw [] :: new).
    rewrite Hfold, <- app_assoc. simpl.
    unfold Py.len in *. simpl length.
    split; [f_equal; lia |]. split; [now rewrite Hpose |].
    rewrite Hidx. unfold range_from.
    replace (idx + 1 + Z.of_nat (length yaws) - (idx + 1))%Z
      with (Z.of_nat (length yaws)) by lia.
    replace (idx + Z.of_nat (Datatypes.S (length yaws)) - idx)%Z
      with (Z.of_nat (Datatypes.S (length yaws))) by lia.
    rewrite !Nat2Z.id. simpl. f_equal; [f_equal; lia |].
    rewrite <- seq_shift, map_map. apply map_ext. intros k. lia.
Qed.

(** Whether the generator accepts a grid position. *)
Definition accepted_position (poly : geom) (obstacle_union : option geom)
    (pos : Q * Q) : Prop :=
  contains poly pos = true /\
  forall u, obstacle_union = Some u -> is_empty u = false ->
            contains u pos = false.

(** The invariant of the two loops: the candidates are the accepted
    positions visited so far, each with every yaw in order, and the
    indices are consecutive from 0. *)
Definition generator_inv (poly : geom) (obstacle_union : option geom)
    (yaws : list Q) (st : list Candidate.t * Z) : Prop :=
  let '(candidates, idx) := st in
  idx = Py.len candidates /\
  map Candidate.idx candidates = range (Py.len candidates) /\
  exists positions,
    Forall (accepted_position poly obstacle_union) positions /\
    map pose candidates
    = positions ≫= (fun '(x, z) => map (fun yaw => (x, z, yaw)) yaws).

Lemma range_app (n m : Z) :
  (0 <= n)%Z -> (0 <= m)%Z ->
  range (n + m) = range n ++ range_from n (n + m).
Proof.
  intros Hn Hm. unfold range, range_from.
  replace (n + m - n)%Z with m by lia.
  rewrite Z2Nat.inj_add by assumption.
  rewrite seq_app, map_app. f_equal. simpl.
  rewrite <- (map_map Z.of_nat (fun i => (n + i)%Z)).
  replace (seq (Z.to_nat n) (Z.to_nat m))
    with (map (fun k => (Z.to_nat n + k)%nat) (seq 0 (Z.to_nat m))).
  - rewrite !map_map. apply map_ext. intros k. lia.
  - change (map (fun k => (Z.to_nat n + k)%nat) (seq 0 (Z.to_nat m)))
      with (Nat.add (Z.to_nat n) <$> seq 0 (Z.to_nat m)).
    rewrite fmap_add_seq. f_equal. lia.
Qed.

Lemma candidate_cell_inv poly obstacle_union yaws x z st :
  generator_inv poly obstacle_union yaws st ->
  generator_inv poly obstacle_union yaws
    (candidate_cell poly obstacle_union yaws x z st).
Proof.
  destruct st as [candidates idx]. unfold candidate_cell.
  intros (Hidx & Hseq & positions & Hacc & Hpose).
  destruct (contains poly (x, z)) eqn:Hin; [| now repeat split; eauto].
  match goal with
  | |- context [if ?v then _ else _] => destruct v eqn:Hvalid
  end; [| now repeat split; eauto].
  destruct (yaw_loop x z yaws candidates idx) as (new & -> & Hnew & Hnewidx).
  unfold generator_inv. unfold Py.len in *.
  rewrite length_app, !map_app, Hseq, Hnewidx, Nat2Z.inj_add.
  assert (Hlen : length new = length yaws).
  { rewrite <- (length_map pose new), Hnew. apply length_map. }
  rewrite Hlen. subst idx.
  split; [lia |]. split; [symmetry; apply range_app; lia |].
  exists (positions ++ [(x, z)]). split.
  - apply Forall_app. split; [assumption |]. constructor; [| constructor].
    split; [assumption |]. intros u -> Hne. rewrite Hne in Hvalid.
    simpl in Hvalid. now apply negb_true_iff in Hvalid.
  - rewrite bind_app, Hpose, Hnew. simpl. now rewrite app_nil_r.
Qed.

(** The candidates of a run: one per accepted position and yaw of
    [yaw_angles], position by position, with indices 0, 1, 2, ... and
    empty coverage lists. *)
Lemma generate_candidates_structure (polygon : vertices)
    (spacing_m keepout_m : Q) (model : LidarModel) (seed : Z)
    (obstacles : option (list vertices)) (candidates : list Candidate.t) :
  generate_candidates polygon spacing_m keepout_m model seed obstacles
  = Returns candidates ->
  exists poly positions,
    Polygon (coords polygon) = Some poly /\
    Forall (accepted_position poly
              (union_or_none (obstacle_buffers keepout_m obstacles)))
           positions /\
    map pose candidates
    = positions ≫= (fun '(x, z) => map (fun yaw => (x, z, yaw)) (yaw_angles model)) /\
    map Candidate.idx candidates = range (Py.len candidates).
Proof.
  unfold generate_candidates. intros Hr.
  apply bind_Returns in Hr as ([[[min_x max_x] min_z] max_z] & _ & Hr).
  apply bind_Returns in Hr as (poly & Hmk & Hr).
  apply bind_Returns in Hr as ([candidates' idx] & Hscan & Hr).
  injection Hr as ->.
  unfold make_polygon in Hmk.
  destruct (Polygon (coords polygon)) as [g |] eqn:Hpoly; [| discriminate].
  injection Hmk as ->.
  set (ou := union_or_none (obstacle_buffers keepout_m obstacles)) in *.
  assert (Hinv : generator_inv poly ou (yaw_angles model) (candidates, idx)).
  { eapply scan_invariant; [| | exact Hscan].
    - intros x st st' Hst Hinner.
      eapply scan_invariant; [| exact Hst | exact Hinner].
      intros z s s' Hs [= <-]. now apply candidate_cell_inv.
    - repeat split. exists []. split; [constructor | reflexivity]. }
  destruct Hinv as (_ & Hseq & positions & Hacc & Hpose).
  exists poly, positions. auto.
Qed.

(** For a dome or full-circle model every accepted position yields exactly
    one candidate, of yaw 0. *)
Lemma generate_candidates_dome (polygon : vertices)
    (spacing_m keepout_m : Q) (model : LidarModel) (seed : Z)
    (obstacles : option (list vertices)) (candidates : list Candidate.t) :
  dome_mode model = true \/ 360 <= hfov_deg model ->
  generate_candidates polygon spacing_m keepout_m model seed obstacles
  = Returns candidates ->
  exists positions,
    map pose candidates = map (fun '(x, z) => (x, z, 0)) positions.
Proof.
  intros Hdome Hr.
  destruct (generate_candidates_structure _ _ _ _ _ _ _ Hr)
    as (poly & positions & _ & _ & Hpose & _).
  exists positions. rewrite Hpose, (yaw_angles_dome model Hdome).
  clear. induction positions as [| [x z] positions IH]; [reflexivity |].
  simpl. now rewrite <- IH.
Qed.

End Candidates.

Section CandidatesExample.
Import Ref.

(** A request for a 90 degree sensor with [yaw_step_deg = 45]. *)
Definition request_yaw_45 : Params :=
  {| roi_polygon := [Vertex.mk 0 0; Vertex.mk 2 0; Vertex.mk 2 2; Vertex.mk 0 2];
     obstacles := [];
     critical_polygon := None;
     model := {| hfov_deg := 90; vfov_deg := 30; range_m := 10;
                 dome_mode := false |};
     settings :=
       {| mount_y_m := 3; sample_spacing_m := 1; candidate_spacing_m := 2;
          keepout_distance_m := 1 # 2; overlap_mode := "everywhere";
          k_required := 1; overlap_target_pct := 4 # 5; los_enabled := false;
          los_cell_m := 1 # 4; yaw_step_deg := 45; max_sensors := 50;
          solver_time_limit_s := 10; seed := 42 |} |}.

(** C2.  With [yaw_step_deg = 45] the generator, called as the solve
    calls it, still emits the twelve yaws 0, 30, ..., 330 at the one grid
    position of the 2 by 2 square, not the eight yaws 0, 45, ..., 315 of
    the setting. *)
Theorem generate_candidates_ignores_yaw_step :
  exists candidates,
    generate_candidates (roi_polygon request_yaw_45)
      (candidate_spacing_m (settings request_yaw_45))
      (keepout_distance_m (settings request_yaw_45))
      (model request_yaw_45) (seed (settings request_yaw_45))
      (Some (obstacles request_yaw_45))
    = Returns candidates /\
    Forall (fun c => Candidate.x c == 1 /\ Candidate.z c == 1) candidates /\
    map Candidate.yaw_deg candidates = Py.arange 0 360 30 /\
    length candidates = 12%nat /\
    length (Py.arange 0 360 (yaw_step_deg (settings request_yaw_45))) = 8%nat.
Proof.
  eexists. split; [vm_compute; reflexivity |].
  split; [repeat constructor |]. repeat split.
Qed.

End CandidatesExample.

(** ** The occupancy grid *)

Section ObstacleGrid.
Context {SL : Shapely}.

(** A grid of [height] rows of [width] cells. *)
Definition grid_wf (height width : Z) (grid : ndarray) : Prop :=
  shape grid = (height, width) /\
  length (data grid) = Z.to_nat height /\
  Forall (fun r => length r = Z.to_nat width) (data grid).

Lemma np_zeros_wf (height width : Z) (grid : ndarray) :
  np_zeros height width = Returns grid ->
  (0 <= height)%Z /\ (0 <= width)%Z /\ grid_wf height width grid /\
  forall row col, grid_get grid row col = false.
Proof.
  unfold np_zeros. intros Hz.
  destruct ((height <? 0) || (width <? 0))%Z eqn:Hneg; [discriminate |].
  apply orb_false_iff in Hneg as [Hh Hw].
  apply Z.ltb_ge in Hh, Hw. injection Hz as <-.
  split; [assumption |]. split; [assumption |]. split.
  - split; [reflexivity |]. simpl. split; [apply length_replicate |].
    apply Forall_replicate, length_replicate.
  - intros row col. unfold grid_get. simpl.
    destruct (replicate (Z.to_nat height) (replicate (Z.to_nat width) false)
              !! Z.to_nat row) as [r |] eqn:Hrow; [| reflexivity].
    apply lookup_replicate in Hrow as [-> _].
    destruct (replicate (Z.to_nat width) false !! Z.to_nat col) as [b |] eqn:Hcol;
      [| reflexivity].
    apply lookup_replicate in Hcol as [-> _]. reflexivity.
Qed.

Lemma grid_set_wf (height width row col : Z) (grid : ndarray) :
  grid_wf height width grid -> grid_wf height width (grid_set grid row col).
Proof.
  intros (Hshape & Hlen & Hrows). unfold grid_set, grid_wf. simpl.
  split; [assumption |]. split; [now rewrite length_alter |].
  apply Forall_lookup. intros i r Hi.
  rewrite Forall_lookup in Hrows.
  destruct (decide (Z.to_nat row = i)) as [<- | Hne].
  - rewrite list_lookup_alter_eq in Hi.
    destruct (data grid !! Z.to_nat row) as [r0 |] eqn:Hr0; [| discriminate].
    injection Hi as <-. rewrite length_insert. eauto.
  - rewrite list_lookup_alter_ne in Hi by assumption. eauto.
Qed.

(** Reading a cell after a write within the shape. *)
Lemma grid_get_set (height width row col row' col' : Z) (grid : ndarray) :
  grid_wf height width grid ->
  (0 <= row < height)%Z -> (0 <= col < width)%Z ->
  (0 <= row')%Z -> (0 <= col')%Z ->
  grid_get (grid_set grid row col) row' col' = true <->
  (row' = row /\ col' = col) \/ grid_get grid row' col' = true.
Proof.
  intros (Hshape & Hlen & Hrows) Hrow Hcol Hrow' Hcol'.
  unfold grid_get, grid_set. simpl.
  destruct (decide (Z.to_nat row = Z.to_nat row')) as [Heq | Hne].
  - assert (row' = row) by lia. subst row'.
    rewrite list_lookup_alter_eq.
    destruct (data grid !! Z.to_nat row) as [r |] eqn:Hr.
    + simpl. rewrite Forall_lookup in Hrows. specialize (Hrows _ _ Hr).
      destruct (decide (Z.to_nat col = Z.to_nat col')) as [Hc | Hc].
      * assert (col' = col) by lia. subst col'.
        rewrite list_lookup_insert_eq by lia. simpl. tauto.
      * rewrite list_lookup_insert_ne by assumption.
        split; [auto |]. intros [[_ ->] | Hg]; [congruence | assumption].
    + apply lookup_ge_None in Hr. lia.
  - rewrite list_lookup_alter_ne by assumption.
    split; [auto |]. intros [[-> _] | Hg]; [congruence | assumption].
Qed.

(** The centre of cell [(row, col)]. *)
Definition cell_centre (min_x min_z cell_size : Q) (row col : Z) : Q * Q :=
  (min_x + (inject_Z col + (1 # 2)) * cell_size,
   min_z + (inject_Z row + (1 # 2)) * cell_size).

Lemma elem_of_range (n i : Z) : i ∈ range n <-> (0 <= i < n)%Z.
Proof.
  unfold range. rewrite list_elem_of_fmap. split.
  - intros (k & -> & Hk). apply elem_of_seq in Hk. lia.
  - intros Hi. exists (Z.to_nat i). split; [lia |]. apply elem_of_seq. lia.
Qed.

(** The loop over the columns of one row, for an arbitrary list of
    columns within the shape. *)
Lemma mark_row_get (obs_poly : geom) (min_x min_z cell_size : Q)
    (height width r : Z) (cols : list Z) (grid : ndarray) :
  (0 <= r < height)%Z ->
  grid_wf height width grid ->
  Forall (fun c => 0 <= c < width)%Z cols ->
  let grid' :=
    fold_left
      (fun grid col =>
         if contains obs_poly (cell_centre min_x min_z cell_size r col)
         then grid_set grid r col else grid)
      cols grid in
  grid_wf height width grid' /\
  forall row col, (0 <= row)%Z -> (0 <= col)%Z ->
    grid_get grid' row col = true <->
    grid_get grid row col = true \/
    (row = r /\ col ∈ cols /\
     contains obs_poly (cell_centre min_x min_z cell_size row col) = true).
Proof.
  intros Hr. revert grid.
  induction cols as [| c cols IH]; intros grid Hwf Hcols; simpl.
  - split; [assumption |]. intros row col _ _. split; [auto |].
    intros [Hg | (_ & Hin & _)]; [assumption |].
    now apply not_elem_of_nil in Hin.
  - apply Forall_cons in Hcols as [Hc Hcols].
    destruct (contains obs_poly (cell_centre min_x min_z cell_size r c)) eqn:Hin.
    + destruct (IH (grid_set grid r c) (grid_set_wf _ _ _ _ _ Hwf) Hcols)
        as [Hwf' Hget].
      split; [assumption |]. intros row col Hrow Hcol.
      rewrite (Hget row col Hrow Hcol).
      rewrite (grid_get_set height width r c row col grid Hwf Hr Hc Hrow Hcol).
      rewrite elem_of_cons. split.
      * intros [[[-> ->] | Hg] | (-> & Hcs & Hc')]; auto.
      * intros [Hg | (-> & [-> | Hcs] & Hc')]; auto.
    + destruct (IH grid Hwf Hcols) as [Hwf' Hget].
      split; [assumption |]. intros row col Hrow Hcol.
      rewrite (Hget row col Hrow Hcol), elem_of_cons. split.
      * intros [Hg | (-> & Hcs & Hc')]; auto.
      * intros [Hg | (-> & [-> | Hcs] & Hc')]; auto. congruence.
Qed.

(** The loops over the cells, for arbitrary lists of rows and columns
    within the shape: a cell is set afterwards iff it was set before or it
    is visited and the polygon contains its centre. *)
Lemma mark_cells_get (obs_poly : geom) (min_x min_z cell_size : Q)
    (height width : Z) (rows cols : list Z) (grid : ndarray) :
  grid_wf height width grid ->
  Forall (fun r => 0 <= r < height)%Z rows ->
  Forall (fun c => 0 <= c < width)%Z cols ->
  let grid' :=
    fold_left
      (fun grid row =>
         fold_left
           (fun grid col =>
              if contains obs_poly (cell_centre min_x min_z cell_size row col)
              then grid_set grid row col else grid)
           cols grid)
      rows grid in
  grid_wf height width grid' /\
  forall row col, (0 <= row)%Z -> (0 <= col)%Z ->
    grid_get grid' row col = true <->
    grid_get grid row col = true \/
    (row ∈ rows /\ col ∈ cols /\
     contains obs_poly (cell_centre min_x min_z cell_size row col) = true).
Proof.
  intros Hwf Hrows Hcols. revert grid Hwf.
  induction rows as [| r rows IH]; intros grid Hwf; simpl.
  - split; [assumption |]. intros row col _ _. split; [auto |].
    intros [Hg | (Hin & _)]; [assumption |].
    now apply not_elem_of_nil in Hin.
  - apply Forall_cons in Hrows as [Hr Hrows].
    destruct (mark_row_get obs_poly min_x min_z cell_size height width r cols
                grid Hr Hwf Hcols) as [Hwf1 Hget1].
    destruct (IH Hrows _ Hwf1) as [Hwf2 Hget2].
    split; [assumption |]. intros row col Hrow Hcol.
    rewrite (Hget2 row col Hrow Hcol), (Hget1 row col Hrow Hcol), elem_of_cons.
    split.
    + intros [[Hg | (-> & Hcs & Hc')] | (Hrs & Hcs & Hc')]; auto.
    + intros [Hg | ([-> | Hrs] & Hcs & Hc')]; auto.
Qed.

Lemma mark_obstacle_cells_get (obs_poly : geom) (min_x min_z cell_size : Q)
    (height width : Z) (grid : ndarray) :
  grid_wf height width grid ->
  grid_wf height width
    (mark_obstacle_cells obs_poly min_x min_z cell_size height width grid) /\
  forall row col, (0 <= row < height)%Z -> (0 <= col < width)%Z ->
    grid_get (mark_obstacle_cells obs_poly min_x min_z cell_size height width grid)
             row col = true <->
    grid_get grid row col = true \/
    contains obs_poly (cell_centre min_x min_z cell_size row col) = true.
Proof.
  intros Hwf.
  destruct (mark_cells_get obs_poly min_x min_z cell_size height width
              (range height) (range width) grid Hwf) as [Hwf' Hget].
  - apply Forall_forall. intros r. apply elem_of_range.
  - apply Forall_forall. intros c. apply elem_of_range.
  - split; [exact Hwf' |]. intros row col Hrow Hcol.
    unfold mark_obstacle_cells.
    etransitivity; [apply Hget; lia |].
    rewrite !elem_of_range. tauto.
Qed.

(** An obstacle that marks cells: at least 3 vertices, constructed and
    valid, and containing the point. *)
Definition obstacle_covers (obstacles : list vertices) (pt : Q * Q) : Prop :=
  exists obs obs_poly,
    obs ∈ obstacles /\ (3 <= length obs)%nat /\
    Polygon (coords obs) = Some obs_poly /\ is_valid obs_poly = true /\
    contains obs_poly pt = true.

(** The loop over the obstacles. *)
Lemma obstacle_loop_get (min_x min_z cell_size : Q) (height width : Z)
    (obstacles : list vertices) (grid grid' : ndarray) :
  for_each
    (fun grid obs =>
       if (3 <=? length obs)%nat then
         obs_poly ← make_polygon obs;
         if negb (is_valid obs_poly) then Returns grid
         else Returns (mark_obstacle_cells obs_poly min_x min_z cell_size
                         height width grid)
       else Returns grid)
    obstacles grid = Returns grid' ->
  grid_wf height width grid ->
  grid_wf height width grid' /\
  forall row col, (0 <= row < height)%Z -> (0 <= col < width)%Z ->
    grid_get grid' row col = true <->
    grid_get grid row col = true \/
    obstacle_covers obstacles (cell_centre min_x min_z cell_size row col).
Proof.
  revert grid. induction obstacles as [| obs obstacles IH]; intros grid Hr Hwf.
  - simpl in Hr. injection Hr as <-. split; [assumption |].
    intros row col _ _. split; [auto |].
    intros [Hg | (obs & g & Hin & _)]; [assumption |].
    now apply not_elem_of_nil in Hin.
  - cbn [for_each] in Hr. apply bind_Returns in Hr as (grid1 & Hstep & Hr).
    assert (Hone : grid_wf height width grid1 /\
      forall row col, (0 <= row < height)%Z -> (0 <= col < width)%Z ->
        grid_get grid1 row col = true <->
        grid_get grid row col = true \/
        obstacle_covers [obs] (cell_centre min_x min_z cell_size row col)).
    { destruct (3 <=? length obs)%nat eqn:Hlen.
      - apply Nat.leb_le in Hlen.
        apply bind_Returns in Hstep as (obs_poly & Hmk & Hstep).
        unfold make_polygon in Hmk.
        destruct (Polygon (coords obs)) as [g |] eqn:Hpoly; [| discriminate].
        injection Hmk as ->.
        destruct (is_valid obs_poly) eqn:Hvalid; simpl in Hstep;
          injection Hstep as <-.
        + destruct (mark_obstacle_cells_get obs_poly min_x min_z cell_size
                      height width grid Hwf) as [Hwf1 Hget].
          split; [assumption |]. intros row col Hrow Hcol.
          rewrite (Hget row col Hrow Hcol).
          split; intros [Hg | Hc]; auto.
          * right. exists obs, obs_poly. repeat split; auto. left.
          * destruct Hc as (obs' & g' & Hin & _ & Hpoly' & _ & Hc).
            apply list_elem_of_singleton in Hin. subst obs'.
            rewrite Hpoly in Hpoly'. injection Hpoly' as <-. auto.
        + split; [assumption |]. intros row col _ _. split; [auto |].
          intros [Hg | (obs' & g' & Hin & _ & Hpoly' & Hv & _)]; [assumption |].
          apply list_elem_of_singleton in Hin. subst obs'.
          rewrite Hpoly in Hpoly'. injection Hpoly' as <-. congruence.
      - injection Hstep as <-. split; [assumption |].
        intros row col _ _. split; [auto |].
        intros [Hg | (obs' & g' & Hin & Hlen' & _)]; [assumption |].
        apply list_elem_of_singleton in Hin. subst obs'.
        apply Nat.leb_gt in Hlen. lia. }
    destruct Hone as [Hwf1 Hget1].
    destruct (IH grid1 Hr Hwf1) as [Hwf' Hget'].
    split; [assumption |]. intros row col Hrow Hcol.
    rewrite (Hget' row col Hrow Hcol), (Hget1 row col Hrow Hcol).
    unfold obstacle_covers. split.
    + intros [[Hg | (o & g & Hin & Hrest)] | (o & g & Hin & Hrest)]; auto.
      * apply list_elem_of_singleton in Hin. subst o.
        right. exists obs, g. split; [left | assumption].
      * right. exists o, g. split; [now right | assumption].
    + intros [Hg | (o & g & Hin & Hrest)]; auto.
      apply elem_of_cons in Hin as [-> | Hin].
      * left. right. exists obs, g. split; [left | assumption].
      * right. exists o, g. auto.
Qed.

(** C4 (as the code has it).  [build_obstacle_grid] allocates a grid over
    the bounding box of the ROI with
    [rows = int((max_z - min_z) / cell) + 1] and
    [cols = int((max_x - min_x) / cell) + 1], where [int] truncates, and
    cell [(r, c)] is true iff its centre
    [(min_x + (c + 0.5) * cell, min_z + (r + 0.5) * cell)] lies inside
    some valid obstacle polygon. *)
Theorem build_obstacle_grid_spec (polygon : vertices)
    (obstacles : list vertices) (cell_size : Q)
    (grid : ndarray) (bounds : GridBounds) :
  build_obstacle_grid polygon obstacles cell_size = Returns (grid, bounds) ->
  exists min_x max_x min_z max_z,
    bounding_box polygon = Returns (min_x, max_x, min_z, max_z) /\
    bounds = {| b_min_x := min_x; b_max_x := max_x;
                b_min_z := min_z; b_max_z := max_z |} /\
    let rows := (Py.int ((max_z - min_z) / cell_size) + 1)%Z in
    let cols := (Py.int ((max_x - min_x) / cell_size) + 1)%Z in
    grid_wf rows cols grid /\
    forall r c, (0 <= r < rows)%Z -> (0 <= c < cols)%Z ->
      grid_get grid r c = true <->
      obstacle_covers obstacles (cell_centre min_x min_z cell_size r c).
Proof.
  unfold build_obstacle_grid. intros Hr.
  apply bind_Returns in Hr as ([[[min_x max_x] min_z] max_z] & Hbox & Hr).
  apply bind_Returns in Hr as (qw & Hqw & Hr).
  apply bind_Returns in Hr as (qh & Hqh & Hr).
  apply bind_Returns in Hr as (grid0 & Hzeros & Hr).
  apply bind_Returns in Hr as (grid1 & Hloop & Hr).
  injection Hr as -> <-.
  unfold truediv in Hqw, Hqh.
  destruct (Qeq_bool cell_size 0); [discriminate |].
  injection Hqw as <-. injection Hqh as <-.
  exists min_x, max_x, min_z, max_z.
  split; [exact Hbox |]. split; [reflexivity |]. cbv zeta.
  apply np_zeros_wf in Hzeros as (_ & _ & Hwf0 & Hfalse).
  destruct (obstacle_loop_get _ _ _ _ _ _ _ _ Hloop Hwf0) as [Hwf Hget].
  split; [exact Hwf |]. intros r c Hrow Hcol.
  rewrite (Hget r c Hrow Hcol), Hfalse. intuition discriminate.
Qed.

(** The grid is built whenever the ROI is not empty, the cell size is
    positive and no obstacle constructor raises. *)
Lemma build_obstacle_grid_returns (polygon : vertices)
    (obstacles : list vertices) (cell_size : Q) :
  polygon <> [] -> 0 < cell_size ->
  (forall obs, obs ∈ obstacles -> Polygon (coords obs) <> None) ->
  exists grid bounds,
    build_obstacle_grid polygon obstacles cell_size = Returns (grid, bounds).
Proof.
  intros Hne Hcell Hobs. unfold build_obstacle_grid.
  destruct (bounding_box polygon) as [[[[min_x max_x] min_z] max_z] | |] eqn:Hbox.
  2,3: destruct polygon; [congruence | discriminate].
  rewrite bind_ret. cbv beta iota zeta. unfold truediv.
  assert (Hnz : Qeq_bool cell_size 0 = false).
  { apply not_true_iff_false. intros Heq. apply Qeq_bool_iff in Heq. lra. }
  rewrite Hnz, !bind_ret.
  assert (Hmm : min_x <= max_x /\ min_z <= max_z).
  { unfold bounding_box in Hbox.
    apply bind_Returns in Hbox as (x0 & Hx0 & Hbox).
    apply bind_Returns in Hbox as (x1 & Hx1 & Hbox).
    apply bind_Returns in Hbox as (z0 & Hz0 & Hbox).
    apply bind_Returns in Hbox as (z1 & Hz1 & Hbox).
    injection Hbox as -> -> -> ->.
    assert (Hmin : forall l m, fold_left (fun m y => if Py.lt y m then y else m) l m <= m).
    { induction l as [| y l IH]; intros m; simpl; [lra |].
      destruct (Py.lt y m) eqn:Hlt; [| apply IH].
      apply lt_true in Hlt. specialize (IH y). lra. }
    assert (Hmax : forall l m, m <= fold_left (fun m y => if Py.gt y m then y else m) l m).
    { induction l as [| y l IH]; intros m; simpl; [lra |].
      destruct (Py.gt y m) eqn:Hlt; [| apply IH].
      apply gt_true in Hlt. specialize (IH y). lra. }
    split.
    - destruct (map Vertex.x polygon) as [| x r]; [discriminate |].
      injection Hx0 as <-. injection Hx1 as <-.
      specialize (Hmin r x). specialize (Hmax r x). lra.
    - destruct (map Vertex.z polygon) as [| x r]; [discriminate |].
      injection Hz0 as <-. injection Hz1 as <-.
      specialize (Hmin r x). specialize (Hmax r x). lra. }
  assert (Hint : forall q, 0 <= q -> (0 <= Py.int q)%Z).
  { intros [n d] Hq. unfold Py.int. simpl.
    apply Z.quot_pos; [| lia]. unfold Qle in Hq. simpl in Hq. lia. }
  assert (Hw : (0 <= Py.int ((max_x - min_x) / cell_size))%Z).
  { apply Hint. apply Qle_shift_div_l; lra. }
  assert (Hh : (0 <= Py.int ((max_z - min_z) / cell_size))%Z).
  { apply Hint. apply Qle_shift_div_l; lra. }
  unfold np_zeros.
  replace ((Py.int ((max_z - min_z) / cell_size) + 1 <? 0)
           || (Py.int ((max_x - min_x) / cell_size) + 1 <? 0))%Z with false.
  2: { symmetry. apply orb_false_iff. split; apply Z.ltb_ge; lia. }
  rewrite bind_ret.
  match goal with
  | |- exists _ _, for_each ?body _ ?g0 ≫= _ = _ =>
      destruct (for_each_returns body obstacles g0) as [g' Hg']
  end.
  - intros g obs Hin. specialize (Hobs obs Hin).
    destruct (3 <=? length obs)%nat; [| eauto].
    unfold make_polygon. destruct (Polygon (coords obs)); [| congruence].
    rewrite bind_ret. destruct (negb (is_valid g0)); eauto.
  - rewrite Hg', bind_ret. eauto.
Qed.

End ObstacleGrid.

Section ObstacleGridExample.
Import Ref.

(** A right triangle with legs of 1 m and cells of 0.4 m: [1 / 0.4 = 2.5],
    so the grid has [int(2.5) + 1 = 3] rows and columns, where the ceiling
    would give 4. *)
Lemma build_obstacle_grid_not_ceiling :
  exists grid bounds,
    build_obstacle_grid [Vertex.mk 0 0; Vertex.mk 1 0; Vertex.mk 1 1] []
      (2 # 5)
    = Returns (grid, bounds) /\
    shape grid = (3, 3)%Z /\
    shape grid <> (Qceiling ((1 - 0) / (2 # 5)) + 1,
                   Qceiling ((1 - 0) / (2 # 5)) + 1)%Z.
Proof.
  eexists. eexists. split; [vm_compute; reflexivity |].
  split; [reflexivity |]. vm_compute. discriminate.
Qed.

(** A 2 by 2 square with unit cells and the unit square as an obstacle:
    the grid is 3 by 3 and only cell (0, 0) has its centre in the
    obstacle. *)
Lemma build_obstacle_grid_spec_witness :
  exists grid bounds,
    build_obstacle_grid
      [Vertex.mk 0 0; Vertex.mk 2 0; Vertex.mk 2 2; Vertex.mk 0 2]
      [[Vertex.mk 0 0; Vertex.mk 1 0; Vertex.mk 1 1; Vertex.mk 0 1]] 1
    = Returns (grid, bounds) /\
    data grid = [[true; false; false]; [false; false; false];
                 [false; false; false]] /\
    exists min_x max_x min_z max_z,
      bounding_box [Vertex.mk 0 0; Vertex.mk 2 0; Vertex.mk 2 2; Vertex.mk 0 2]
      = Returns (min_x, max_x, min_z, max_z) /\
      grid_wf (Py.int ((max_z - min_z) / 1) + 1)
              (Py.int ((max_x - min_x) / 1) + 1) grid.
Proof.
  eexists. eexists. split; [vm_compute; reflexivity |].
  split; [reflexivity |].
  destruct (build_obstacle_grid_spec (SL := shapely)
    [Vertex.mk 0 0; Vertex.mk 2 0; Vertex.mk 2 2; Vertex.mk 0 2]
    [[Vertex.mk 0 0; Vertex.mk 1 0; Vertex.mk 1 1; Vertex.mk 0 1]] 1
    _ _ ltac:(vm_compute; reflexivity))
    as (min_x & max_x & min_z & max_z & Hbox & _ & Hwf & _).
  exists min_x, max_x, min_z, max_z. split; [exact Hbox | exact Hwf].
Defined.

End ObstacleGridExample.

(** ** Line of sight without obstacles *)

Lemma bind_congr {A B} (m1 m2 : outcome A) (k1 k2 : A -> outcome B) :
  m1 = m2 -> (forall a, k1 a = k2 a) -> m1 ≫= k1 = m2 ≫= k2.
Proof. intros -> Hk. destruct m2; simpl; auto. Qed.

Lemma for_each_ext {A S} (body body' : S -> A -> outcome S) (l : list A) (s : S) :
  (forall s a, body s a = body' s a) ->
  for_each body l s = for_each body' l s.
Proof.
  intros Hbody. revert s. induction l as [| a l IH]; intros s; cbn [for_each].
  - reflexivity.
  - apply bind_congr; auto.
Qed.

(** The settings with [los_enabled] switched off. *)
Definition without_los (s : PlannerSettings) : PlannerSettings :=
  {| mount_y_m := mount_y_m s;
     sample_spacing_m := sample_spacing_m s;
     candidate_spacing_m := candidate_spacing_m s;
     keepout_distance_m := keepout_distance_m s;
     overlap_mode := overlap_mode s;
     k_required := k_required s;
     overlap_target_pct := overlap_target_pct s;
     los_enabled := false;
     los_cell_m := los_cell_m s;
     yaw_step_deg := yaw_step_deg s;
     max_sensors := max_sensors s;
     solver_time_limit_s := solver_time_limit_s s;
     seed := seed s |}.

Definition params_without_los (p : Params) : Params :=
  {| roi_polygon := roi_polygon p;
     obstacles := obstacles p;
     critical_polygon := critical_polygon p;
     model := model p;
     settings := without_los (settings p) |}.

Section LineOfSight.
Context {ML : Math} {RL : Random} {SL : Shapely} {PS : PySet} {CP : CpSat}.

(** The range test and the field-of-view test of the coverage builder. *)
Definition in_range (r_eff : Q) (c : Candidate.t) (p : SamplePoint.t) : bool :=
  let dx := SamplePoint.x p - Candidate.x c in
  let dz := SamplePoint.z p - Candidate.z c in
  Py.le (math_sqrt (dx * dx + dz * dz)) r_eff.

Definition in_fov (model : LidarModel) (c : Candidate.t) (p : SamplePoint.t)
    : bool :=
  let dx := SamplePoint.x p - Candidate.x c in
  let dz := SamplePoint.z p - Candidate.z c in
  if Py.lt (hfov_deg model) 360 && negb (dome_mode model) then
    Py.le (smallest_angle_diff (math_degrees (math_atan2 dz dx))
             (Candidate.yaw_deg c))
          (hfov_deg model / 2)
  else true.

(** The candidate with the coverage list that range and field of view
    alone give it. *)
Definition covered_by_range_and_fov (model : LidarModel) (r_eff : Q)
    (points : list SamplePoint.t) (c : Candidate.t) : Candidate.t :=
  Candidate.mk (Candidate.idx c) (Candidate.x c) (Candidate.z c)
    (Candidate.yaw_deg c)
    (map SamplePoint.idx
       (filter (fun p => in_range r_eff c p && in_fov model c p = true) points)).

Lemma check_los_blocked_no_grid (cx cz px pz : Q)
    (grid_bounds : option GridBounds) (cell_size : Q) :
  check_los_blocked cx cz px pz None grid_bounds cell_size = Returns false.
Proof. reflexivity. Qed.

Lemma covers_no_grid (model : LidarModel) (r_eff : Q) (los : bool)
    (grid_bounds : option GridBounds) (los_cell_m : Q)
    (c : Candidate.t) (p : SamplePoint.t) :
  covers model r_eff los None grid_bounds los_cell_m c p
  = Returns (in_range r_eff c p && in_fov model c p).
Proof.
  unfold covers, in_range, in_fov. cbv zeta. unfold Py.gt, Py.le.
  destruct (Qle_bool _ r_eff); simpl; [| reflexivity].
  destruct (Py.lt (hfov_deg model) 360 && negb (dome_mode model)); simpl.
  - destruct (Qle_bool _ (hfov_deg model / 2)); simpl; [| reflexivity].
    now rewrite andb_false_r.
  - now rewrite andb_false_r.
Qed.

Lemma compute_coverage_sets_no_grid (candidates : list Candidate.t)
    (points : list SamplePoint.t) (model : LidarModel) (r_eff : Q)
    (los : bool) (grid_bounds : option GridBounds) (los_cell_m : Q) :
  compute_coverage_sets candidates points model r_eff los None grid_bounds
    los_cell_m
  = Returns (map (covered_by_range_and_fov model r_eff points) candidates).
Proof.
  unfold compute_coverage_sets.
  assert (Hinner : forall c pts covered,
    for_each
      (fun covered p =>
         b ← covers model r_eff los None grid_bounds los_cell_m c p;
         Returns (if b : bool then covered ++ [SamplePoint.idx p] else covered))
      pts covered
    = Returns (covered ++ map SamplePoint.idx
                 (filter (fun p => in_range r_eff c p && in_fov model c p = true)
                         pts))).
  { intros c pts. induction pts as [| p pts IH]; intros covered; cbn [for_each].
    - now rewrite app_nil_r.
    - rewrite covers_no_grid, bind_ret, bind_ret, IH, filter_cons.
      destruct (in_range r_eff c p && in_fov model c p) eqn:Hb.
      + rewrite decide_True by reflexivity. simpl. now rewrite <- app_assoc.
      + rewrite decide_False by congruence. reflexivity. }
  assert (Houter : forall cs done,
    for_each
      (fun done c =>
         covered ← for_each
           (fun covered p =>
              b ← covers model r_eff los None grid_bounds los_cell_m c p;
              Returns (if b : bool then covered ++ [SamplePoint.idx p]
                       else covered))
           points [];
         Returns (done ++ [Candidate.mk (Candidate.idx c) (Candidate.x c)
                            (Candidate.z c) (Candidate.yaw_deg c) covered]))
      cs done
    = Returns (done ++ map (covered_by_range_and_fov model r_eff points) cs)).
  { induction cs as [| c cs IH]; intros done; cbn [for_each].
    - now rewrite app_nil_r.
    - rewrite Hinner, bind_ret, bind_ret, IH. simpl. now rewrite <- app_assoc. }
  apply Houter.
Qed.

(** Functions of the settings that do not read [los_enabled]. *)
Lemma constraints_hold_without_los (s : PlannerSettings) (count : gmap Z Z)
    (points : list SamplePoint.t) :
  constraints_hold (without_los s) count points = constraints_hold s count points.
Proof.
  induction points as [| p points IH]; cbn [constraints_hold]; [reflexivity |].
  apply bind_congr; [reflexivity |]. intros n.
  change (required_cover (without_los s) p) with (required_cover s p).
  destruct (n <? required_cover s p)%Z; [reflexivity | exact IH].
Qed.

Lemma prune_without_los (selected_indices : list Z)
    (candidates : list Candidate.t) (points : list SamplePoint.t)
    (s : PlannerSettings) :
  prune_redundant_sensors selected_indices candidates points (without_los s)
  = prune_redundant_sensors selected_indices candidates points s.
Proof.
  unfold prune_redundant_sensors. apply bind_congr; [| reflexivity].
  apply for_each_ext. intros sel idx. unfold prune_step.
  apply bind_congr; [reflexivity |]. intros count.
  now rewrite constraints_hold_without_los.
Qed.

Lemma solve_k_coverage_without_los (candidates : list Candidate.t)
    (points : list SamplePoint.t) (s : PlannerSettings) (w : cp_world) :
  solve_k_coverage candidates points (without_los s) w
  = solve_k_coverage candidates points s w.
Proof. reflexivity. Qed.

Lemma solve_with_retry_without_los (candidates : list Candidate.t)
    (points : list SamplePoint.t) (s : PlannerSettings) (w : cp_world) :
  solve_with_retry candidates points (without_los s) w
  = solve_with_retry candidates points s w.
Proof. reflexivity. Qed.

Lemma finish_without_los (s : PlannerSettings) (model : LidarModel)
    (points : list SamplePoint.t) (candidates : list Candidate.t) (r_eff : Q)
    (selected_indices : list Z) (solver_status : string)
    (warnings : list string) :
  finish (without_los s) model points candidates r_eff selected_indices
    solver_status warnings
  = finish s model points candidates r_eff selected_indices solver_status
      warnings.
Proof. unfold finish. now rewrite prune_without_los. Qed.

Lemma los_grid_no_obstacles (roi_polygon : vertices) (s : PlannerSettings) :
  los_grid roi_polygon [] s = Returns (None, None).
Proof.
  unfold los_grid. rewrite bool_decide_eq_false_2 by congruence.
  now rewrite andb_false_r.
Qed.

Lemma prepare_without_los (params : Params) :
  obstacles params = [] ->
  prepare (params_without_los params) = prepare params.
Proof.
  intros Hobs. unfold prepare. cbv zeta.
  change (roi_polygon (params_without_los params)) with (roi_polygon params).
  change (obstacles (params_without_los params)) with (obstacles params).
  change (critical_polygon (params_without_los params))
    with (critical_polygon params).
  change (model (params_without_los params)) with (model params).
  change (settings (params_without_los params))
    with (without_los (settings params)).
  rewrite Hobs.
  destruct (length (roi_polygon params) <? 3)%nat; [reflexivity |].
  apply bind_congr; [reflexivity |]. intros points.
  destruct (length points =? 0)%nat; [reflexivity |].
  apply bind_congr; [reflexivity |]. intros points'.
  apply bind_congr; [reflexivity |]. intros candidates.
  destruct (length candidates =? 0)%nat; [reflexivity |].
  rewrite !los_grid_no_obstacles, !bind_ret. cbv beta iota.
  now rewrite !compute_coverage_sets_no_grid.
Qed.

(** The coverage builder, the preparation and the solve with the
    line-of-sight test as a parameter: at [check_los_blocked] they are the
    functions of the source.  With a test that raises, a call of the test
    shows in the outcome. *)
Definition los_test : Type :=
  Q -> Q -> Q -> Q -> option ndarray -> option GridBounds -> Q -> outcome bool.

Definition covers_with (blocked_test : los_test) (model : LidarModel)
    (r_eff : Q) (los_enabled : bool) (obstacle_grid : option ndarray)
    (grid_bounds : option GridBounds) (los_cell_m : Q) (c : Candidate.t)
    (p : SamplePoint.t) : outcome bool :=
  let dx := SamplePoint.x p - Candidate.x c in
  let dz := SamplePoint.z p - Candidate.z c in
  let dist := math_sqrt (dx * dx + dz * dz) in
  if Py.gt dist r_eff then Returns false
  else if Py.lt (hfov_deg model) 360 && negb (dome_mode model)
          && Py.gt (smallest_angle_diff (math_degrees (math_atan2 dz dx))
                      (Candidate.yaw_deg c))
                   (hfov_deg model / 2)
  then Returns false
  else if los_enabled && bool_decide (obstacle_grid <> None) then
    blocked ← blocked_test (Candidate.x c) (Candidate.z c)
                (SamplePoint.x p) (SamplePoint.z p)
                obstacle_grid grid_bounds los_cell_m;
    Returns (negb blocked)
  else Returns true.

Definition compute_coverage_sets_with (blocked_test : los_test)
    (candidates : list Candidate.t) (points : list SamplePoint.t)
    (model : LidarModel) (r_eff : Q) (los_enabled : bool)
    (obstacle_grid : option ndarray) (grid_bounds : option GridBounds)
    (los_cell_m : Q) : outcome (list Candidate.t) :=
  for_each
    (fun done c =>
       covered ← for_each
         (fun covered p =>
            b ← covers_with blocked_test model r_eff los_enabled
                  obstacle_grid grid_bounds los_cell_m c p;
            Returns (if b : bool then covered ++ [SamplePoint.idx p]
                     else covered))
         points [];
       Returns (done ++ [Candidate.mk (Candidate.idx c) (Candidate.x c)
                          (Candidate.z c) (Candidate.yaw_deg c) covered]))
    candidates [].

Definition prepare_with (blocked_test : los_test) (params : Params)
    : outcome (SolverOutput + list SamplePoint.t * list Candidate.t * Q) :=
  let roi_polygon := roi_polygon params in
  let obstacles := obstacles params in
  let critical_polygon := critical_polygon params in
  let model := model params in
  let settings := settings params in
  if (length roi_polygon <? 3)%nat then
    Returns (inl (failure "ROI polygon must have at least 3 vertices" None None))
  else
    let r_eff := compute_effective_radius model (mount_y_m settings) in
    let candidate_spacing := candidate_spacing_m settings in
    points ← sample_points_in_polygon roi_polygon (sample_spacing_m settings)
               (seed settings) (Some obstacles);
    if (length points =? 0)%nat then
      Returns (inl (failure "No sample points generated inside ROI" None None))
    else
      points ←
        match critical_polygon with
        | Some (_ :: _) => mark_critical_points points critical_polygon
        | _ => Returns points
        end;
      candidates ← generate_candidates roi_polygon candidate_spacing
                     (keepout_distance_m settings) model (seed settings)
                     (Some obstacles);
      if (length candidates =? 0)%nat then
        Returns (inl (failure "No candidate positions generated" None None))
      else
        '(obstacle_grid, grid_bounds) ← los_grid roi_polygon obstacles settings;
        candidates ← compute_coverage_sets_with blocked_test candidates points
                       model r_eff (los_enabled settings) obstacle_grid
                       grid_bounds (los_cell_m settings);
        Returns (inr (points, candidates, r_eff)).

Definition solve_body_with (blocked_test : los_test) (params : Params)
    (w : cp_world) : outcome (SolverOutput * cp_world) :=
  prepared ← prepare_with blocked_test params;
  match prepared with
  | inl out => Returns (out, w)
  | inr (points, candidates, r_eff) =>
      '(selected_indices, solver_status, success, warnings, w) ←
        solve_with_retry candidates points (settings params) w;
      if negb success then
        Returns (failure ("Solver failed: " ++ solver_status) None
                   (Some warnings), w)
      else
        out ← finish (settings params) (model params) points candidates r_eff
                selected_indices solver_status warnings;
        Returns (out, w)
  end.

Definition solve_lidar_placement_with (blocked_test : los_test)
    (params : Params) (w : cp_world) : outcome (SolverOutput * cp_world) :=
  match solve_body_with blocked_test params w with
  | Raises e =>
      Returns (failure (exn_message e) (Some (format_exc e)) None, w)
  | r => r
  end.

(** At [check_los_blocked] these are the functions of the source. *)
Lemma covers_with_check_los_blocked :
  covers_with check_los_blocked = covers.
Proof. reflexivity. Qed.

Lemma compute_coverage_sets_with_check_los_blocked :
  compute_coverage_sets_with check_los_blocked = compute_coverage_sets.
Proof. reflexivity. Qed.

Lemma prepare_with_check_los_blocked :
  prepare_with check_los_blocked = prepare.
Proof. reflexivity. Qed.

Lemma solve_lidar_placement_with_check_los_blocked :
  solve_lidar_placement_with check_los_blocked = solve_lidar_placement.
Proof. reflexivity. Qed.

(** Without a grid the test is not reached, whatever it is. *)
Lemma covers_with_no_grid (blocked_test : los_test) (model : LidarModel)
    (r_eff : Q) (los : bool) (grid_bounds : option GridBounds)
    (los_cell_m : Q) (c : Candidate.t) (p : SamplePoint.t) :
  covers_with blocked_test model r_eff los None grid_bounds los_cell_m c p
  = Returns (in_range r_eff c p && in_fov model c p).
Proof.
  unfold covers_with, in_range, in_fov. cbv zeta. unfold Py.gt, Py.le.
  destruct (Qle_bool _ r_eff); simpl; [| reflexivity].
  destruct (Py.lt (hfov_deg model) 360 && negb (dome_mode model)); simpl.
  - destruct (Qle_bool _ (hfov_deg model / 2)); simpl; [| reflexivity].
    now rewrite andb_false_r.
  - now rewrite andb_false_r.
Qed.

Lemma compute_coverage_sets_with_no_grid (blocked_test : los_test)
    (candidates : list Candidate.t) (points : list SamplePoint.t)
    (model : LidarModel) (r_eff : Q) (los : bool)
    (grid_bounds : option GridBounds) (los_cell_m : Q) :
  compute_coverage_sets_with blocked_test candidates points model r_eff los
    None grid_bounds los_cell_m
  = Returns (map (covered_by_range_and_fov model r_eff points) candidates).
Proof.
  rewrite <- (compute_coverage_sets_no_grid candidates points model r_eff los
                grid_bounds los_cell_m).
  unfold compute_coverage_sets_with, compute_coverage_sets.
  apply for_each_ext. intros done c.
  apply bind_congr; [| reflexivity].
  apply for_each_ext. intros covered p.
  apply bind_congr; [| reflexivity].
  now rewrite covers_with_no_grid, covers_no_grid.
Qed.

Lemma prepare_with_no_obstacles (blocked_test : los_test) (params : Params) :
  obstacles params = [] ->
  prepare_with blocked_test params = prepare params.
Proof.
  intros Hobs. unfold prepare_with, prepare. cbv zeta. rewrite Hobs.
  destruct (length (roi_polygon params) <? 3)%nat; [reflexivity |].
  apply bind_congr; [reflexivity |]. intros points.
  destruct (length points =? 0)%nat; [reflexivity |].
  apply bind_congr; [reflexivity |]. intros points'.
  apply bind_congr; [reflexivity |]. intros candidates.
  destruct (length candidates =? 0)%nat; [reflexivity |].
  rewrite !los_grid_no_obstacles, !bind_ret. cbv beta iota.
  now rewrite compute_coverage_sets_with_no_grid,
    compute_coverage_sets_no_grid.
Qed.

(** C9 (as the code has it).  For every input whose list of obstacles is
    empty, the solve builds no occupancy grid even when [los_enabled] is
    true, and the coverage builder then skips the line-of-sight test:
    [check_los_blocked] is not called for any pair, since whatever test
    stands in its place, even one that raises, the coverage lists and the
    result of the solve are the same.  The coverage lists are those of
    range and field of view alone, and the result of the solve is the one
    it has with [los_enabled] false: line of sight is not enforced. *)
Theorem los_ignored_without_obstacles (params : Params) (w : cp_world) :
  obstacles params = [] ->
  los_grid (roi_polygon params) (obstacles params) (settings params)
  = Returns (None, None) /\
  (forall (blocked_test : los_test) candidates points r_eff,
     compute_coverage_sets_with blocked_test candidates points (model params)
       r_eff (los_enabled (settings params)) None None
       (los_cell_m (settings params))
     = Returns (map (covered_by_range_and_fov (model params) r_eff points)
                    candidates)) /\
  (forall candidates points r_eff,
     compute_coverage_sets candidates points (model params) r_eff
       (los_enabled (settings params)) None None (los_cell_m (settings params))
     = Returns (map (covered_by_range_and_fov (model params) r_eff points)
                    candidates)) /\
  (forall blocked_test : los_test,
     solve_lidar_placement_with blocked_test params w
     = solve_lidar_placement params w) /\
  solve_lidar_placement params w
  = solve_lidar_placement (params_without_los params) w.
Proof.
  intros Hobs. split; [rewrite Hobs; apply los_grid_no_obstacles |].
  split; [intros; apply compute_coverage_sets_with_no_grid |].
  split; [intros; apply compute_coverage_sets_no_grid |].
  split.
  { intros blocked_test.
    unfold solve_lidar_placement_with, solve_body_with,
      solve_lidar_placement, solve_body.
    now rewrite (prepare_with_no_obstacles blocked_test params Hobs). }
  unfold solve_lidar_placement, solve_body.
  rewrite (prepare_without_los params Hobs).
  change (settings (params_without_los params))
    with (without_los (settings params)).
  change (model (params_without_los params)) with (model params).
  destruct (prepare params) as [[out | [[points candidates] r_eff]] | e |];
    try reflexivity.
  rewrite !bind_ret, solve_with_retry_without_los.
  destruct (solve_with_retry candidates points (settings params) w)
    as [[[[[sel status] ok] warns] w'] | e |]; try reflexivity.
  rewrite !bind_ret. cbv beta iota.
  destruct ok; [| reflexivity]. cbn [negb].
  now rewrite finish_without_los.
Qed.

End LineOfSight.

Section LineOfSightExample.
Import Ref.

(** A request with [los_enabled] and no obstacle. *)
Definition request_los : Params :=
  {| roi_polygon := [Vertex.mk 0 0; Vertex.mk 2 0; Vertex.mk 2 2; Vertex.mk 0 2];
     obstacles := [];
     critical_polygon := None;
     model := default_model;
     settings :=
       {| mount_y_m := 3; sample_spacing_m := 1; candidate_spacing_m := 1;
          keepout_distance_m := 1 # 2; overlap_mode := "everywhere";
          k_required := 2; overlap_target_pct := 4 # 5; los_enabled := true;
          los_cell_m := 1 # 4; yaw_step_deg := 30; max_sensors := 50;
          solver_time_limit_s := 10; seed := 42 |} |}.

Lemma los_ignored_without_obstacles_witness :
  los_enabled (settings request_los) = true /\
  los_grid (roi_polygon request_los) (obstacles request_los)
    (settings request_los) = Returns (None, None) /\
  solve_lidar_placement_with (CP := cp_take_all)
    (fun _ _ _ _ _ _ _ => Diverges) request_los 0%nat
  = solve_lidar_placement (CP := cp_take_all) request_los 0%nat /\
  solve_lidar_placement (CP := cp_take_all) request_los 0%nat
  = solve_lidar_placement (CP := cp_take_all)
      (params_without_los request_los) 0%nat.
Proof.
  split; [reflexivity |].
  destruct (los_ignored_without_obstacles (CP := cp_take_all) request_los
              0%nat eq_refl) as (Hgrid & _ & _ & Hwith & Hsolve).
  split; [exact Hgrid |]. split; [apply Hwith | exact Hsolve].
Defined.

(** A line-of-sight test that raises on every call, and a grid of one
    cell. *)
Definition raising_test : los_test :=
  fun _ _ _ _ _ _ _ => Raises TypeError.

Definition one_cell_grid : ndarray :=
  {| shape := (1, 1)%Z; data := [[false]] |}.

(** With [los_enabled] and no obstacle the test is not called: with a
    grid the raise of the test shows in the coverage builder, without a
    grid the pair is covered and the solve succeeds with no traceback,
    which it could not if the test had been called on a single pair. *)
Lemma check_los_blocked_not_called :
  los_enabled (settings request_los) = true /\
  obstacles request_los = [] /\
  covers_with raising_test default_model 9 true (Some one_cell_grid)
    (Some {| b_min_x := 0; b_max_x := 1; b_min_z := 0; b_max_z := 1 |})
    (1 # 4) (Candidate.mk 0 0 0 0 []) (SamplePoint.mk 0 3 4 false)
  = Raises TypeError /\
  covers_with raising_test default_model 9 true None None (1 # 4)
    (Candidate.mk 0 0 0 0 []) (SamplePoint.mk 0 3 4 false)
  = Returns true /\
  exists out,
    solve_lidar_placement_with (CP := cp_take_all) raising_test request_los
      0%nat
    = Returns (out, 1%nat) /\
    success out = true /\
    traceback out = None /\
    total_sample_points out = Some 4%Z /\
    total_candidates out = Some 4%Z.
Proof.
  split; [reflexivity |]. split; [reflexivity |].
  split; [vm_compute; reflexivity |]. split; [vm_compute; reflexivity |].
  eexists. split; [vm_compute; reflexivity |]. repeat split.
Qed.

End LineOfSightExample.

(** ** The retry of the solve *)

Section Retry.
Context {ML : Math} {RL : Random} {SL : Shapely} {PS : PySet} {CP : CpSat}.

(** Every point index is a key of [point_covers]. *)
Lemma point_covers_dom (candidates : list Candidate.t)
    (points : list SamplePoint.t) (pc : gmap Z (list Z)) :
  point_covers candidates points = Returns pc ->
  forall p, p ∈ points -> is_Some (pc !! SamplePoint.idx p).
Proof.
  unfold point_covers. intros Hpc.
  set (P := fun pc : gmap Z (list Z) =>
              forall p, p ∈ points -> is_Some (pc !! SamplePoint.idx p)).
  apply (for_each_invariant P _ _ _ _) with (3 := Hpc).
  - intros pc0 c pc1 _ Hpc0 Hinner.
    apply (for_each_invariant P _ _ _ _) with (3 := Hinner); [| exact Hpc0].
    intros pc2 p_idx pc3 _ Hpc2 Hstep.
    apply bind_Returns in Hstep as (l & _ & Hstep). injection Hstep as <-.
    intros p Hp. apply lookup_insert_is_Some'. right. now apply Hpc2.
  - unfold P. clear.
    assert (Hgen : forall (pts : list SamplePoint.t) (m : gmap Z (list Z)),
      let m' := fold_left (fun m p => <[SamplePoint.idx p := []]> m) pts m in
      (forall k, is_Some (m !! k) -> is_Some (m' !! k)) /\
      forall p, p ∈ pts -> is_Some (m' !! SamplePoint.idx p)).
    { induction pts as [| q pts IH]; intros m; simpl.
      - split; [auto |]. intros p Hp. now apply not_elem_of_nil in Hp.
      - destruct (IH (<[SamplePoint.idx q := []]> m)) as [Hmono Hkeys].
        split.
        + intros k Hk. apply Hmono, lookup_insert_is_Some'. now right.
        + intros p Hp. apply elem_of_cons in Hp as [-> | Hp]; [| now apply Hkeys].
          apply Hmono, lookup_insert_is_Some'. now left. }
    apply Hgen.
Qed.

(** With all point indices present, the constraints of the relaxed
    settings are built without a raise. *)
Lemma coverage_constraints_relaxed_returns (pc : gmap Z (list Z))
    (points : list SamplePoint.t) (s : PlannerSettings) :
  (forall p, p ∈ points -> is_Some (pc !! SamplePoint.idx p)) ->
  exists cs, coverage_constraints pc points (relaxed s) = Returns ([], cs).
Proof.
  intros Hdom. unfold coverage_constraints. cbv zeta.
  change (overlap_mode (relaxed s)) with "everywhere"%string.
  change (String.eqb "everywhere" "everywhere") with true. cbv iota.
  match goal with
  | |- exists _, for_each ?body ?l ?s0 ≫= _ = _ =>
      destruct (for_each_returns body l s0) as [cs Hcs]
  end.
  - intros cs p_idx Hin.
    rewrite set_iter_perm, elem_of_elements, elem_of_list_to_set in Hin.
    apply list_elem_of_fmap in Hin as (p & -> & Hp).
    destruct (Hdom p Hp) as [covering Hcov].
    unfold getitem. rewrite Hcov, bind_ret. destruct covering; eauto.
  - exists cs. now rewrite Hcs.
Qed.

Lemma solve_k_coverage_relaxed_returns (candidates : list Candidate.t)
    (points : list SamplePoint.t) (s : PlannerSettings) (w w1 : cp_world)
    (r : list Z * string * bool * cp_world) :
  solve_k_coverage candidates points s w = Returns r ->
  exists r', solve_k_coverage candidates points (relaxed s) w1 = Returns r'.
Proof.
  unfold solve_k_coverage. intros Hr.
  apply bind_Returns in Hr as (pc & Hpc & _).
  rewrite Hpc, bind_ret.
  destruct (coverage_constraints_relaxed_returns pc points s
              (point_covers_dom _ _ _ Hpc)) as [cs Hcs].
  rewrite Hcs, bind_ret. cbv beta iota zeta.
  destruct (cp_solve _ _ _ w1) as [[status value] w'].
  destruct status; eauto.
Qed.

(** A call of [solve_k_coverage] that returns has called the solver once,
    and a failed call reports the name of a status that is neither
    [OPTIMAL] nor [FEASIBLE], with no index selected. *)
Lemma solve_k_coverage_calls_once (candidates : list Candidate.t)
    (points : list SamplePoint.t) (s : PlannerSettings) (w w' : cp_world)
    (selected : list Z) (status_str : string) (ok : bool) :
  solve_k_coverage candidates points s w = Returns (selected, status_str, ok, w') ->
  exists cp_model status value,
    cp_solve cp_model (solver_time_limit_s s) (seed s) w = (status, value, w') /\
    (ok = false ->
     status_str = StatusName status /\ status <> OPTIMAL /\
     status <> FEASIBLE /\ selected = []).
Proof.
  unfold solve_k_coverage. intros Hr.
  apply bind_Returns in Hr as (pc & _ & Hr).
  apply bind_Returns in Hr as ([ys cs] & _ & Hr). cbv zeta in Hr.
  match type of Hr with
  | context [cp_solve ?m _ _ _] => exists m
  end.
  destruct (cp_solve _ _ _ w) as [[status value] w0].
  exists status, value.
  destruct status; injection Hr as <- <- <- <-;
    (split; [reflexivity |]); intros Hok; try discriminate;
    repeat split; discriminate.
Qed.

(** C5.  Whenever the first solve fails (a status that is neither optimal
    nor feasible), the solve is retried exactly once, with
    [overlap_mode = everywhere] and [k_required = 1], after a warning has
    been appended; if the retry fails too the result has
    [success = false], the solver status in the error message, no
    selected position and [num_sensors = 0]. *)
Theorem solve_retries_once (params : Params) (w w1 : cp_world)
    (points : list SamplePoint.t) (candidates : list Candidate.t) (r_eff : Q)
    (selected1 : list Z) (status1 : string) :
  prepare params = Returns (inr (points, candidates, r_eff)) ->
  solve_k_coverage candidates points (settings params) w
  = Returns (selected1, status1, false, w1) ->
  let warning :=
    ("Initial solve failed (" ++ status1 ++ "), relaxing to k=1")%string in
  overlap_mode (relaxed (settings params)) = "everywhere"%string /\
  k_required (relaxed (settings params)) = 1%Z /\
  exists selected2 status2 ok2 w2,
    solve_k_coverage candidates points (relaxed (settings params)) w1
    = Returns (selected2, status2, ok2, w2) /\
    solve_with_retry candidates points (settings params) w
    = Returns (selected2, status2, ok2, [warning], w2) /\
    (ok2 = false ->
     (exists status, status2 = StatusName status /\
                     status <> OPTIMAL /\ status <> FEASIBLE) /\
     exists out,
       solve_lidar_placement params w = Returns (out, w2) /\
       success out = false /\
       error out = Some ("Solver failed: " ++ status2)%string /\
       selected_positions out = [] /\
       num_sensors out = 0%Z /\
       warnings out = Some [warning]).
Proof.
  intros Hprep Hfirst warning.
  split; [reflexivity |]. split; [reflexivity |].
  destruct (solve_k_coverage_relaxed_returns candidates points
              (settings params) w w1 _ Hfirst)
    as [[[[selected2 status2] ok2] w2] Hsecond].
  exists selected2, status2, ok2, w2.
  assert (Hretry : solve_with_retry candidates points (settings params) w
                   = Returns (selected2, status2, ok2, [warning], w2)).
  { unfold solve_with_retry. cbv zeta. rewrite Hfirst, bind_ret.
    cbv beta iota. cbn [negb]. rewrite Hsecond, bind_ret. reflexivity. }
  split; [exact Hsecond |]. split; [exact Hretry |].
  intros ->. split.
  - destruct (solve_k_coverage_calls_once _ _ _ _ _ _ _ _ Hsecond)
      as (m & status & value & _ & Hfail).
    destruct (Hfail eq_refl) as (-> & Hno & Hnf & _). eauto.
  - eexists. split.
    + unfold solve_lidar_placement, solve_body.
      rewrite Hprep, bind_ret. cbv beta iota.
      rewrite Hretry, bind_ret. cbv beta iota. cbn [negb]. reflexivity.
    + repeat split.
Qed.

End Retry.

Section RetryExample.
Import Ref.

(** With the solver that finds every model infeasible, the request of
    the default settings on a 2 by 2 square fails after two calls. *)
Definition request_default : Params :=
  {| roi_polygon := [Vertex.mk 0 0; Vertex.mk 2 0; Vertex.mk 2 2; Vertex.mk 0 2];
     obstacles := [];
     critical_polygon := None;
     model := default_model;
     settings := default_settings |}.

Lemma solve_retries_once_witness :
  exists out,
    solve_lidar_placement (CP := cp_infeasible) request_default 0%nat
    = Returns (out, 2%nat) /\
    success out = false /\
    error out = Some "Solver failed: INFEASIBLE"%string /\
    selected_positions out = [] /\
    num_sensors out = 0%Z /\
    warnings out = Some ["Initial solve failed (INFEASIBLE), relaxing to k=1"%string].
Proof.
  edestruct (solve_retries_once (CP := cp_infeasible) request_default
               0%nat 1%nat)
    as (_ & _ & selected2 & status2 & ok2 & w2 & Hsecond & _ & Hfail).
  - vm_compute. reflexivity.
  - vm_compute. reflexivity.
  - vm_compute in Hsecond. injection Hsecond as <- <- <- <-.
    destruct (Hfail eq_refl) as (_ & out & Hout & Hrest).
    exists out. split; [exact Hout | exact Hrest].
Defined.

End RetryExample.

(** ** The pruner *)

#[local] Set Warnings "-clear-no-such-hyp".

Section Pruner.
Context {PS : PySet}.
Variables (cmap : gmap Z Candidate.t) (points : list SamplePoint.t)
          (settings : PlannerSettings).

(** How often index [k] occurs in a coverage list, and in the coverage
    lists of the candidates of a list of indices. *)
Definition occurrences (k : Z) (ps : list Z) : Z :=
  Py.len (filter (fun q => q = k) ps).

Definition covered_of (c_idx : Z) : list Z :=
  match cmap !! c_idx with
  | Some c => Candidate.covered_points c
  | None => []
  end.

Definition total (k : Z) (sel : list Z) : Z :=
  foldr (fun c_idx acc => (occurrences k (covered_of c_idx) + acc)%Z) 0%Z sel.

Lemma occurrences_nonneg k ps : (0 <= occurrences k ps)%Z.
Proof. unfold occurrences, Py.len. lia. Qed.

Lemma total_submseteq k (l1 l2 : list Z) :
  l1 ⊆+ l2 -> (total k l1 <= total k l2)%Z.
Proof.
  induction 1 as [| x l1 l2 _ IH | x y l | x l1 l2 _ IH | l1 l2 l3 _ IH1 _ IH2];
    simpl; try lia.
  pose proof (occurrences_nonneg k (covered_of x)). lia.
Qed.

(** The loop [coverage_count[p_idx] += 1] over one coverage list. *)
Lemma count_list_spec (ps : list Z) (count count' : gmap Z Z) :
  for_each
    (fun count p_idx =>
       n ← getitem count p_idx; Returns (<[p_idx := (n + 1)%Z]> count))
    ps count = Returns count' ->
  (forall p, p ∈ ps -> is_Some (count !! p)) /\
  forall k, count' !! k = (fun n => (n + occurrences k ps)%Z) <$> count !! k.
Proof.
  revert count. induction ps as [| p ps IH]; intros count Hr; cbn [for_each] in Hr.
  - injection Hr as <-. split.
    + intros p Hp. now apply not_elem_of_nil in Hp.
    + intros k. unfold occurrences, Py.len. simpl.
      destruct (count !! k); simpl; [f_equal; lia | reflexivity].
  - apply bind_Returns in Hr as (count1 & Hstep & Hr).
    apply bind_Returns in Hstep as (n & Hn & Hstep). injection Hstep as <-.
    unfold getitem in Hn. destruct (count !! p) as [n0 |] eqn:Hp; [| discriminate].
    injection Hn as ->.
    destruct (IH _ Hr) as [Hkeys Hval]. split.
    + intros q Hq. apply elem_of_cons in Hq as [-> | Hq]; [eauto |].
      specialize (Hkeys q Hq). apply lookup_insert_is_Some in Hkeys.
      destruct Hkeys as [<- | [_ Hs]]; eauto.
    + intros k. rewrite Hval. unfold occurrences, Py.len. rewrite filter_cons.
      destruct (decide (p = k)) as [-> | Hne].
      * rewrite lookup_insert_eq, Hp. simpl. f_equal. lia.
      * rewrite lookup_insert_ne by assumption. reflexivity.
Qed.

Lemma count_list_returns (ps : list Z) (count : gmap Z Z) :
  (forall p, p ∈ ps -> is_Some (count !! p)) ->
  exists count',
    for_each
      (fun count p_idx =>
         n ← getitem count p_idx; Returns (<[p_idx := (n + 1)%Z]> count))
      ps count = Returns count'.
Proof.
  revert count. induction ps as [| p ps IH]; intros count Hkeys; cbn [for_each].
  - eauto.
  - destruct (Hkeys p) as [n Hn]; [left |].
    rewrite (getitem_Some _ _ _ Hn), !bind_ret. apply IH.
    intros q Hq. apply lookup_insert_is_Some'. right. apply Hkeys. now right.
Qed.

(** The two loops of the cover count, from an arbitrary dictionary. *)
Definition count_from (sel : list Z) (count : gmap Z Z) : outcome (gmap Z Z) :=
  for_each
    (fun count c_idx =>
       c ← getitem cmap c_idx;
       for_each
         (fun count p_idx =>
            n ← getitem count p_idx;
            Returns (<[p_idx := (n + 1)%Z]> count))
         (Candidate.covered_points c) count)
    sel count.

(** The look-ups the count makes all succeed. *)
Definition countable_from (sel : list Z) (count : gmap Z Z) : Prop :=
  forall c_idx, c_idx ∈ sel ->
    is_Some (cmap !! c_idx) /\
    forall p, p ∈ covered_of c_idx -> is_Some (count !! p).

Lemma count_from_spec (sel : list Z) (count count' : gmap Z Z) :
  count_from sel count = Returns count' ->
  countable_from sel count /\
  forall k, count' !! k = (fun n => (n + total k sel)%Z) <$> count !! k.
Proof.
  unfold count_from. revert count.
  induction sel as [| c_idx sel IH]; intros count Hr; cbn [for_each] in Hr.
  - injection Hr as <-. split.
    + intros c Hc. now apply not_elem_of_nil in Hc.
    + intros k. simpl. destruct (count !! k); simpl; [f_equal; lia | reflexivity].
  - apply bind_Returns in Hr as (count1 & Hstep & Hr).
    apply bind_Returns in Hstep as (c & Hc & Hstep).
    unfold getitem in Hc. destruct (cmap !! c_idx) as [c0 |] eqn:Hlook; [| discriminate].
    injection Hc as ->.
    destruct (count_list_spec _ _ _ Hstep) as [Hkeys1 Hval1].
    destruct (IH _ Hr) as [Hkeys Hval].
    assert (Hdom : forall p, is_Some (count1 !! p) -> is_Some (count !! p)).
    { intros p. rewrite Hval1. destruct (count !! p); simpl; eauto. }
    split.
    + intros j Hj. apply elem_of_cons in Hj as [-> | Hj].
      * split; [eauto |]. unfold covered_of. rewrite Hlook. exact Hkeys1.
      * destruct (Hkeys j Hj) as [Hc Hp]. split; [exact Hc |].
        intros p Hin. apply Hdom, Hp, Hin.
    + intros k. rewrite Hval, Hval1.
      assert (Hcov : covered_of c_idx = Candidate.covered_points c)
        by (unfold covered_of; now rewrite Hlook).
      unfold total. cbn [foldr]. rewrite Hcov.
      destruct (count !! k); simpl; [f_equal; lia | reflexivity].
Qed.

Lemma count_from_returns (sel : list Z) (count : gmap Z Z) :
  countable_from sel count -> exists count', count_from sel count = Returns count'.
Proof.
  unfold count_from. revert count.
  induction sel as [| c_idx sel IH]; intros count Hok; cbn [for_each].
  - eauto.
  - destruct (Hok c_idx) as [[c Hc] Hkeys]; [left |].
    rewrite (getitem_Some _ _ _ Hc), bind_ret.
    unfold covered_of in Hkeys. rewrite Hc in Hkeys.
    destruct (count_list_returns _ _ Hkeys) as [count1 Hcount1].
    rewrite Hcount1, bind_ret.
    destruct (count_list_spec _ _ _ Hcount1) as [_ Hval1].
    apply IH. intros j Hj. destruct (Hok j) as [Hcj Hpj]; [now right |].
    split; [exact Hcj |]. intros p Hp. rewrite Hval1.
    destruct (Hpj p Hp) as [n ->]. simpl. eauto.
Qed.

(** One dictionary is below another: same keys, smaller counts. *)
Definition counts_le (count' count : gmap Z Z) : Prop :=
  forall k n, count !! k = Some n ->
    exists n', count' !! k = Some n' /\ (n' <= n)%Z.

(** Fewer sensors give smaller counts. *)
Lemma count_coverage_antitone (sel' sel : list Z) (count : gmap Z Z) :
  sel' ⊆+ sel ->
  count_coverage cmap points sel = Returns count ->
  exists count',
    count_coverage cmap points sel' = Returns count' /\ counts_le count' count.
Proof.
  intros Hsub Hr. change (count_from sel (zero_counts points) = Returns count) in Hr.
  change (exists count', count_from sel' (zero_counts points) = Returns count'
                         /\ counts_le count' count).
  destruct (count_from_spec _ _ _ Hr) as [Hok Hval].
  destruct (count_from_returns sel' (zero_counts points)) as [count' Hr'].
  { intros j Hj. apply Hok. eapply elem_of_submseteq; eassumption. }
  exists count'. split; [exact Hr' |].
  destruct (count_from_spec _ _ _ Hr') as [_ Hval'].
  intros k n Hk. rewrite Hval in Hk. rewrite Hval'.
  destruct (zero_counts points !! k) as [z |]; [| discriminate].
  simpl in *. injection Hk as <-. eexists. split; [reflexivity |].
  pose proof (total_submseteq k _ _ Hsub). lia.
Qed.

(** A constraint violated by larger counts is violated by smaller ones. *)
Lemma constraints_hold_antitone (count' count : gmap Z Z)
    (pts : list SamplePoint.t) :
  counts_le count' count ->
  constraints_hold settings count pts = Returns false ->
  constraints_hold settings count' pts = Returns false.
Proof.
  intros Hle. induction pts as [| p pts IH]; cbn [constraints_hold]; intros Hr.
  - discriminate.
  - apply bind_Returns in Hr as (n & Hn & Hr).
    unfold getitem in Hn.
    destruct (count !! SamplePoint.idx p) as [n0 |] eqn:Hp; [| discriminate].
    injection Hn as ->.
    destruct (Hle _ _ Hp) as (n' & Hn' & Hnn).
    unfold getitem. rewrite Hn', bind_ret.
    destruct (n' <? required_cover settings p)%Z eqn:Hlt'; [reflexivity |].
    destruct (n <? required_cover settings p)%Z eqn:Hlt.
    + apply Z.ltb_lt in Hlt. apply Z.ltb_ge in Hlt'. lia.
    + auto.
Qed.

(** The test of one tentative removal. *)
Definition still_valid (test_selected : gset Z) : outcome bool :=
  count ← count_coverage cmap points (set_iter test_selected);
  constraints_hold settings count points.

Lemma prune_step_unfold (selected : gset Z) (idx : Z) :
  prune_step cmap points settings selected idx
  = valid ← still_valid (selected ∖ {[idx]});
    Returns (if valid : bool then selected ∖ {[idx]} else selected).
Proof.
  unfold prune_step, still_valid. cbv zeta.
  destruct (count_coverage cmap points (set_iter (selected ∖ {[idx]})));
    reflexivity.
Qed.

Lemma set_iter_elem (s : gset Z) (x : Z) : x ∈ set_iter s <-> x ∈ s.
Proof. now rewrite set_iter_perm, elem_of_elements. Qed.

Lemma set_iter_subseteq (s' s : gset Z) :
  s' ⊆ s -> set_iter s' ⊆+ set_iter s.
Proof.
  intros Hsub. apply NoDup_submseteq.
  - rewrite set_iter_perm. apply NoDup_elements.
  - intros x. rewrite !set_iter_elem. apply Hsub.
Qed.

(** A removal refused for a set is refused for every subset. *)
Lemma still_valid_antitone (test' test : gset Z) :
  test' ⊆ test ->
  still_valid test = Returns false -> still_valid test' = Returns false.
Proof.
  intros Hsub Hr. unfold still_valid in *.
  apply bind_Returns in Hr as (count & Hcount & Hr).
  destruct (count_coverage_antitone _ _ _ (set_iter_subseteq _ _ Hsub) Hcount)
    as (count' & Hcount' & Hle).
  rewrite Hcount', bind_ret. eapply constraints_hold_antitone; eassumption.
Qed.

(** The pass over [list(selected)]: the result is a subset, and every
    visited index that survives was refused against the result. *)
Lemma prune_pass_spec (l : list Z) (selected selected' : gset Z) :
  for_each (prune_step cmap points settings) l selected = Returns selected' ->
  selected' ⊆ selected /\
  forall idx, idx ∈ l -> idx ∈ selected' ->
    still_valid (selected' ∖ {[idx]}) = Returns false.
Proof.
  revert selected. induction l as [| idx l IH]; intros selected Hr;
    cbn [for_each] in Hr.
  - injection Hr as <-. split; [reflexivity |].
    intros idx Hin. now apply not_elem_of_nil in Hin.
  - apply bind_Returns in Hr as (selected1 & Hstep & Hr).
    rewrite prune_step_unfold in Hstep.
    apply bind_Returns in Hstep as (valid & Hvalid & Hstep).
    injection Hstep as <-.
    destruct (IH _ Hr) as [Hsub Hrefused].
    assert (Hsub1 : (if valid then selected ∖ {[idx]} else selected) ⊆ selected).
    { destruct valid; set_solver. }
    split; [set_solver |].
    intros j Hj Hin. destruct (decide (j ∈ l)) as [Hjl | Hjl]; [auto |].
    apply elem_of_cons in Hj as [-> | Hj]; [| contradiction].
    destruct valid.
    + exfalso. set_solver.
    + eapply still_valid_antitone; [| exact Hvalid]. set_solver.
Qed.

(** A pass in which every removal is refused changes nothing. *)
Lemma prune_pass_fixed (l : list Z) (selected : gset Z) :
  (forall idx, idx ∈ l -> still_valid (selected ∖ {[idx]}) = Returns false) ->
  for_each (prune_step cmap points settings) l selected = Returns selected.
Proof.
  induction l as [| idx l IH]; intros Hrefused; cbn [for_each].
  - reflexivity.
  - rewrite prune_step_unfold, (Hrefused idx) by left.
    rewrite !bind_ret. apply IH. intros j Hj. apply Hrefused. now right.
Qed.

End Pruner.

Section PrunerIdempotent.
Context {PS : PySet}.

(** C6.  The pruner is idempotent: applied to its own output it removes
    no further sensor; the second result is the first, as a list and so
    as a set of indices. *)
Theorem prune_redundant_sensors_idempotent (selected_indices : list Z)
    (candidates : list Candidate.t) (points : list SamplePoint.t)
    (settings : PlannerSettings) (pruned : list Z) :
  prune_redundant_sensors selected_indices candidates points settings
  = Returns pruned ->
  exists pruned',
    prune_redundant_sensors pruned candidates points settings
    = Returns pruned' /\
    pruned' = pruned /\
    (list_to_set pruned' : gset Z) = list_to_set pruned.
Proof.
  unfold prune_redundant_sensors. cbv zeta. intros Hr.
  apply bind_Returns in Hr as (selected' & Hpass & Hr). injection Hr as <-.
  destruct (prune_pass_spec _ _ _ _ _ _ Hpass) as [Hsub Hrefused].
  assert (Hset : (list_to_set (set_iter selected') : gset Z) = selected').
  { apply set_eq. intros x. now rewrite elem_of_list_to_set, set_iter_elem. }
  exists (set_iter selected'). rewrite Hset.
  rewrite prune_pass_fixed; [auto |].
  intros idx Hidx. apply set_iter_elem in Hidx as Hin.
  apply Hrefused; [| exact Hin].
  apply set_iter_elem, elem_of_list_to_set.
  apply Hsub, elem_of_list_to_set in Hin. exact Hin.
Qed.

(** The pruner returns when every selected index is a candidate and every
    covered index is a sample point. *)
Lemma prune_redundant_sensors_returns (selected_indices : list Z)
    (candidates : list Candidate.t) (points : list SamplePoint.t)
    (settings : PlannerSettings) :
  (forall idx, idx ∈ selected_indices ->
     exists c, candidate_map candidates !! idx = Some c /\
               forall p, p ∈ Candidate.covered_points c ->
                         is_Some (zero_counts points !! p)) ->
  (forall p, p ∈ points -> is_Some (zero_counts points !! SamplePoint.idx p)) ->
  exists pruned,
    prune_redundant_sensors selected_indices candidates points settings
    = Returns pruned.
Proof.
  intros Hsel Hpts. unfold prune_redundant_sensors. cbv zeta.
  set (cmap := candidate_map candidates).
  assert (Hpass : forall l (selected : gset Z),
    selected ⊆ list_to_set selected_indices ->
    exists selected',
      for_each (prune_step cmap points settings) l selected = Returns selected').
  { induction l as [| idx l IH]; intros selected Hsub; cbn [for_each]; [eauto |].
    rewrite prune_step_unfold. unfold still_valid.
    destruct (count_from_returns cmap (set_iter (selected ∖ {[idx]}))
                (zero_counts points)) as [count Hcount].
    { intros j Hj. apply set_iter_elem in Hj.
      assert (Hin : j ∈ selected_indices).
      { apply (elem_of_list_to_set (C := gset Z)). set_solver. }
      destruct (Hsel j Hin) as (c & Hc & Hcov). split; [eauto |].
      unfold covered_of. fold cmap in Hc. rewrite Hc. exact Hcov. }
    change (count_coverage cmap points (set_iter (selected ∖ {[idx]})))
      with (count_from cmap (set_iter (selected ∖ {[idx]})) (zero_counts points)).
    rewrite Hcount, bind_ret.
    destruct (count_from_spec _ _ _ _ Hcount) as [_ Hval].
    assert (Hhold : forall pts, (forall p, p ∈ pts -> p ∈ points) ->
              exists b, constraints_hold settings count pts = Returns b).
    { induction pts as [| p pts IHp]; intros Hin; cbn [constraints_hold]; [eauto |].
      destruct (Hpts p) as [z Hz]; [apply Hin; left |].
      unfold getitem. rewrite Hval, Hz. simpl.
      destruct (_ <? _)%Z; [eauto |]. apply IHp. intros q Hq. apply Hin. now right. }
    destruct (Hhold points) as [valid Hvalid]; [auto |].
    rewrite Hvalid, !bind_ret. apply IH. destruct valid; set_solver. }
  destruct (Hpass (set_iter (list_to_set selected_indices))
              (list_to_set selected_indices)) as [selected' Hsel'];
    [reflexivity |].
  rewrite Hsel', bind_ret. eauto.
Qed.

End PrunerIdempotent.

Section PrunerExample.
Import Ref.

(** Three sensors over two points with [k = 1]: the first pass keeps one
    sensor, the second pass keeps it. *)
Lemma prune_redundant_sensors_idempotent_witness :
  exists pruned,
    prune_redundant_sensors [0; 1; 2]%Z
      [Candidate.mk 0 0 0 0 [0; 1]%Z; Candidate.mk 1 1 0 0 [0]%Z;
       Candidate.mk 2 2 0 0 [0; 1]%Z]
      [SamplePoint.mk 0 0 0 false; SamplePoint.mk 1 1 1 false]
      request_default.(settings)
    = Returns pruned /\
    length pruned = 2%nat /\
    prune_redundant_sensors pruned
      [Candidate.mk 0 0 0 0 [0; 1]%Z; Candidate.mk 1 1 0 0 [0]%Z;
       Candidate.mk 2 2 0 0 [0; 1]%Z]
      [SamplePoint.mk 0 0 0 false; SamplePoint.mk 1 1 1 false]
      request_default.(settings)
    = Returns pruned.
Proof.
  eexists. split; [vm_compute; reflexivity |]. split; [reflexivity |].
  destruct (prune_redundant_sensors_idempotent (PS := pyset) [0; 1; 2]%Z
    [Candidate.mk 0 0 0 0 [0; 1]%Z; Candidate.mk 1 1 0 0 [0]%Z;
     Candidate.mk 2 2 0 0 [0; 1]%Z]
    [SamplePoint.mk 0 0 0 false; SamplePoint.mk 1 1 1 false]
    request_default.(settings) _ ltac:(vm_compute; reflexivity))
    as (pruned' & Hsecond & -> & _).
  exact Hsecond.
Defined.

End PrunerExample.

(** ** The yaw refiner *)

Section YawRefiner.

(** The rounded keys are compared by value: an equivalence. *)
Lemma key_eqb_refl k : key_eqb k k = true.
Proof.
  unfold key_eqb. apply andb_true_iff. split; apply Qeq_bool_iff; reflexivity.
Qed.

Lemma key_eqb_sym k1 k2 : key_eqb k1 k2 = key_eqb k2 k1.
Proof.
  unfold key_eqb. f_equal; apply eq_true_iff_eq;
    rewrite !Qeq_bool_iff; split; intros Heq; now symmetry.
Qed.

Lemma key_eqb_trans k1 k2 k3 :
  key_eqb k1 k2 = true -> key_eqb k2 k3 = true -> key_eqb k1 k3 = true.
Proof.
  unfold key_eqb. rewrite !andb_true_iff, !Qeq_bool_iff.
  intros [H1 H2] [H3 H4]. split; etransitivity; eassumption.
Qed.

(** Candidate [c] is at the rounded position [k]. *)
Definition at_key (k : Q * Q) (c : Candidate.t) : Prop :=
  key_eqb k (position_key c) = true.

#[local] Instance at_key_dec k c : Decision (at_key k c).
Proof. unfold at_key. apply _. Defined.

(** Two candidates share a position rounded to 4 decimals. *)
Definition same_position (c c' : Candidate.t) : Prop :=
  at_key (position_key c) c'.

#[local] Instance same_position_dec c c' : Decision (same_position c c').
Proof. unfold same_position. apply _. Defined.

Lemma at_key_equiv k k' c :
  key_eqb k k' = true -> at_key k c <-> at_key k' c.
Proof.
  intros Hk. unfold at_key. split; intros Hc.
  - eapply key_eqb_trans; [| exact Hc]. now rewrite key_eqb_sym.
  - eapply key_eqb_trans; eassumption.
Qed.

(** The keys of the dictionary are pairwise different. *)
Fixpoint fresh_keys (positions : list (Q * Q * list Candidate.t)) : Prop :=
  match positions with
  | [] => True
  | (k, _) :: r =>
      Forall (fun e => key_eqb (fst e) k = false) r /\ fresh_keys r
  end.

(** The dictionary [positions] after the candidates [cs] were appended:
    every entry holds the candidates of [cs] at its key, in order, and is
    not empty. *)
Definition grouped (cs : list Candidate.t)
    (positions : list (Q * Q * list Candidate.t)) : Prop :=
  Forall (fun e => snd e = filter (at_key (fst e)) cs /\ snd e <> []) positions.

Lemma positions_append_keys (P : Q * Q -> Prop) key c positions :
  Forall (fun e => P (fst e)) positions -> P key ->
  Forall (fun e => P (fst e)) (positions_append key c positions).
Proof.
  intros Hall Hkey. induction positions as [| [k g] r IH]; simpl.
  - repeat constructor. exact Hkey.
  - apply Forall_cons in Hall as [Hk Hr].
    destruct (key_eqb k key); constructor; auto.
Qed.

Lemma positions_append_fresh key c positions :
  fresh_keys positions -> fresh_keys (positions_append key c positions).
Proof.
  induction positions as [| [k g] r IH]; simpl; intros Hfresh.
  - split; [constructor | exact I].
  - destruct Hfresh as [Hk Hr].
    destruct (key_eqb k key) eqn:Hmatch; simpl.
    + split; assumption.
    + split; [| auto].
      apply (positions_append_keys (fun k' => key_eqb k' k = false)); [exact Hk |].
      now rewrite key_eqb_sym.
Qed.

Lemma positions_append_grouped cs c positions :
  fresh_keys positions -> grouped cs positions ->
  (filter (at_key (position_key c)) cs <> [] ->
   Exists (fun e => key_eqb (fst e) (position_key c) = true) positions) ->
  grouped (cs ++ [c]) (positions_append (position_key c) c positions).
Proof.
  unfold grouped. induction positions as [| [k g] r IH]; simpl;
    intros Hfresh Hgrouped Hseen.
  - repeat constructor; [| discriminate]. simpl.
    rewrite filter_app, filter_cons, decide_True by apply key_eqb_refl.
    destruct (filter (at_key (position_key c)) cs) as [| c0 l]; [reflexivity |].
    exfalso. specialize (Hseen ltac:(discriminate)). now apply Exists_nil in Hseen.
  - destruct Hfresh as [Hk Hfresh].
    apply Forall_cons in Hgrouped as [[Hg Hne] Hgrouped]. simpl in Hg, Hne.
    destruct (key_eqb k (position_key c)) eqn:Hmatch.
    + constructor; simpl.
      * split; [| destruct g; discriminate].
        rewrite filter_app, filter_cons, decide_True by exact Hmatch.
        now rewrite Hg.
      * rewrite Forall_forall in Hgrouped, Hk. apply Forall_forall.
        intros [k' g'] Hin. destruct (Hgrouped _ Hin) as [Hg' Hne'].
        simpl in *. split; [| exact Hne'].
        rewrite filter_app, filter_cons, decide_False, app_nil_r; [exact Hg' |].
        unfold at_key. intros Hk'. specialize (Hk _ Hin). simpl in Hk.
        rewrite (key_eqb_trans k' (position_key c) k) in Hk;
          [discriminate | exact Hk' | now rewrite key_eqb_sym].
    + constructor; simpl.
      * split; [| exact Hne].
        rewrite filter_app, filter_cons, decide_False, app_nil_r; [exact Hg |].
        unfold at_key. congruence.
      * apply IH; [exact Hfresh | exact Hgrouped |].
        intros Hsome. specialize (Hseen Hsome).
        apply Exists_cons in Hseen as [Hhead | Htail]; [| exact Htail].
        simpl in Hhead. congruence.
Qed.

(** Every candidate appended has an entry at its key. *)
Definition covered_keys (cs : list Candidate.t)
    (positions : list (Q * Q * list Candidate.t)) : Prop :=
  forall c, c ∈ cs -> Exists (fun e => at_key (fst e) c) positions.

Lemma positions_append_Exists (P : Q * Q -> Prop) key c positions :
  Exists (fun e => P (fst e)) positions ->
  Exists (fun e => P (fst e)) (positions_append key c positions).
Proof.
  induction positions as [| [k g] r IH]; simpl; intros Hex.
  - now apply Exists_nil in Hex.
  - apply Exists_cons in Hex as [Hhead | Htail];
      destruct (key_eqb k key); (left; exact Hhead) || (right; auto).
Qed.

Lemma positions_append_has_key key c positions :
  Exists (fun e => key_eqb (fst e) key = true) (positions_append key c positions).
Proof.
  induction positions as [| [k g] r IH]; simpl.
  - left. apply key_eqb_refl.
  - destruct (key_eqb k key) eqn:Hmatch; [left | right]; assumption.
Qed.

Lemma positions_append_covered cs c positions :
  covered_keys cs positions ->
  covered_keys (cs ++ [c]) (positions_append (position_key c) c positions).
Proof.
  intros Hcov c' Hin. apply elem_of_app in Hin as [Hin | Hin].
  - apply (positions_append_Exists (fun k => at_key k c')). auto.
  - apply list_elem_of_singleton in Hin. subst c'.
    apply positions_append_has_key.
Qed.

(** The first loop of the refiner: the candidates of the selected indices
    are looked up in order and grouped by rounded position. *)
Lemma grouping_loop (cmap : gmap Z Candidate.t) (selected : list Z)
    (cs0 : list Candidate.t) positions0 positions :
  for_each
    (fun positions idx =>
       c ← getitem cmap idx;
       Returns (positions_append (position_key c) c positions))
    selected positions0 = Returns positions ->
  fresh_keys positions0 -> grouped cs0 positions0 ->
  covered_keys cs0 positions0 ->
  exists cs,
    Forall2 (fun idx c => cmap !! idx = Some c) selected cs /\
    fresh_keys positions /\ grouped (cs0 ++ cs) positions /\
    covered_keys (cs0 ++ cs) positions.
Proof.
  revert cs0 positions0.
  induction selected as [| idx selected IH]; intros cs0 positions0 Hr Hf Hg Hc;
    cbn [for_each] in Hr.
  - injection Hr as <-. exists []. rewrite app_nil_r. auto.
  - apply bind_Returns in Hr as (positions1 & Hstep & Hr).
    apply bind_Returns in Hstep as (c & Hlook & Hstep). injection Hstep as <-.
    unfold getitem in Hlook.
    destruct (cmap !! idx) as [c0 |] eqn:Hidx; [| discriminate].
    injection Hlook as ->.
    destruct (IH (cs0 ++ [c]) _ Hr) as (cs & Hcs & Hf' & Hg' & Hc').
    + now apply positions_append_fresh.
    + apply positions_append_grouped; [assumption .. |].
      intros Hsome.
      destruct (filter (at_key (position_key c)) cs0) as [| c1 l] eqn:Hfil;
        [congruence |].
      assert (Hin : c1 ∈ filter (at_key (position_key c)) cs0)
        by (rewrite Hfil; left).
      apply list_elem_of_filter in Hin as [Hat Hin].
      specialize (Hc c1 Hin). rewrite Exists_exists in Hc.
      destruct Hc as (e & He & Hk). apply Exists_exists. exists e.
      split; [exact He |].
      eapply key_eqb_trans; [exact Hk |]. unfold at_key in Hat.
      now rewrite key_eqb_sym.
    + now apply positions_append_covered.
    + exists (c :: cs). rewrite <- app_assoc in Hg', Hc'.
      split; [constructor; assumption | auto].
Qed.

(** The loop that picks the best yaw: the yaw of the first candidate whose
    coverage list is the longest. *)
Definition coverage (c : Candidate.t) : Z := Py.len (Candidate.covered_points c).

Definition first_largest (best : Candidate.t) (group : list Candidate.t) : Prop :=
  exists before after,
    group = before ++ best :: after /\
    Forall (fun c => (coverage c < coverage best)%Z) before /\
    Forall (fun c => (coverage c <= coverage best)%Z) after.

Lemma best_yaw_fold (l : list Candidate.t) :
  forall before best after,
    Forall (fun c => (coverage c < coverage best)%Z) before ->
    Forall (fun c => (coverage c <= coverage best)%Z) after ->
    exists best',
      first_largest best' (before ++ best :: after ++ l) /\
      fold_left
        (fun '(best_yaw, best_coverage) c =>
           if (best_coverage <? Py.len (Candidate.covered_points c))%Z
           then (Candidate.yaw_deg c, Py.len (Candidate.covered_points c))
           else (best_yaw, best_coverage))
        l (Candidate.yaw_deg best, Py.len (Candidate.covered_points best))
      = (Candidate.yaw_deg best', Py.len (Candidate.covered_points best')).
Proof.
  induction l as [| c l IH]; intros before best after Hb Ha; simpl.
  - exists best. split; [| reflexivity].
    exists before, after. rewrite app_nil_r. auto.
  - destruct (Py.len (Candidate.covered_points best)
              <? Py.len (Candidate.covered_points c))%Z eqn:Hlt.
    + apply Z.ltb_lt in Hlt.
      destruct (IH (before ++ best :: after) c []) as (best' & Hfirst & Hfold).
      * apply Forall_app. split.
        -- eapply Forall_impl; [exact Hb |]. unfold coverage. intros; simpl in *; lia.
        -- constructor; [exact Hlt |].
           eapply Forall_impl; [exact Ha |]. unfold coverage. intros; simpl in *; lia.
      * constructor.
      * exists best'. split; [| exact Hfold].
        simpl in Hfirst. rewrite <- app_assoc in Hfirst. simpl in Hfirst.
        replace (after ++ c :: l) with ((after ++ [c]) ++ l)
          by (now rewrite <- app_assoc).
        rewrite <- app_assoc. exact Hfirst.
    + apply Z.ltb_ge in Hlt.
      destruct (IH before best (after ++ [c]) Hb) as (best' & Hfirst & Hfold).
      * apply Forall_app. split; [exact Ha |]. repeat constructor. exact Hlt.
      * exists best'. split; [| exact Hfold].
        now rewrite <- app_assoc in Hfirst.
Qed.

Lemma best_yaw_of_spec (first : Candidate.t) (rest : list Candidate.t) :
  exists best,
    first_largest best (first :: rest) /\
    best_yaw_of first (first :: rest) = Candidate.yaw_deg best.
Proof.
  unfold best_yaw_of. cbn [fold_left].
  rewrite Z.ltb_irrefl.
  destruct (best_yaw_fold rest [] first []) as (best & Hfirst & Hfold);
    [constructor .. |].
  exists best. split; [exact Hfirst |]. now rewrite Hfold.
Qed.

(** The second loop: every candidate of a group gets the best yaw of its
    group. *)
Definition assign_group (refined_yaw : gmap Z Q)
    (e : Q * Q * list Candidate.t) : gmap Z Q :=
  match snd e with
  | [] => refined_yaw
  | first :: _ =>
      fold_left
        (fun refined_yaw c =>
           <[Candidate.idx c := best_yaw_of first (snd e)]> refined_yaw)
        (snd e) refined_yaw
  end.

Lemma assign_loop positions (refined0 : gmap Z Q) :
  Forall (fun e => snd e <> []) positions ->
  for_each
    (fun refined_yaw '(pos, pos_candidates) =>
       match pos_candidates with
       | [] => Raises IndexError
       | first :: _ =>
           let best_yaw := best_yaw_of first pos_candidates in
           Returns (fold_left
                      (fun refined_yaw c =>
                         <[Candidate.idx c := best_yaw]> refined_yaw)
                      pos_candidates refined_yaw)
       end)
    positions refined0
  = Returns (fold_left assign_group positions refined0).
Proof.
  revert refined0. induction positions as [| [k g] r IH]; intros refined0 Hne;
    cbn [for_each fold_left].
  - reflexivity.
  - apply Forall_cons in Hne as [Hg Hr]. simpl in Hg.
    destruct g as [| first rest]; [congruence |].
    rewrite bind_ret. unfold assign_group at 2. cbn [snd]. now apply IH.
Qed.

Lemma insert_all_lookup (y : Q) (g : list Candidate.t) (m : gmap Z Q) (i : Z) :
  fold_left (fun m c => <[Candidate.idx c := y]> m) g m !! i
  = if decide (i ∈ map Candidate.idx g) then Some y else m !! i.
Proof.
  revert m. induction g as [| c g IH]; intros m; simpl.
  - reflexivity.
  - rewrite IH.
    destruct (decide (i ∈ map Candidate.idx g)) as [Hin | Hnin];
      destruct (decide (i ∈ Candidate.idx c :: map Candidate.idx g))
        as [Hin' | Hnin']; try reflexivity.
    + exfalso. apply Hnin'. now right.
    + apply elem_of_cons in Hin' as [-> | Hin']; [| contradiction].
      apply lookup_insert_eq.
    + apply lookup_insert_ne. intros <-. apply Hnin'. left.
Qed.

(** The entry of the result for index [i] comes from a group holding a
    candidate of index [i], and there is one when such a group exists. *)
Lemma assign_groups_lookup positions (refined0 : gmap Z Q) (i : Z) :
  match fold_left assign_group positions refined0 !! i with
  | Some y =>
      refined0 !! i = Some y \/
      exists e first rest,
        e ∈ positions /\ snd e = first :: rest /\
        i ∈ map Candidate.idx (snd e) /\ y = best_yaw_of first (snd e)
  | None =>
      refined0 !! i = None /\
      forall e, e ∈ positions -> i ∉ map Candidate.idx (snd e)
  end.
Proof.
  revert refined0. induction positions as [| e r IH]; intros refined0; simpl.
  - destruct (refined0 !! i); [now left |].
    split; [reflexivity |]. intros e He. now apply not_elem_of_nil in He.
  - specialize (IH (assign_group refined0 e)).
    destruct (fold_left assign_group r (assign_group refined0 e) !! i) as [y |].
    + destruct IH as [Hhere | (e' & first & rest & He' & Hg & Hi & Hy)].
      * unfold assign_group in Hhere.
        destruct (snd e) as [| first rest] eqn:Hg; [now left |].
        rewrite insert_all_lookup in Hhere.
        destruct (decide (i ∈ map Candidate.idx (first :: rest))) as [Hin | _];
          [| now left].
        right. exists e, first, rest. rewrite Hg.
        split; [left |]. repeat split; [exact Hin | congruence].
      * right. exists e', first, rest. split; [now right | auto].
    + destruct IH as [Hnone Hnot]. unfold assign_group in Hnone.
      destruct (snd e) as [| first rest] eqn:Hg.
      * split; [exact Hnone |]. intros e' He'.
        apply elem_of_cons in He' as [-> | He']; [| auto].
        rewrite Hg. apply not_elem_of_nil.
      * rewrite insert_all_lookup in Hnone.
        destruct (decide (i ∈ map Candidate.idx (first :: rest))) as [Hin | Hnin];
          [discriminate |].
        split; [exact Hnone |]. intros e' He'.
        apply elem_of_cons in He' as [-> | He']; [| auto].
        now rewrite Hg.
Qed.

(** A candidate stored in [candidate_map] is stored under its index. *)
Lemma candidate_map_idx (candidates : list Candidate.t) (i : Z)
    (c : Candidate.t) :
  candidate_map candidates !! i = Some c -> Candidate.idx c = i.
Proof.
  unfold candidate_map.
  assert (Hgen : forall (m : gmap Z Candidate.t),
    (forall j d, m !! j = Some d -> Candidate.idx d = j) ->
    forall j d,
      fold_left (fun m c => <[Candidate.idx c := c]> m) candidates m !! j = Some d ->
      Candidate.idx d = j).
  { induction candidates as [| c0 cs IH]; intros m Hm j d; simpl; [apply Hm |].
    apply IH. intros j' d' Hj'.
    destruct (decide (Candidate.idx c0 = j')) as [<- | Hne].
    - rewrite lookup_insert_eq in Hj'. congruence.
    - rewrite lookup_insert_ne in Hj' by assumption. now apply Hm. }
  apply Hgen. intros j d Hj. now rewrite lookup_empty in Hj.
Qed.

(** C3 (as the code has it).  For a partial-FOV model the refiner groups
    the selected candidates by position rounded to 4 decimals and assigns
    to every selected entry the yaw of the first candidate with the
    longest coverage list among the selected candidates at its position;
    candidates that were not selected are not looked at.  For a dome or
    full-circle model it returns no change. *)
Theorem refine_yaw_angles_spec (selected_indices : list Z)
    (candidates : list Candidate.t) (points : list SamplePoint.t)
    (model : LidarModel) (r_eff : Q) (refined_yaw : gmap Z Q) :
  refine_yaw_angles selected_indices candidates points model r_eff
  = Returns refined_yaw ->
  (dome_mode model = true \/ 360 <= hfov_deg model -> refined_yaw = ∅) /\
  (dome_mode model = false /\ hfov_deg model < 360 ->
   exists selected,
     Forall2 (fun idx c => candidate_map candidates !! idx = Some c)
             selected_indices selected /\
     (forall idx, idx ∉ selected_indices -> refined_yaw !! idx = None) /\
     forall idx c,
       idx ∈ selected_indices ->
       candidate_map candidates !! idx = Some c ->
       exists best,
         first_largest best (filter (same_position c) selected) /\
         refined_yaw !! idx = Some (Candidate.yaw_deg best)).
Proof.
  unfold refine_yaw_angles. intros Hr. split.
  - intros Hdome.
    assert (Hb : Py.ge (hfov_deg model) 360 || dome_mode model = true).
    { apply orb_true_iff. destruct Hdome as [-> | Hge]; [now right | left].
      now apply ge_true. }
    rewrite Hb in Hr. now injection Hr as <-.
  - intros [Hdome Hlt]. apply ge_false in Hlt.
    rewrite Hlt, Hdome in Hr. cbn [orb] in Hr. cbv zeta in Hr.
    apply bind_Returns in Hr as (positions & Hgroup & Hassign).
    destruct (grouping_loop _ _ [] [] _ Hgroup I) as (cs & Hcs & Hfresh & Hg & Hc).
    { constructor. }
    { intros c Hin. now apply not_elem_of_nil in Hin. }
    simpl in Hg, Hc.
    rewrite assign_loop in Hassign.
    2: { eapply Forall_impl; [exact Hg |]. intros e [_ Hne]. exact Hne. }
    injection Hassign as <-.
    exists cs. split; [exact Hcs |].
    assert (Hidx : forall c, c ∈ cs ->
              Candidate.idx c ∈ selected_indices /\
              candidate_map candidates !! Candidate.idx c = Some c).
    { intros c Hin. apply list_elem_of_lookup in Hin as [n Hn].
      destruct (Forall2_lookup_r _ _ _ _ _ Hcs Hn) as (idx & Hsel & Hlook).
      pose proof (candidate_map_idx _ _ _ Hlook) as Heq. subst idx.
      split; [| exact Hlook]. apply list_elem_of_lookup. eauto. }
    unfold grouped in Hg. rewrite Forall_forall in Hg.
    split.
    + intros idx Hnot. pose proof (assign_groups_lookup positions ∅ idx) as Hl.
      destruct (fold_left assign_group positions ∅ !! idx) as [y |]; [| reflexivity].
      destruct Hl as [Hempty | (e & first & rest & He & _ & Hi & _)].
      * now rewrite lookup_empty in Hempty.
      * exfalso. apply Hnot.
        apply list_elem_of_fmap in Hi as (c & -> & Hin).
        destruct (Hg e He) as [Heq _]. rewrite Heq in Hin.
        apply list_elem_of_filter in Hin as [_ Hin]. now apply Hidx.
    + intros idx c Hsel Hlook.
      assert (Hin : c ∈ cs).
      { apply list_elem_of_lookup in Hsel as [n Hn].
        destruct (Forall2_lookup_l _ _ _ _ _ Hcs Hn) as (c' & Hc' & Hlook').
        apply list_elem_of_lookup. exists n. congruence. }
      pose proof (assign_groups_lookup positions ∅ idx) as Hl.
      destruct (fold_left assign_group positions ∅ !! idx) as [y |].
      * destruct Hl as [Hempty | (e & first & rest & He & Hfirst & Hi & ->)];
          [now rewrite lookup_empty in Hempty |].
        destruct (Hg e He) as [Heq _].
        apply list_elem_of_fmap in Hi as (c' & Hidx' & Hin').
        assert (Hc' : c' = c).
        { rewrite Heq in Hin'. apply list_elem_of_filter in Hin' as [_ Hin'].
          destruct (Hidx c' Hin') as [_ Hlook']. rewrite <- Hidx' in Hlook'.
          congruence. }
        subst c'.
        assert (Hsame : snd e = filter (same_position c) cs).
        { rewrite Heq. apply list_filter_iff. intros c'.
          rewrite Heq in Hin'. apply list_elem_of_filter in Hin' as [Hat _].
          unfold same_position. apply at_key_equiv. exact Hat. }
        rewrite <- Hsame, Hfirst.
        destruct (best_yaw_of_spec first rest) as (best & Hbest & Hyaw).
        exists best. split; [exact Hbest |]. now rewrite Hyaw.
      * exfalso. destruct Hl as [_ Hnone].
        specialize (Hc c Hin). apply Exists_exists in Hc as (e & He & Hat).
        apply (Hnone e He). destruct (Hg e He) as [Heq _]. rewrite Heq.
        apply list_elem_of_fmap. exists c.
        split; [symmetry; eapply candidate_map_idx; eassumption |].
        apply list_elem_of_filter. split; assumption.
Qed.

End YawRefiner.

Section YawRefinerExample.

(** Two variants at the origin; only the first, with the shorter coverage
    list, is selected. *)
Definition variant_0 : Candidate.t := Candidate.mk 0 0 0 0 [0%Z].
Definition variant_30 : Candidate.t := Candidate.mk 1 0 0 30 [0%Z; 1%Z].

Definition model_90 : LidarModel :=
  {| hfov_deg := 90; vfov_deg := 30; range_m := 10; dome_mode := false |}.

(** The selected entry keeps yaw 0 although the non-selected variant at
    the same position covers more points with yaw 30. *)
Lemma refine_yaw_angles_ignores_unselected :
  refine_yaw_angles [0%Z] [variant_0; variant_30] [] model_90 10
  = Returns {[0%Z := 0]} /\
  key_eqb (position_key variant_0) (position_key variant_30) = true /\
  (length (Candidate.covered_points variant_0)
   < length (Candidate.covered_points variant_30))%nat /\
  ~ Candidate.yaw_deg variant_30 == 0.
Proof.
  split; [vm_compute; reflexivity |]. split; [reflexivity |].
  split; [simpl; lia |]. discriminate.
Qed.

(** Two selected variants at the origin: both get the yaw of the one that
    covers more. *)
Lemma refine_yaw_angles_spec_witness :
  exists refined_yaw best,
    refine_yaw_angles [0%Z; 1%Z] [variant_0; variant_30] [] model_90 10
    = Returns refined_yaw /\
    refined_yaw = {[0%Z := 30; 1%Z := 30]} /\
    refined_yaw !! 0%Z = Some (Candidate.yaw_deg best).
Proof.
  eexists.
  destruct (refine_yaw_angles_spec [0%Z; 1%Z] [variant_0; variant_30] []
              model_90 10 _ ltac:(vm_compute; reflexivity)) as [_ Hpartial].
  destruct Hpartial as (selected & _ & _ & Hbest); [split; reflexivity |].
  destruct (Hbest 0%Z variant_0) as (best & _ & Hyaw);
    [left | vm_compute; reflexivity |].
  exists best. split; [vm_compute; reflexivity |].
  split; [reflexivity | exact Hyaw].
Defined.

End YawRefinerExample.

(** ** The numeric laws over the real numbers

    The same two functions read over the reals, where [tan] and [pi] are
    the real ones.  The rational [smallest_angle_diff] above is the
    restriction of the real one to rational angles. *)

Module Real.
Import Reals Qreals Lra.
#[local] Open Scope R_scope.

(** [x % y] on reals. *)
Definition mod_ (x y : R) : R := x - y * IZR (Int_part (x / y)).

Definition smallest_angle_diff (a b : R) : R :=
  let diff := mod_ (a - b + 180) 360 - 180 in
  Rabs diff.

(** [math.radians]. *)
Definition radians (x : R) : R := x * PI / 180.

Definition compute_effective_radius (hfov_deg vfov_deg range_m : R)
    (dome_mode : bool) (mount_height : R) : R :=
  if dome_mode || (if Rle_dec 360 hfov_deg then true else false) then
    range_m * (9 / 10)
  else
    let alpha_rad := radians (vfov_deg / 2) in
    let r_vfov := mount_height * tan alpha_rad in
    Rmin range_m r_vfov.

Lemma real_mod_bounds (x : R) :
  0 <= mod_ x 360 < 360 /\ x = 360 * IZR (Int_part (x / 360)) + mod_ x 360.
Proof.
  unfold mod_. destruct (base_Int_part (x / 360)) as [Hlo Hhi].
  assert (Hx : x = 360 * (x / 360)) by (field; lra).
  split; [| lra]. set (n := IZR (Int_part (x / 360))) in *. lra.
Qed.

Lemma real_mod_unique (x : R) (k : Z) (r : R) :
  x = 360 * IZR k + r -> 0 <= r < 360 -> mod_ x 360 = r.
Proof.
  intros Hx Hr. destruct (real_mod_bounds x) as [Hm Hdec].
  set (n := Int_part (x / 360)) in *.
  assert (Hd : 360 * IZR (k - n) = mod_ x 360 - r) by (rewrite minus_IZR; lra).
  assert (Hlo : IZR (-1) < IZR (k - n)) by (simpl; lra).
  assert (Hhi : IZR (k - n) < IZR 1) by (simpl; lra).
  apply lt_IZR in Hlo, Hhi.
  assert (Hz : (k - n)%Z = 0%Z) by lia.
  rewrite Hz in Hd. simpl in Hd. lra.
Qed.

(** The properties of the angular difference, for all real angles. *)
Lemma real_smallest_angle_diff_spec (a b : R) :
  0 <= smallest_angle_diff a b <= 180 /\
  smallest_angle_diff a b = smallest_angle_diff b a /\
  smallest_angle_diff (a + 360) b = smallest_angle_diff a b /\
  smallest_angle_diff a (b + 360) = smallest_angle_diff a b.
Proof.
  unfold smallest_angle_diff. cbv zeta.
  destruct (real_mod_bounds (a - b + 180)) as [Hm Hdec].
  set (n := Int_part ((a - b + 180) / 360)) in *.
  repeat split.
  - apply Rabs_pos.
  - apply Rabs_le. lra.
  - destruct (Rle_lt_dec (mod_ (a - b + 180) 360) 0) as [Hz | Hpos].
    + assert (H0 : mod_ (a - b + 180) 360 = 0) by lra.
      rewrite (real_mod_unique (b - a + 180) (1 - n) 0); [| rewrite minus_IZR; lra | lra].
      now rewrite H0.
    + rewrite (real_mod_unique (b - a + 180) (- n) (360 - mod_ (a - b + 180) 360));
        [| rewrite opp_IZR; lra | lra].
      rewrite <- (Rabs_Ropp (360 - _ - 180)). f_equal. lra.
  - f_equal. f_equal. apply (real_mod_unique _ (n + 1)); [rewrite plus_IZR; lra | lra].
  - f_equal. f_equal. apply (real_mod_unique _ (n - 1)); [rewrite minus_IZR; lra | lra].
Qed.

(** The law of the effective radius with the real tangent. *)
Lemma real_compute_effective_radius_spec (hfov_deg vfov_deg range_m : R)
    (dome_mode : bool) (h : R) :
  (dome_mode = true \/ 360 <= hfov_deg ->
   compute_effective_radius hfov_deg vfov_deg range_m dome_mode h
   = 0.9 * range_m) /\
  (dome_mode = false /\ hfov_deg < 360 ->
   compute_effective_radius hfov_deg vfov_deg range_m dome_mode h
   = Rmin range_m (h * tan (vfov_deg / 2 * PI / 180))).
Proof.
  unfold compute_effective_radius, radians. split.
  - intros [-> | Hge]; [simpl; lra |].
    destruct (Rle_dec 360 hfov_deg); [| contradiction].
    rewrite orb_true_r. lra.
  - intros [-> Hlt]. destruct (Rle_dec 360 hfov_deg); [lra |]. reflexivity.
Qed.

(** A vertical field of view of 60 degrees, a range of 20 m and a mount at
    3 m: the effective radius is the square root of 3, about 1.732 m. *)
Lemma effective_radius_60_20_3 :
  compute_effective_radius 90 60 20 false 3 = sqrt 3.
Proof.
  destruct (real_compute_effective_radius_spec 90 60 20 false 3) as [_ Hpartial].
  rewrite Hpartial by (split; [reflexivity | lra]).
  replace (60 / 2 * PI / 180) with (PI / 6) by field.
  rewrite tan_PI6.
  assert (Hs : sqrt 3 * sqrt 3 = 3) by (apply sqrt_sqrt; lra).
  assert (Hpos : 0 < sqrt 3) by (apply sqrt_lt_R0; lra).
  replace (3 * (1 / sqrt 3)) with (sqrt 3) by (field_simplify_eq; lra).
  apply Rmin_right.
  assert (Hle : sqrt 3 <= sqrt 400) by (apply sqrt_le_1; lra).
  replace 400 with (20 * 20) in Hle by lra.
  rewrite sqrt_square in Hle; lra.
Qed.

End Real.

Section RealRefinement.
Import Reals Qreals Lra.
#[local] Open Scope R_scope.

Lemma Q2R_inject_Z (n : Z) : Q2R (inject_Z n) = IZR n.
Proof. unfold Q2R, inject_Z. simpl. lra. Qed.

Lemma Q2R_Qabs (q : Q) : Q2R (Qabs q) = Rabs (Q2R q).
Proof.
  destruct (Qlt_le_dec q 0) as [Hneg | Hpos].
  - rewrite (Qeq_eqR _ _ (Qabs_neg q (Qlt_le_weak _ _ Hneg))), Q2R_opp.
    apply Qlt_Rlt in Hneg. rewrite RMicromega.Q2R_0 in Hneg.
    rewrite Rabs_left; lra.
  - rewrite (Qeq_eqR _ _ (Qabs_pos q Hpos)).
    apply Qle_Rle in Hpos. rewrite RMicromega.Q2R_0 in Hpos.
    rewrite Rabs_right; lra.
Qed.

Lemma Q2R_mod_360 (x : Q) : Q2R (Py.mod_ x 360) = Real.mod_ (Q2R x) 360.
Proof.
  unfold Py.mod_, Real.mod_.
  assert (H360 : Q2R 360 = 360) by (unfold Q2R; simpl; lra).
  rewrite Q2R_minus, Q2R_mult, Q2R_inject_Z, H360.
  do 3 f_equal. apply Int_part_spec.
  pose proof (Qle_Rle _ _ (Qfloor_le (x / 360))) as Hlo.
  pose proof (Qlt_Rlt _ _ (Qlt_floor (x / 360))) as Hhi.
  rewrite !Q2R_inject_Z in *. rewrite plus_IZR in Hhi.
  rewrite Q2R_div, H360 in Hlo, Hhi by discriminate.
  lra.
Qed.

(** The rational function is the real one on rational angles. *)
Lemma smallest_angle_diff_Q2R (a b : Q) :
  Q2R (smallest_angle_diff a b) = Real.smallest_angle_diff (Q2R a) (Q2R b).
Proof.
  unfold smallest_angle_diff, Real.smallest_angle_diff. cbv zeta.
  assert (H180 : Q2R 180 = 180) by (unfold Q2R; simpl; lra).
  rewrite Q2R_Qabs, Q2R_minus, Q2R_mod_360, Q2R_plus, Q2R_minus, H180.
  reflexivity.
Qed.

End RealRefinement.

(** * Part III: further properties of the code *)

(** ** Ray casting *)

Section RayCasting.

(** One step of the loop of [point_in_polygon]: whether the edge from
    [vj] to [vi] toggles [inside]. *)
Definition crosses (px pz : Q) (vj vi : Vertex.t) : bool :=
  negb (eqb (Py.gt (Vertex.z vi) pz) (Py.gt (Vertex.z vj) pz))
  && Py.lt px ((Vertex.x vj - Vertex.x vi) * (pz - Vertex.z vi)
               / (Vertex.z vj - Vertex.z vi) + Vertex.x vi).

Lemma point_in_polygon_fold (px pz : Q) (polygon : vertices) (v : Vertex.t)
    (inside : bool) :
  fold_left
    (fun '(inside, vj) vi =>
       let xi := Vertex.x vi in
       let zi := Vertex.z vi in
       let xj := Vertex.x vj in
       let zj := Vertex.z vj in
       if negb (eqb (Py.gt zi pz) (Py.gt zj pz))
          && Py.lt px ((xj - xi) * (pz - zi) / (zj - zi) + xi)
       then (negb inside, vi)
       else (inside, vi))
    polygon (inside, v)
  = fold_left
      (fun '(inside, vj) vi => (xorb inside (crosses px pz vj vi), vi))
      polygon (inside, v).
Proof.
  revert inside v. induction polygon as [| vi polygon IH]; intros inside v;
    [reflexivity |].
  cbn [fold_left]. rewrite <- IH. f_equal. unfold crosses. cbv zeta.
  destruct (negb _ && _); [now rewrite xorb_true_r | now rewrite xorb_false_r].
Qed.

(** No edge between two vertices with property [P] crosses the ray: the
    point is outside. *)
Lemma no_crossing_outside (P : Vertex.t -> Prop) (px pz : Q)
    (polygon : vertices) :
  (forall vj vi, P vj -> P vi -> crosses px pz vj vi = false) ->
  Forall P polygon ->
  point_in_polygon px pz polygon = false.
Proof.
  intros Hno Hall. unfold point_in_polygon.
  destruct (last polygon) as [v_last |] eqn:Hlast; [| reflexivity].
  rewrite point_in_polygon_fold.
  assert (Hv : P v_last).
  { rewrite Forall_forall in Hall. apply Hall.
    apply last_Some in Hlast as [l' ->]. apply elem_of_app. right. left. }
  clear Hlast. revert v_last Hv.
  induction Hall as [| vi polygon Hvi Hall IH]; intros vj Hvj; [reflexivity |].
  cbn [fold_left]. rewrite (Hno vj vi Hvj Hvi). simpl. now apply IH.
Qed.

(** The crossing abscissa of a straddled edge lies between the abscissas
    of its ends. *)
Lemma crossing_abscissa_le (px pz xi zi xj zj : Q) :
  xi <= px -> xj <= px ->
  (zj <= pz /\ pz < zi) \/ (zi <= pz /\ pz < zj) ->
  (xj - xi) * (pz - zi) / (zj - zi) + xi <= px.
Proof.
  intros Hxi Hxj Hstraddle.
  assert (Hd : ~ zj - zi == 0) by (destruct Hstraddle; lra).
  set (t := (pz - zi) / (zj - zi)).
  assert (Ht : 0 <= t /\ t <= 1).
  { unfold t. destruct Hstraddle as [[H1 H2] | [H1 H2]].
    - assert (Hneg : (pz - zi) / (zj - zi) == (zi - pz) / (zi - zj))
        by (field; lra).
      rewrite Hneg. split.
      + apply Qle_shift_div_l; lra.
      + apply Qle_shift_div_r; lra.
    - split.
      + apply Qle_shift_div_l; lra.
      + apply Qle_shift_div_r; lra. }
  assert (Heq : (xj - xi) * (pz - zi) / (zj - zi) + xi
                == px - ((1 - t) * (px - xi) + t * (px - xj))).
  { unfold t. field. exact Hd. }
  rewrite Heq.
  assert (H1 : 0 <= (1 - t) * (px - xi)) by (apply Qmult_le_0_compat; lra).
  assert (H2 : 0 <= t * (px - xj)) by (apply Qmult_le_0_compat; lra).
  lra.
Qed.

Lemma gt_false a b : Py.gt a b = false <-> a <= b.
Proof.
  rewrite <- not_true_iff_false, gt_true. split; [apply Qnot_lt_le | apply Qle_not_lt].
Qed.

Lemma lt_false a b : Py.lt a b = false <-> b <= a.
Proof.
  rewrite <- not_true_iff_false, lt_true. split; [apply Qnot_lt_le | apply Qle_not_lt].
Qed.

(** X1.  A point at or above every vertex, below every vertex, or at or
    to the right of every vertex is outside the polygon; so is every
    point when the polygon has no vertex. *)
Theorem point_in_polygon_outside_box (px pz : Q) (polygon : vertices) :
  Forall (fun v => Vertex.z v <= pz) polygon \/
  Forall (fun v => pz < Vertex.z v) polygon \/
  Forall (fun v => Vertex.x v <= px) polygon ->
  point_in_polygon px pz polygon = false.
Proof.
  intros [Habove | [Hbelow | Hright]].
  - apply (no_crossing_outside (fun v => Vertex.z v <= pz)); [| exact Habove].
    intros vj vi Hj Hi. unfold crosses.
    apply gt_false in Hj, Hi. now rewrite Hj, Hi.
  - apply (no_crossing_outside (fun v => pz < Vertex.z v)); [| exact Hbelow].
    intros vj vi Hj Hi. unfold crosses.
    apply gt_true in Hj, Hi. now rewrite Hj, Hi.
  - apply (no_crossing_outside (fun v => Vertex.x v <= px)); [| exact Hright].
    intros vj vi Hj Hi. unfold crosses.
    destruct (Py.gt (Vertex.z vi) pz) eqn:Hzi;
      destruct (Py.gt (Vertex.z vj) pz) eqn:Hzj; try reflexivity; simpl;
      apply lt_false, crossing_abscissa_le; try assumption.
    + left. apply gt_true in Hzi. apply gt_false in Hzj. auto.
    + right. apply gt_false in Hzi. apply gt_true in Hzj. auto.
Qed.

Lemma point_in_polygon_outside_box_witness :
  point_in_polygon 11 5
    [Vertex.mk 0 0; Vertex.mk 10 0; Vertex.mk 10 10; Vertex.mk 0 10] = false.
Proof.
  apply point_in_polygon_outside_box. right. right.
  repeat constructor; discriminate.
Defined.

(** X2.  For an axis-parallel rectangle given counter-clockwise from its
    lower left corner, the test holds exactly on the half-open box: the
    left and lower edges are inside, the right and upper edges are not. *)
Theorem point_in_polygon_rectangle (x0 x1 z0 z1 px pz : Q) :
  x0 < x1 -> z0 < z1 ->
  point_in_polygon px pz
    [Vertex.mk x0 z0; Vertex.mk x1 z0; Vertex.mk x1 z1; Vertex.mk x0 z1] = true
  <-> (x0 <= px /\ px < x1) /\ (z0 <= pz /\ pz < z1).
Proof.
  intros Hx Hz. unfold point_in_polygon. cbn [last]. simpl last.
  rewrite point_in_polygon_fold. cbn [fold_left fst]. unfold crosses.
  cbn [Vertex.x Vertex.z].
  assert (E0 : (x0 - x0) * (pz - z0) / (z1 - z0) + x0 == x0) by (field; lra).
  assert (E1 : (x1 - x1) * (pz - z1) / (z0 - z1) + x1 == x1) by (field; lra).
  assert (L0 : Py.lt px ((x0 - x0) * (pz - z0) / (z1 - z0) + x0) = Py.lt px x0).
  { apply eq_true_iff_eq. rewrite !lt_true, E0. reflexivity. }
  assert (L1 : Py.lt px ((x1 - x1) * (pz - z1) / (z0 - z1) + x1) = Py.lt px x1).
  { apply eq_true_iff_eq. rewrite !lt_true, E1. reflexivity. }
  rewrite L0, L1.
  destruct (Py.gt z0 pz) eqn:Hz0; destruct (Py.gt z1 pz) eqn:Hz1;
    destruct (Py.lt px x0) eqn:Hx0; destruct (Py.lt px x1) eqn:Hx1; simpl;
    try apply gt_true in Hz0; try apply gt_false in Hz0;
    try apply gt_true in Hz1; try apply gt_false in Hz1;
    try apply lt_true in Hx0; try apply lt_false in Hx0;
    try apply lt_true in Hx1; try apply lt_false in Hx1;
    split; try discriminate; try (intros _; repeat split; lra);
    try (intros [[? ?] [? ?]]; lra).
Qed.

Lemma point_in_polygon_rectangle_witness :
  point_in_polygon 0 0
    [Vertex.mk 0 0; Vertex.mk 10 0; Vertex.mk 10 10; Vertex.mk 0 10] = true /\
  point_in_polygon 10 10
    [Vertex.mk 0 0; Vertex.mk 10 0; Vertex.mk 10 10; Vertex.mk 0 10] = false.
Proof.
  split.
  - apply (point_in_polygon_rectangle 0 10 0 10 0 0); [reflexivity .. |].
    repeat split; discriminate || reflexivity.
  - apply not_true_iff_false. intros Hin.
    apply (point_in_polygon_rectangle 0 10 0 10 10 10) in Hin;
      [| reflexivity ..].
    destruct Hin as [[_ Hlt] _]. discriminate Hlt.
Defined.

End RayCasting.

(** ** Ray marching *)

Section RayMarching.
Context {ML : Math}.

(** The test of step [i] of [steps]: the cell under the interpolated point
    is within the shape and set. *)
Definition los_hit (cx cz px pz : Q) (grid : ndarray) (bounds : GridBounds)
    (cell_size : Q) (steps i : Z) : bool :=
  let t := inject_Z i / inject_Z steps in
  let x := cx + (px - cx) * t in
  let z := cz + (pz - cz) * t in
  let col := Py.int ((x - b_min_x bounds) / cell_size) in
  let row := Py.int ((z - b_min_z bounds) / cell_size) in
  (0 <=? row)%Z && (row <? fst (shape grid))%Z
  && (0 <=? col)%Z && (col <? snd (shape grid))%Z
  && grid_get grid row col.

(** The number of steps of the march. *)
Definition los_steps (cx cz px pz cell_size : Q) : Z :=
  let dx := px - cx in
  let dz := pz - cz in
  (Py.int (math_sqrt (dx * dx + dz * dz) / (cell_size * (1 # 2))) + 1)%Z.

Lemma truediv_nonzero (x y : Q) : ~ y == 0 -> truediv x y = Returns (x / y).
Proof.
  intros Hy. unfold truediv.
  destruct (Qeq_bool y 0) eqn:Heq; [| reflexivity].
  apply Qeq_bool_iff in Heq. contradiction.
Qed.

Lemma truediv_zero (x y : Q) : y == 0 -> truediv x y = Raises ZeroDivisionError.
Proof.
  intros Hy. unfold truediv. apply Qeq_bool_iff in Hy. now rewrite Hy.
Qed.

Lemma los_loop (cx cz px pz : Q) (grid : ndarray) (bounds : GridBounds)
    (cell_size : Q) (steps : Z) (l : list Z) (blocked : bool) :
  ~ cell_size == 0 ->
  for_each
    (fun blocked i =>
       if blocked : bool then Returns true
       else
         let t := inject_Z i / inject_Z steps in
         let x := cx + (px - cx) * t in
         let z := cz + (pz - cz) * t in
         match Some bounds with
         | None => Raises TypeError
         | Some bounds =>
             qc ← truediv (x - b_min_x bounds) cell_size;
             let col := Py.int qc in
             qr ← truediv (z - b_min_z bounds) cell_size;
             let row := Py.int qr in
             if ((0 <=? row) && (row <? fst (shape grid))
                 && (0 <=? col) && (col <? snd (shape grid)))%Z
             then Returns (grid_get grid row col)
             else Returns false
         end)
    l blocked
  = Returns (blocked || existsb (los_hit cx cz px pz grid bounds cell_size steps) l).
Proof.
  intros Hcell. revert blocked.
  induction l as [| i l IH]; intros blocked; cbn [for_each existsb].
  - now rewrite orb_false_r.
  - destruct blocked.
    + rewrite bind_ret, IH. reflexivity.
    + cbv zeta. rewrite !truediv_nonzero by exact Hcell. rewrite !bind_ret.
      unfold los_hit at 1. cbv zeta.
      destruct ((0 <=? _) && _ && _ && _)%Z;
        rewrite bind_ret, IH; reflexivity.
Qed.

Lemma elem_of_range_from (a b i : Z) : i ∈ range_from a b <-> (a <= i < b)%Z.
Proof.
  unfold range_from. rewrite list_elem_of_fmap. split.
  - intros (k & -> & Hk). apply elem_of_seq in Hk. lia.
  - intros Hi. exists (Z.to_nat (i - a)). split; [lia |].
    apply elem_of_seq. lia.
Qed.

(** X3.  With a grid, its bounds and a cell size other than 0, the line
    of sight is blocked iff the end points are at least 0.01 apart and
    some step strictly between them, [i] of [steps] with
    [1 <= i < steps], falls on a set cell within the grid; the end points
    themselves are never tested. *)
Theorem check_los_blocked_spec (cx cz px pz : Q) (grid : ndarray)
    (bounds : GridBounds) (cell_size : Q) :
  ~ cell_size == 0 ->
  exists blocked,
    check_los_blocked cx cz px pz (Some grid) (Some bounds) cell_size
    = Returns blocked /\
    (blocked = true <->
     (1 # 100) <= math_sqrt ((px - cx) * (px - cx) + (pz - cz) * (pz - cz)) /\
     exists i,
       (1 <= i < los_steps cx cz px pz cell_size)%Z /\
       los_hit cx cz px pz grid bounds cell_size
         (los_steps cx cz px pz cell_size) i = true).
Proof.
  intros Hcell. unfold check_los_blocked. cbv zeta.
  destruct (Py.lt (math_sqrt _) (1 # 100)) eqn:Hnear.
  - exists false. split; [reflexivity |]. split; [discriminate |].
    intros [Hfar _]. apply lt_true in Hnear. lra.
  - apply lt_false in Hnear.
    rewrite truediv_nonzero by lra. rewrite bind_ret.
    rewrite los_loop by exact Hcell. eexists. split; [reflexivity |].
    cbn [orb]. rewrite existsb_exists. fold (los_steps cx cz px pz cell_size).
    split.
    + intros (i & Hin & Hhit). split; [exact Hnear |]. exists i.
      apply list_elem_of_In, elem_of_range_from in Hin. auto.
    + intros (_ & i & Hi & Hhit). exists i. split; [| exact Hhit].
      apply list_elem_of_In, elem_of_range_from. exact Hi.
Qed.

(** X4.  With a grid and a cell size of 0 the march divides by zero,
    unless the end points are closer than 0.01, which is never blocked
    whatever the grid. *)
Theorem check_los_blocked_edge_cases (cx cz px pz : Q) (grid : ndarray)
    (bounds : option GridBounds) (cell_size : Q) :
  (math_sqrt ((px - cx) * (px - cx) + (pz - cz) * (pz - cz)) < (1 # 100) ->
   check_los_blocked cx cz px pz (Some grid) bounds cell_size = Returns false) /\
  ((1 # 100) <= math_sqrt ((px - cx) * (px - cx) + (pz - cz) * (pz - cz)) ->
   cell_size == 0 ->
   check_los_blocked cx cz px pz (Some grid) bounds cell_size
   = Raises ZeroDivisionError).
Proof.
  unfold check_los_blocked. cbv zeta. split.
  - intros Hnear. apply lt_true in Hnear. now rewrite Hnear.
  - intros Hfar Hcell. apply lt_false in Hfar. rewrite Hfar.
    rewrite truediv_zero; [reflexivity |]. rewrite Hcell. reflexivity.
Qed.

End RayMarching.

Section RayMarchingExample.
Import Ref.

(** The 10 by 10 grid with the 2 by 2 block in the centre. *)
Definition centre_block : ndarray :=
  {| shape := (10, 10)%Z;
     data := map (fun r : nat =>
                    map (fun c : nat =>
                           ((4 <=? r) && (r <? 6) && (4 <=? c) && (c <? 6))%nat)
                        (seq 0 10))
                 (seq 0 10) |}.

Definition unit_bounds : GridBounds :=
  {| b_min_x := 0; b_max_x := 10; b_min_z := 0; b_max_z := 10 |}.

(** The diagonal from (0, 0) to (9, 9) is blocked by the block. *)
Lemma check_los_blocked_spec_witness :
  check_los_blocked 0 0 9 9 (Some centre_block) (Some unit_bounds) 1
  = Returns true.
Proof.
  destruct (check_los_blocked_spec (ML := math) 0 0 9 9 centre_block
              unit_bounds 1 ltac:(discriminate)) as (blocked & Hr & _).
  rewrite Hr. vm_compute in Hr. exact (eq_sym Hr).
Defined.

Lemma check_los_blocked_edge_cases_witness :
  check_los_blocked 0 0 0 0 (Some centre_block) None 0 = Returns false /\
  check_los_blocked 0 0 9 9 (Some centre_block) None 0
  = Raises ZeroDivisionError.
Proof.
  split.
  - apply (proj1 (check_los_blocked_edge_cases (ML := math) 0 0 0 0
                    centre_block None 0)). reflexivity.
  - apply (proj2 (check_los_blocked_edge_cases (ML := math) 0 0 9 9
                    centre_block None 0)); [discriminate | reflexivity].
Defined.

End RayMarchingExample.

(** ** The coverage builder *)

#[local] Instance exn_eq_dec : EqDecision exn.
Proof. solve_decision. Defined.

#[local] Instance outcome_bool_eq_dec : EqDecision (outcome bool).
Proof. solve_decision. Defined.

Section CoverageSets.
Context {ML : Math}.


Lemma coverage_inner_loop (model : LidarModel) (r_eff : Q) (los : bool)
    (obstacle_grid : option ndarray) (grid_bounds : option GridBounds)
    (los_cell_m : Q) (c : Candidate.t) (points : list SamplePoint.t)
    (covered covered' : list Z) :
  for_each
    (fun covered p =>
       b ← covers model r_eff los obstacle_grid grid_bounds los_cell_m c p;
       Returns (if b : bool then covered ++ [SamplePoint.idx p] else covered))
    points covered = Returns covered' ->
  covered' = covered ++ map SamplePoint.idx
    (filter (fun p => covers model r_eff los obstacle_grid grid_bounds
                        los_cell_m c p = Returns true) points).
Proof.
  revert covered. induction points as [| p points IH]; intros covered Hr;
    cbn [for_each] in Hr.
  - injection Hr as <-. now rewrite app_nil_r.
  - apply bind_Returns in Hr as (covered1 & Hstep & Hr).
    apply bind_Returns in Hstep as (b & Hb & Hstep). injection Hstep as <-.
    rewrite (IH _ Hr), filter_cons. destruct b.
    + rewrite decide_True by exact Hb. simpl. now rewrite <- app_assoc.
    + rewrite decide_False by congruence. reflexivity.
Qed.

(** What the builder leaves of a candidate and what it writes. *)
Definition coverage_of (model : LidarModel) (r_eff : Q) (los : bool)
    (obstacle_grid : option ndarray) (grid_bounds : option GridBounds)
    (los_cell_m : Q) (points : list SamplePoint.t) (c c' : Candidate.t)
    : Prop :=
  Candidate.idx c' = Candidate.idx c /\
  Candidate.x c' = Candidate.x c /\
  Candidate.z c' = Candidate.z c /\
  Candidate.yaw_deg c' = Candidate.yaw_deg c /\
  Candidate.covered_points c'
  = map SamplePoint.idx
      (filter (fun p => covers model r_eff los obstacle_grid grid_bounds
                          los_cell_m c p = Returns true) points).

Lemma coverage_outer_loop (model : LidarModel) (r_eff : Q) (los : bool)
    (obstacle_grid : option ndarray) (grid_bounds : option GridBounds)
    (los_cell_m : Q) (points : list SamplePoint.t)
    (candidates done done' : list Candidate.t) :
  for_each
    (fun done c =>
       covered ← for_each
         (fun covered p =>
            b ← covers model r_eff los obstacle_grid grid_bounds
                  los_cell_m c p;
            Returns (if b : bool then covered ++ [SamplePoint.idx p]
                     else covered))
         points [];
       Returns (done ++ [Candidate.mk (Candidate.idx c) (Candidate.x c)
                          (Candidate.z c) (Candidate.yaw_deg c) covered]))
    candidates done = Returns done' ->
  exists new,
    done' = done ++ new /\
    Forall2 (coverage_of model r_eff los obstacle_grid grid_bounds los_cell_m
               points) candidates new.
Proof.
  revert done. induction candidates as [| c candidates IH]; intros done Hr;
    cbn [for_each] in Hr.
  - injection Hr as <-. exists []. rewrite app_nil_r. split; [reflexivity | constructor].
  - apply bind_Returns in Hr as (done1 & Hstep & Hr).
    apply bind_Returns in Hstep as (covered & Hcov & Hstep).
    injection Hstep as <-.
    apply coverage_inner_loop in Hcov. simpl in Hcov.
    destruct (IH _ Hr) as (new & -> & Hnew).
    eexists. split; [now rewrite <- app_assoc |].
    constructor; [| exact Hnew]. repeat split. exact Hcov.
Qed.


End CoverageSets.

Section CoverageSetsExample.
Import Ref.


End CoverageSetsExample.

(** ** The inverse coverage map and the solve *)

Section PointCovers.

Lemma fold_insert_const_lookup {A V} (f : A -> Z) (v : V) (l : list A)
    (m : gmap Z V) (k : Z) :
  fold_left (fun m a => <[f a := v]> m) l m !! k
  = if decide (k ∈ map f l) then Some v else m !! k.
Proof.
  revert m. induction l as [| a l IH]; intros m; simpl; [reflexivity |].
  rewrite IH.
  destruct (decide (k ∈ map f l)) as [Hin | Hnin];
    destruct (decide (k ∈ f a :: map f l)) as [Hin' | Hnin']; try reflexivity.
  - exfalso. apply Hnin'. now right.
  - apply elem_of_cons in Hin' as [-> | Hin']; [| contradiction].
    apply lookup_insert_eq.
  - apply lookup_insert_ne. intros <-. apply Hnin'. left.
Qed.

(** How often [k] occurs in a list of indices. *)
Definition multiplicity (k : Z) (ps : list Z) : nat :=
  length (filter (fun q => q = k) ps).

Lemma multiplicity_pos (k : Z) (ps : list Z) :
  (0 < multiplicity k ps)%nat <-> k ∈ ps.
Proof.
  unfold multiplicity. induction ps as [| p ps IH].
  - simpl. split; [lia |]. intros Hin. now apply not_elem_of_nil in Hin.
  - rewrite filter_cons, elem_of_cons.
    destruct (decide (p = k)) as [-> | Hne]; simpl.
    + split; [auto | lia].
    + rewrite IH. split; [auto |]. intros [-> | Hin]; [congruence | exact Hin].
Qed.

(** The loop [point_covers[p_idx].append(c.idx)] over one coverage list. *)
Lemma covers_list_spec (ci : Z) (ps : list Z) (pc pc' : gmap Z (list Z)) :
  for_each
    (fun pc p_idx => l ← getitem pc p_idx; Returns (<[p_idx := l ++ [ci]]> pc))
    ps pc = Returns pc' ->
  forall k, pc' !! k = (fun l => l ++ replicate (multiplicity k ps) ci) <$> pc !! k.
Proof.
  revert pc. induction ps as [| p ps IH]; intros pc Hr; cbn [for_each] in Hr.
  - injection Hr as <-. intros k. unfold multiplicity. simpl.
    destruct (pc !! k); simpl; [now rewrite app_nil_r | reflexivity].
  - apply bind_Returns in Hr as (pc1 & Hstep & Hr).
    apply bind_Returns in Hstep as (l & Hl & Hstep). injection Hstep as <-.
    unfold getitem in Hl. destruct (pc !! p) as [l0 |] eqn:Hp; [| discriminate].
    injection Hl as ->. intros k. rewrite (IH _ Hr).
    unfold multiplicity. rewrite filter_cons.
    destruct (decide (p = k)) as [-> | Hne].
    + rewrite lookup_insert_eq, Hp. simpl. now rewrite <- app_assoc.
    + rewrite lookup_insert_ne by assumption. reflexivity.
Qed.

(** It returns when every index is a key and raises [KeyError] when one
    is not. *)
Lemma covers_list_outcome (ci : Z) (ps : list Z) (pc : gmap Z (list Z)) :
  (Forall (fun p => is_Some (pc !! p)) ps ->
   exists pc',
     for_each
       (fun pc p_idx => l ← getitem pc p_idx; Returns (<[p_idx := l ++ [ci]]> pc))
       ps pc = Returns pc') /\
  (~ Forall (fun p => is_Some (pc !! p)) ps ->
   for_each
     (fun pc p_idx => l ← getitem pc p_idx; Returns (<[p_idx := l ++ [ci]]> pc))
     ps pc = Raises KeyError).
Proof.
  revert pc. induction ps as [| p ps IH]; intros pc; cbn [for_each].
  - split; [eauto |]. intros Hno. exfalso. apply Hno. constructor.
  - destruct (pc !! p) as [l |] eqn:Hp.
    + rewrite (getitem_Some _ _ _ Hp), bind_ret.
      assert (Hiff : Forall (fun q => is_Some (<[p := l ++ [ci]]> pc !! q)) ps
                     <-> Forall (fun q => is_Some (pc !! q)) ps).
      { apply Forall_proper; [| reflexivity]. intros q.
        rewrite lookup_insert_is_Some. split; [| tauto].
        intros [<- | [_ Hq]]; eauto. }
      destruct (IH (<[p := l ++ [ci]]> pc)) as [Hret Hraise]. split.
      * intros Hall. apply Forall_cons in Hall as [_ Hall].
        apply Hret, Hiff, Hall.
      * intros Hno. apply Hraise. rewrite Hiff. intros Hall. apply Hno.
        constructor; [eauto | exact Hall].
    + split.
      * intros Hall. apply Forall_cons in Hall as [[l Hl] _]. congruence.
      * intros _. unfold getitem. now rewrite Hp.
Qed.

(** The candidates that cover [k], each as often as it lists [k]. *)
Definition covering (k : Z) (candidates : list Candidate.t) : list Z :=
  candidates ≫= fun c =>
    replicate (multiplicity k (Candidate.covered_points c)) (Candidate.idx c).

Lemma elem_of_covering (k ci : Z) (candidates : list Candidate.t) :
  ci ∈ covering k candidates <->
  exists c, c ∈ candidates /\ Candidate.idx c = ci /\
            k ∈ Candidate.covered_points c.
Proof.
  unfold covering. rewrite list_elem_of_bind. split.
  - intros (c & Hin & Hc). apply elem_of_replicate in Hin as [-> Hn].
    exists c. repeat split; [exact Hc |]. apply multiplicity_pos. lia.
  - intros (c & Hc & <- & Hk). exists c. split; [| exact Hc].
    apply elem_of_replicate. split; [reflexivity |].
    apply multiplicity_pos in Hk. lia.
Qed.

(** Every index a candidate covers is the index of a sample point. *)
Definition covers_samples (candidates : list Candidate.t)
    (points : list SamplePoint.t) : Prop :=
  Forall (fun c => Forall (fun k => k ∈ map SamplePoint.idx points)
                          (Candidate.covered_points c)) candidates.

Lemma covers_loop (candidates : list Candidate.t) (pc : gmap Z (list Z)) :
  (Forall (fun c => Forall (fun k => is_Some (pc !! k))
                           (Candidate.covered_points c)) candidates ->
   exists pc',
     for_each
       (fun pc c =>
          for_each
            (fun pc p_idx =>
               l ← getitem pc p_idx;
               Returns (<[p_idx := l ++ [Candidate.idx c]]> pc))
            (Candidate.covered_points c) pc)
       candidates pc = Returns pc' /\
     forall k, pc' !! k = (fun l => l ++ covering k candidates) <$> pc !! k) /\
  (~ Forall (fun c => Forall (fun k => is_Some (pc !! k))
                             (Candidate.covered_points c)) candidates ->
   for_each
     (fun pc c =>
        for_each
          (fun pc p_idx =>
             l ← getitem pc p_idx;
             Returns (<[p_idx := l ++ [Candidate.idx c]]> pc))
          (Candidate.covered_points c) pc)
     candidates pc = Raises KeyError).
Proof.
  revert pc. induction candidates as [| c candidates IH]; intros pc;
    cbn [for_each].
  - split.
    + intros _. exists pc. split; [reflexivity |]. intros k.
      unfold covering. simpl. destruct (pc !! k); simpl;
        [now rewrite app_nil_r | reflexivity].
    + intros Hno. exfalso. apply Hno. constructor.
  - destruct (covers_list_outcome (Candidate.idx c)
                (Candidate.covered_points c) pc) as [Hret Hraise].
    destruct (decide (Forall (fun k => is_Some (pc !! k))
                             (Candidate.covered_points c))) as [Hc | Hc].
    + destruct (Hret Hc) as [pc1 Hpc1]. rewrite Hpc1, bind_ret.
      pose proof (covers_list_spec _ _ _ _ Hpc1) as Hval.
      assert (Hiff : Forall (fun c0 => Forall (fun k => is_Some (pc1 !! k))
                                         (Candidate.covered_points c0)) candidates
                     <-> Forall (fun c0 => Forall (fun k => is_Some (pc !! k))
                                         (Candidate.covered_points c0)) candidates).
      { apply Forall_proper; [| reflexivity]. intros c0.
        apply Forall_proper; [| reflexivity]. intros k. rewrite Hval.
        destruct (pc !! k); simpl; split; intros [? ?]; eauto; discriminate. }
      destruct (IH pc1) as [Hret' Hraise']. split.
      * intros Hall. apply Forall_cons in Hall as [_ Hall].
        destruct (Hret' (proj2 Hiff Hall)) as (pc' & Hpc' & Hval').
        exists pc'. split; [exact Hpc' |]. intros k.
        rewrite Hval', Hval. unfold covering. cbn [mbind list_bind].
        destruct (pc !! k); simpl; [now rewrite <- app_assoc | reflexivity].
      * intros Hno. apply Hraise'. rewrite Hiff. intros Hall. apply Hno.
        constructor; assumption.
    + rewrite (Hraise Hc). split; [| reflexivity].
      intros Hall. apply Forall_cons in Hall as [Hall _]. contradiction.
Qed.

(** [point_covers] returns the dictionary of the covering candidates, or
    raises [KeyError] at a covered index that is no sample index. *)
Lemma point_covers_outcome (candidates : list Candidate.t)
    (points : list SamplePoint.t) :
  (covers_samples candidates points ->
   exists pc,
     point_covers candidates points = Returns pc /\
     forall k, pc !! k = if decide (k ∈ map SamplePoint.idx points)
                         then Some (covering k candidates) else None) /\
  (~ covers_samples candidates points ->
   point_covers candidates points = Raises KeyError).
Proof.
  unfold point_covers, covers_samples.
  set (pc0 := fold_left (fun m p => <[SamplePoint.idx p := []]> m) points ∅).
  assert (Hinit : forall k,
    pc0 !! k = if decide (k ∈ map SamplePoint.idx points) then Some [] else None).
  { intros k. unfold pc0.
    rewrite (fold_insert_const_lookup SamplePoint.idx []). now rewrite lookup_empty. }
  assert (Hiff : Forall (fun c => Forall (fun k => is_Some (pc0 !! k))
                                    (Candidate.covered_points c)) candidates
                 <-> Forall (fun c => Forall (fun k => k ∈ map SamplePoint.idx points)
                                    (Candidate.covered_points c)) candidates).
  { apply Forall_proper; [| reflexivity]. intros c.
    apply Forall_proper; [| reflexivity]. intros k. rewrite Hinit.
    destruct (decide (k ∈ map SamplePoint.idx points)) as [Hin | Hnin].
    - split; [intros _; exact Hin | intros _; eexists; reflexivity].
    - split; [intros [? ?]; discriminate | contradiction]. }
  destruct (covers_loop candidates pc0) as [Hret Hraise]. split.
  - intros Hall. destruct (Hret (proj2 Hiff Hall)) as (pc & Hpc & Hval).
    exists pc. split; [exact Hpc |]. intros k. rewrite Hval, Hinit.
    destruct (decide (k ∈ map SamplePoint.idx points)); reflexivity.
  - intros Hno. apply Hraise. now rewrite Hiff.
Qed.

(** X6.  [point_covers] inverts the coverage lists: when every covered
    index is the index of a sample point it returns a dictionary with one
    key per sample index, and candidate index [ci] is listed under [k] iff
    a candidate of index [ci] covers [k]; otherwise the construction
    raises [KeyError]. *)
Theorem point_covers_inverts (candidates : list Candidate.t)
    (points : list SamplePoint.t) :
  (covers_samples candidates points ->
   exists pc,
     point_covers candidates points = Returns pc /\
     (forall k, is_Some (pc !! k) <-> k ∈ map SamplePoint.idx points) /\
     forall k l, pc !! k = Some l ->
       forall ci, ci ∈ l <->
         exists c, c ∈ candidates /\ Candidate.idx c = ci /\
                   k ∈ Candidate.covered_points c) /\
  (~ covers_samples candidates points ->
   point_covers candidates points = Raises KeyError).
Proof.
  destruct (point_covers_outcome candidates points) as [Hret Hraise].
  split; [| exact Hraise].
  intros Hall. destruct (Hret Hall) as (pc & Hpc & Hval).
  exists pc. split; [exact Hpc |]. split.
  - intros k. rewrite Hval.
    destruct (decide (k ∈ map SamplePoint.idx points)) as [Hin | Hnin].
    + split; [intros _; exact Hin | intros _; eexists; reflexivity].
    + split; [intros [? ?]; discriminate | contradiction].
  - intros k l Hl ci. rewrite Hval in Hl.
    destruct (decide (k ∈ map SamplePoint.idx points)); [| discriminate].
    injection Hl as <-. apply elem_of_covering.
Qed.

End PointCovers.

Section PointCoversExample.

Lemma point_covers_inverts_witness :
  exists pc,
    point_covers
      [Candidate.mk 0 0 0 0 [0; 1]%Z; Candidate.mk 1 1 0 0 [1]%Z]
      [SamplePoint.mk 0 0 0 false; SamplePoint.mk 1 1 1 false]
    = Returns pc /\
    pc = {[0%Z := [0%Z]; 1%Z := [0%Z; 1%Z]]} /\
    point_covers [Candidate.mk 0 0 0 0 [7]%Z] [SamplePoint.mk 0 0 0 false]
    = Raises KeyError.
Proof.
  destruct (point_covers_inverts
    [Candidate.mk 0 0 0 0 [0; 1]%Z; Candidate.mk 1 1 0 0 [1]%Z]
    [SamplePoint.mk 0 0 0 false; SamplePoint.mk 1 1 1 false]) as [Hret _].
  destruct Hret as (pc & Hpc & _).
  { repeat constructor. }
  exists pc. split; [exact Hpc |]. split.
  - vm_compute in Hpc. injection Hpc as <-. reflexivity.
  - apply (proj2 (point_covers_inverts [Candidate.mk 0 0 0 0 [7]%Z]
                    [SamplePoint.mk 0 0 0 false])).
    intros Hall. apply Forall_cons in Hall as [Hall _].
    apply Forall_cons in Hall as [Hin _].
    apply list_elem_of_singleton in Hin. discriminate.
Defined.

End PointCoversExample.

#[local] Instance CpStatus_eq_dec : EqDecision CpStatus.
Proof. solve_decision. Defined.

Section SolveOutcome.
Context {PS : PySet} {CP : CpSat}.

(** With every sample index a key, the constraints are built without a
    raise in every overlap mode. *)
Lemma coverage_constraints_returns (pc : gmap Z (list Z))
    (points : list SamplePoint.t) (s : PlannerSettings) :
  (forall p, p ∈ points -> is_Some (pc !! SamplePoint.idx p)) ->
  exists r, coverage_constraints pc points s = Returns r.
Proof.
  intros Hdom. unfold coverage_constraints. cbv zeta.
  assert (Hset : forall p_idx : Z,
    p_idx ∈ set_iter (list_to_set (map SamplePoint.idx points)) ->
    is_Some (pc !! p_idx)).
  { intros p_idx Hin.
    rewrite set_iter_perm, elem_of_elements, elem_of_list_to_set in Hin.
    apply list_elem_of_fmap in Hin as (p & -> & Hp). auto. }
  destruct (String.eqb (overlap_mode s) "everywhere").
  { match goal with
    | |- exists _, for_each ?body ?l ?s0 ≫= _ = _ =>
        destruct (for_each_returns body l s0) as [cs Hcs]
    end.
    - intros cs p_idx Hin. destruct (Hset p_idx Hin) as [covering Hcov].
      rewrite (getitem_Some _ _ _ Hcov), bind_ret. destruct covering; eauto.
    - rewrite Hcs, bind_ret. eauto. }
  destruct (String.eqb (overlap_mode s) "critical_only").
  { match goal with
    | |- exists _, for_each ?body ?l ?s0 ≫= _ = _ =>
        destruct (for_each_returns body l s0) as [cs Hcs]
    end.
    - intros cs p_idx Hin. destruct (Hset p_idx Hin) as [covering Hcov].
      rewrite (getitem_Some _ _ _ Hcov), bind_ret.
      destruct covering; [eauto |]. destruct (bool_decide _); eauto.
    - rewrite Hcs, bind_ret. eauto. }
  destruct (String.eqb (overlap_mode s) "percent_target"); [| eauto].
  match goal with
  | |- exists _, for_each ?body ?l ?s0 ≫= _ = _ =>
      destruct (for_each_returns body l s0) as [[ys cs] Hcs]
  end.
  - intros [ys cs] p Hin. destruct (Hdom p Hin) as [covering Hcov].
    rewrite (getitem_Some _ _ _ Hcov), bind_ret. destruct covering; eauto.
  - rewrite Hcs, bind_ret. cbv beta iota. destruct ys; eauto.
Qed.

(** X7.  When every covered index is the index of a sample point,
    [solve_k_coverage] returns after one call of the solver: on [OPTIMAL]
    or [FEASIBLE] the success flag is true and the selected indices are
    those of the candidates whose variable has value 1, in the order of
    the candidates; on any other status the flag is false, nothing is
    selected and the status string is the name of the status.  Otherwise
    it raises [KeyError] and the solver is not called. *)
Theorem solve_k_coverage_outcome (candidates : list Candidate.t)
    (points : list SamplePoint.t) (s : PlannerSettings) (w : cp_world) :
  (covers_samples candidates points ->
   exists cp_model status value w',
     cp_solve cp_model (solver_time_limit_s s) (seed s) w = (status, value, w') /\
     solve_k_coverage candidates points s w
     = Returns
         (if bool_decide (status = OPTIMAL \/ status = FEASIBLE)
          then map Candidate.idx
                 (filter (fun c => value (X (Candidate.idx c)) = 1%Z) candidates)
          else [],
          StatusName status,
          bool_decide (status = OPTIMAL \/ status = FEASIBLE), w')) /\
  (~ covers_samples candidates points ->
   solve_k_coverage candidates points s w = Raises KeyError).
Proof.
  unfold solve_k_coverage.
  destruct (point_covers_outcome candidates points) as [Hret Hraise]. split.
  - intros Hall. destruct (Hret Hall) as (pc & Hpc & Hval).
    rewrite Hpc, bind_ret.
    destruct (coverage_constraints_returns pc points s) as [[ys cs] Hcs].
    { intros p Hp. rewrite Hval, decide_True; [eexists; reflexivity |].
      apply list_elem_of_fmap. eauto. }
    rewrite Hcs, bind_ret. cbv beta iota zeta.
    match goal with
    | |- context [cp_solve ?m _ _ _] => exists m
    end.
    destruct (cp_solve _ _ _ w) as [[status value] w'].
    exists status, value, w'. split; [reflexivity |].
    destruct status; reflexivity.
  - intros Hno. now rewrite (Hraise Hno).
Qed.

End SolveOutcome.

Section SolveOutcomeExample.
Import Ref.

Lemma solve_k_coverage_outcome_witness :
  solve_k_coverage (CP := cp_take_all)
    [Candidate.mk 0 0 0 0 [0; 1]%Z; Candidate.mk 1 1 0 0 [1]%Z]
    [SamplePoint.mk 0 0 0 false; SamplePoint.mk 1 1 1 false]
    default_settings 0%nat
  = Returns ([0; 1]%Z, "FEASIBLE"%string, true, 1%nat) /\
  solve_k_coverage (CP := cp_take_all)
    [Candidate.mk 0 0 0 0 [7]%Z] [SamplePoint.mk 0 0 0 false]
    default_settings 0%nat
  = Raises KeyError.
Proof.
  split.
  - destruct (proj1 (solve_k_coverage_outcome (PS := pyset) (CP := cp_take_all)
      [Candidate.mk 0 0 0 0 [0; 1]%Z; Candidate.mk 1 1 0 0 [1]%Z]
      [SamplePoint.mk 0 0 0 false; SamplePoint.mk 1 1 1 false]
      default_settings 0%nat))
      as (cp_model & status & value & w' & _ & Hsolve).
    + repeat constructor.
    + rewrite Hsolve. vm_compute in Hsolve. exact (eq_sym Hsolve).
  - apply (proj2 (solve_k_coverage_outcome (PS := pyset) (CP := cp_take_all)
      [Candidate.mk 0 0 0 0 [7]%Z] [SamplePoint.mk 0 0 0 false]
      default_settings 0%nat)).
    intros Hall. apply Forall_cons in Hall as [Hall _].
    apply Forall_cons in Hall as [Hin _].
    apply list_elem_of_singleton in Hin. discriminate.
Defined.

End SolveOutcomeExample.

(** ** More on the pruner *)

Section PrunerProperties.
Context {PS : PySet}.

(** X8.  The indices the pruner returns are selected indices, without
    repetition, and none of them is redundant: removing any single one
    from the result violates the cover requirement of some sample
    point. *)
Theorem prune_redundant_sensors_irredundant (selected_indices : list Z)
    (candidates : list Candidate.t) (points : list SamplePoint.t)
    (settings : PlannerSettings) (pruned : list Z) :
  prune_redundant_sensors selected_indices candidates points settings
  = Returns pruned ->
  NoDup pruned /\
  (forall idx, idx ∈ pruned -> idx ∈ selected_indices) /\
  forall idx, idx ∈ pruned ->
    still_valid (candidate_map candidates) points settings
      (list_to_set pruned ∖ {[idx]}) = Returns false.
Proof.
  unfold prune_redundant_sensors. cbv zeta. intros Hr.
  apply bind_Returns in Hr as (selected' & Hpass & Hr). injection Hr as <-.
  destruct (prune_pass_spec _ _ _ _ _ _ Hpass) as [Hsub Hrefused].
  assert (Hset : (list_to_set (set_iter selected') : gset Z) = selected').
  { apply set_eq. intros x. now rewrite elem_of_list_to_set, set_iter_elem. }
  split; [rewrite set_iter_perm; apply NoDup_elements |]. split.
  - intros idx Hin. apply set_iter_elem, Hsub in Hin.
    now apply elem_of_list_to_set in Hin.
  - intros idx Hin. rewrite Hset. apply set_iter_elem in Hin.
    apply Hrefused; [| exact Hin].
    apply set_iter_elem, Hsub, Hin.
Qed.

(** X9.  When the selection violates the cover requirement of some sample
    point before any removal, as it does when a sample point is covered
    by no selected sensor, the pruner removes nothing. *)
Theorem prune_redundant_sensors_keeps_invalid (selected_indices : list Z)
    (candidates : list Candidate.t) (points : list SamplePoint.t)
    (settings : PlannerSettings) :
  still_valid (candidate_map candidates) points settings
    (list_to_set selected_indices) = Returns false ->
  prune_redundant_sensors selected_indices candidates points settings
  = Returns (set_iter (list_to_set selected_indices)).
Proof.
  intros Hinvalid. unfold prune_redundant_sensors. cbv zeta.
  rewrite prune_pass_fixed; [reflexivity |].
  intros idx _. eapply still_valid_antitone; [| exact Hinvalid]. set_solver.
Qed.

(** X10.  When the selection meets the cover requirement of every sample
    point, so does the pruned selection. *)
Theorem prune_redundant_sensors_keeps_valid (selected_indices : list Z)
    (candidates : list Candidate.t) (points : list SamplePoint.t)
    (settings : PlannerSettings) (pruned : list Z) :
  still_valid (candidate_map candidates) points settings
    (list_to_set selected_indices) = Returns true ->
  prune_redundant_sensors selected_indices candidates points settings
  = Returns pruned ->
  still_valid (candidate_map candidates) points settings (list_to_set pruned)
  = Returns true.
Proof.
  intros Hvalid. unfold prune_redundant_sensors. cbv zeta. intros Hr.
  apply bind_Returns in Hr as (selected' & Hpass & Hr). injection Hr as <-.
  assert (Hset : (list_to_set (set_iter selected') : gset Z) = selected').
  { apply set_eq. intros x. now rewrite elem_of_list_to_set, set_iter_elem. }
  rewrite Hset.
  apply (for_each_invariant
           (fun sel => still_valid (candidate_map candidates) points settings sel
                       = Returns true) _ _ _ _) with (3 := Hpass);
    [| exact Hvalid].
  intros sel idx sel' _ Hsel Hstep. rewrite prune_step_unfold in Hstep.
  apply bind_Returns in Hstep as (valid & Hv & Hstep). injection Hstep as <-.
  destruct valid; assumption.
Qed.

End PrunerProperties.

Section PrunerPropertiesExample.
Import Ref.

Definition three_sensors : list Candidate.t :=
  [Candidate.mk 0 0 0 0 [0; 1]%Z; Candidate.mk 1 1 0 0 [0]%Z;
   Candidate.mk 2 2 0 0 [0; 1]%Z].

Definition two_points : list SamplePoint.t :=
  [SamplePoint.mk 0 0 0 false; SamplePoint.mk 1 1 1 false].

(** With [k = 2] two of the three sensors are kept and neither can go. *)
Lemma prune_redundant_sensors_irredundant_witness :
  exists pruned,
    prune_redundant_sensors [0; 1; 2]%Z three_sensors two_points
      default_settings = Returns pruned /\
    NoDup pruned /\ length pruned = 2%nat.
Proof.
  eexists. split; [vm_compute; reflexivity |].
  split; [| reflexivity].
  apply (prune_redundant_sensors_irredundant (PS := pyset) [0; 1; 2]%Z
           three_sensors two_points default_settings).
  vm_compute. reflexivity.
Defined.

(** With a third sample point that no sensor covers nothing is pruned. *)
Lemma prune_redundant_sensors_keeps_invalid_witness :
  prune_redundant_sensors [0; 1; 2]%Z three_sensors
    (two_points ++ [SamplePoint.mk 2 9 9 false]) default_settings
  = Returns (set_iter (list_to_set [0; 1; 2]%Z)) /\
  length (set_iter (list_to_set [0; 1; 2]%Z)) = 3%nat.
Proof.
  split; [| reflexivity].
  apply (prune_redundant_sensors_keeps_invalid (PS := pyset)).
  vm_compute. reflexivity.
Defined.

Lemma prune_redundant_sensors_keeps_valid_witness :
  exists pruned,
    prune_redundant_sensors [0; 1; 2]%Z three_sensors two_points
      default_settings = Returns pruned /\
    still_valid (candidate_map three_sensors) two_points default_settings
      (list_to_set pruned) = Returns true.
Proof.
  eexists. split; [vm_compute; reflexivity |].
  apply (prune_redundant_sensors_keeps_valid (PS := pyset) [0; 1; 2]%Z
           three_sensors two_points default_settings);
    vm_compute; reflexivity.
Defined.

End PrunerPropertiesExample.

(** ** The coverage statistics *)

Section Stats.

Lemma size_fold_insert {A V} (f : A -> Z) (v : V) (l : list A) (m : gmap Z V) :
  (size (fold_left (fun m a => <[f a := v]> m) l m) <= size m + length l)%nat.
Proof.
  revert m. induction l as [| a l IH]; intros m; simpl; [lia |].
  etransitivity; [apply IH |]. rewrite map_size_insert.
  destruct (m !! f a); unfold id; lia.
Qed.

Lemma length_filter_impl {A} (P Q : A -> Prop) `{!forall x, Decision (P x)}
    `{!forall x, Decision (Q x)} (l : list A) :
  (forall x, P x -> Q x) ->
  (length (filter P l) <= length (filter Q l))%nat.
Proof.
  intros Himpl. induction l as [| a l IH]; [reflexivity |].
  rewrite !filter_cons.
  destruct (decide (P a)) as [Hp | Hp].
  - rewrite decide_True by auto. simpl. lia.
  - destruct (decide (Q a)); simpl; lia.
Qed.

(** The cover count has exactly the keys of the initial dictionary. *)
Lemma count_coverage_size (cmap : gmap Z Candidate.t)
    (points : list SamplePoint.t) (sel : list Z) (count : gmap Z Z) :
  count_coverage cmap points sel = Returns count ->
  (size count <= length points)%nat.
Proof.
  intros Hr. change (count_from cmap sel (zero_counts points) = Returns count) in Hr.
  destruct (count_from_spec _ _ _ _ Hr) as [_ Hval].
  assert (Hdom : dom count = dom (zero_counts points)).
  { apply set_eq. intros k. rewrite !elem_of_dom, Hval.
    destruct (zero_counts points !! k); simpl; split; intros [? ?];
      eauto; discriminate. }
  rewrite <- (size_dom count), Hdom, size_dom.
  etransitivity; [apply (size_fold_insert SamplePoint.idx 0%Z) |].
  rewrite map_size_empty. lia.
Qed.

Lemma ratio_bounds (a b : Z) :
  (0 <= a <= b)%Z ->
  0 <= (if (0 <? b)%Z then inject_Z a / inject_Z b else 0) /\
  (if (0 <? b)%Z then inject_Z a / inject_Z b else 0) <= 1.
Proof.
  intros Hab. destruct (0 <? b)%Z eqn:Hb; [| split; [lra | discriminate]].
  apply Z.ltb_lt in Hb.
  assert (Hb' : 0 < inject_Z b) by (change 0 with (inject_Z 0); rewrite <- Zlt_Qlt; exact Hb).
  assert (Ha' : inject_Z 0 <= inject_Z a) by (rewrite <- Zle_Qle; lia).
  change (inject_Z 0) with 0 in Ha'.
  assert (Hab' : inject_Z a <= inject_Z b) by (rewrite <- Zle_Qle; lia).
  split.
  - apply Qle_shift_div_l; lra.
  - apply Qle_shift_div_r; lra.
Qed.

Lemma ratio_mono (a a' b : Z) :
  (a <= a')%Z ->
  (if (0 <? b)%Z then inject_Z a / inject_Z b else 0)
  <= (if (0 <? b)%Z then inject_Z a' / inject_Z b else 0).
Proof.
  intros Haa. destruct (0 <? b)%Z eqn:Hb; [| lra].
  apply Z.ltb_lt in Hb.
  assert (Hb' : 0 < inject_Z b) by (change 0 with (inject_Z 0); rewrite <- Zlt_Qlt; exact Hb).
  assert (Haa' : inject_Z a <= inject_Z a') by (rewrite <- Zle_Qle; lia).
  unfold Qdiv. apply Qmult_le_compat_r; [exact Haa' |].
  apply Qlt_le_weak, Qinv_lt_0_compat, Hb'.
Qed.

(** X11.  Both coverage fractions lie between 0 and 1, the k-coverage
    fraction is at most the coverage fraction when [k_required >= 1], and
    both are 0 when there is no sample point. *)
Theorem compute_coverage_stats_bounds (selected_indices : list Z)
    (candidates : list Candidate.t) (points : list SamplePoint.t)
    (k_required : Z) (coverage_pct k_coverage_pct : Q) :
  compute_coverage_stats selected_indices candidates points k_required
  = Returns (coverage_pct, k_coverage_pct) ->
  (0 <= coverage_pct /\ coverage_pct <= 1) /\
  (0 <= k_coverage_pct /\ k_coverage_pct <= 1) /\
  ((1 <= k_required)%Z -> k_coverage_pct <= coverage_pct) /\
  (points = [] -> coverage_pct = 0 /\ k_coverage_pct = 0).
Proof.
  unfold compute_coverage_stats. cbv zeta. intros Hr.
  apply bind_Returns in Hr as (count & Hcount & Hr).
  injection Hr as <- <-.
  pose proof (count_coverage_size _ _ _ _ Hcount) as Hsize.
  rewrite <- length_map_to_list in Hsize.
  rewrite <- (length_fmap snd (map_to_list count)) in Hsize.
  set (values := (map_to_list count).*2) in *.
  pose proof (length_filter (fun c => (1 <= c)%Z) values) as H1.
  pose proof (length_filter (fun c => (k_required <= c)%Z) values) as Hk.
  unfold Py.len. repeat split.
  - apply ratio_bounds. lia.
  - apply ratio_bounds. lia.
  - apply ratio_bounds. lia.
  - apply ratio_bounds. lia.
  - intros Hk1. apply ratio_mono. apply Nat2Z.inj_le.
    apply length_filter_impl. intros c Hc. lia.
  - subst points. reflexivity.
  - subst points. reflexivity.
Qed.

End Stats.

Section StatsExample.

(** Two sensors over three sample points, one of them out of reach. *)
Lemma compute_coverage_stats_bounds_witness :
  exists coverage_pct k_coverage_pct,
    compute_coverage_stats [0; 1]%Z
      [Candidate.mk 0 0 0 0 [0; 1]%Z; Candidate.mk 1 1 0 0 [1]%Z]
      [SamplePoint.mk 0 0 0 false; SamplePoint.mk 1 1 1 false;
       SamplePoint.mk 2 9 9 false] 2
    = Returns (coverage_pct, k_coverage_pct) /\
    coverage_pct == 2 # 3 /\ k_coverage_pct == 1 # 3 /\
    k_coverage_pct <= coverage_pct.
Proof.
  eexists. eexists. split; [vm_compute; reflexivity |].
  split; [reflexivity |]. split; [reflexivity |].
  destruct (compute_coverage_stats_bounds [0; 1]%Z
    [Candidate.mk 0 0 0 0 [0; 1]%Z; Candidate.mk 1 1 0 0 [1]%Z]
    [SamplePoint.mk 0 0 0 false; SamplePoint.mk 1 1 1 false;
     SamplePoint.mk 2 9 9 false] 2 _ _ ltac:(vm_compute; reflexivity))
    as (_ & _ & Hle & _).
  apply Hle. lia.
Defined.

End StatsExample.

(** ** The dictionary of candidates and the output positions *)

Section CandidateMap.

(** The dictionary comprehension as a fold over an initial dictionary. *)
Lemma candidate_map_fold (cs : list Candidate.t) (m : gmap Z Candidate.t) :
  let m' := fold_left (fun m c => <[Candidate.idx c := c]> m) cs m in
  (forall i c, m' !! i = Some c ->
     (c ∈ cs /\ Candidate.idx c = i) \/ m !! i = Some c) /\
  (forall i, is_Some (m' !! i) <->
     i ∈ map Candidate.idx cs \/ is_Some (m !! i)) /\
  (NoDup (map Candidate.idx cs) ->
   forall c, c ∈ cs -> m' !! Candidate.idx c = Some c).
Proof.
  revert m. induction cs as [| c0 cs IH]; intros m; simpl.
  - split; [auto |]. split.
    + intros i. split; [auto |]. intros [Hin | Hs]; [| exact Hs].
      now apply not_elem_of_nil in Hin.
    + intros _ c Hc. now apply not_elem_of_nil in Hc.
  - destruct (IH (<[Candidate.idx c0 := c0]> m)) as (Hsome & Hkeys & Hnodup).
    split; [| split].
    + intros i c Hi. destruct (Hsome i c Hi) as [[Hin Hidx] | Hm].
      * left. split; [now right | exact Hidx].
      * destruct (decide (Candidate.idx c0 = i)) as [<- | Hne].
        -- rewrite lookup_insert_eq in Hm. injection Hm as <-.
           left. split; [left | reflexivity].
        -- rewrite lookup_insert_ne in Hm by assumption. now right.
    + intros i. rewrite Hkeys, lookup_insert_is_Some, elem_of_cons.
      split.
      * intros [Hin | [<- | [_ Hs]]]; auto.
      * intros [[-> | Hin] | Hs]; auto.
        destruct (decide (Candidate.idx c0 = i)); auto.
    + intros Hnd c Hc. apply NoDup_cons in Hnd as [Hnot Hnd].
      apply elem_of_cons in Hc as [-> | Hc]; [| now apply Hnodup].
      assert (Hlook : fold_left (fun m c => <[Candidate.idx c := c]> m) cs
                        (<[Candidate.idx c0 := c0]> m) !! Candidate.idx c0
                      = Some c0 \/
                      Candidate.idx c0 ∈ map Candidate.idx cs).
      { destruct (Hkeys (Candidate.idx c0)) as [_ Hk].
        destruct Hk as [c' Hc'].
        { right. rewrite lookup_insert_eq. eauto. }
        destruct (Hsome _ _ Hc') as [[Hin Hidx] | Hm].
        - right. apply list_elem_of_fmap. eauto.
        - rewrite lookup_insert_eq in Hm. injection Hm as <-. now left. }
      destruct Hlook as [Hlook | Hin]; [exact Hlook | contradiction].
Qed.

(** A candidate found in the dictionary is a candidate of the list, and
    every index of the list is a key. *)
Lemma candidate_map_elem (candidates : list Candidate.t) (i : Z)
    (c : Candidate.t) :
  candidate_map candidates !! i = Some c -> c ∈ candidates.
Proof.
  intros Hi. destruct (candidate_map_fold candidates ∅) as (Hsome & _).
  destruct (Hsome i c Hi) as [[Hin _] | Hm]; [exact Hin |].
  now rewrite lookup_empty in Hm.
Qed.

Lemma candidate_map_is_Some (candidates : list Candidate.t) (i : Z) :
  i ∈ map Candidate.idx candidates ->
  is_Some (candidate_map candidates !! i).
Proof.
  intros Hi. destruct (candidate_map_fold candidates ∅) as (_ & Hkeys & _).
  apply Hkeys. now left.
Qed.

(** X12.  [candidate_map] holds a candidate under its own index, and has
    a key for exactly the indices of the candidates; when the indices are
    pairwise different, as the generator makes them, every candidate is
    found under its index. *)
Theorem candidate_map_lookup (candidates : list Candidate.t) :
  (forall i c, candidate_map candidates !! i = Some c ->
     c ∈ candidates /\ Candidate.idx c = i) /\
  (forall i, is_Some (candidate_map candidates !! i) <->
     i ∈ map Candidate.idx candidates) /\
  (NoDup (map Candidate.idx candidates) ->
   forall c, c ∈ candidates ->
     candidate_map candidates !! Candidate.idx c = Some c).
Proof.
  unfold candidate_map.
  destruct (candidate_map_fold candidates ∅) as (Hsome & Hkeys & Hnodup).
  split; [| split].
  - intros i c Hi. destruct (Hsome i c Hi) as [Hin | Hm]; [exact Hin |].
    now rewrite lookup_empty in Hm.
  - intros i. rewrite Hkeys. split; [| auto].
    intros [Hin | [c Hc]]; [exact Hin |]. now rewrite lookup_empty in Hc.
  - exact Hnodup.
Qed.

End CandidateMap.

Section CandidateMapExample.

Lemma candidate_map_lookup_witness :
  candidate_map [Candidate.mk 0 1 2 0 []; Candidate.mk 1 3 4 30 []]
    !! Candidate.idx (Candidate.mk 1 3 4 30 [])
  = Some (Candidate.mk 1 3 4 30 []).
Proof.
  apply (proj2 (proj2 (candidate_map_lookup
    [Candidate.mk 0 1 2 0 []; Candidate.mk 1 3 4 30 []]))).
  - apply (NoDup_fmap_2_strong Candidate.idx); [| repeat constructor].
    + intros c1 c2 Hc1 Hc2 Heq.
      repeat (apply elem_of_cons in Hc1 as [-> | Hc1]);
        repeat (apply elem_of_cons in Hc2 as [-> | Hc2]);
        try reflexivity; try discriminate;
        try (now apply not_elem_of_nil in Hc1);
        try (now apply not_elem_of_nil in Hc2).
    + intros Hin. apply list_elem_of_singleton in Hin. discriminate.
    + apply not_elem_of_nil.
  - right. left.
Defined.

End CandidateMapExample.

Section OutputPositions.

(** The rounded position of an output entry. *)
Definition output_key (p : Position) : Q * Q :=
  (Py.round4 (pos_x p), Py.round4 (pos_z p)).

(** The output entry of a selected index. *)
Definition entry_of (cmap : gmap Z Candidate.t) (refined_yaw : gmap Z Q)
    (selected_indices : list Z) (p : Position) : Prop :=
  exists idx c,
    idx ∈ selected_indices /\ cmap !! idx = Some c /\
    pos_x p = Candidate.x c /\ pos_z p = Candidate.z c /\
    pos_yaw p = default (Candidate.yaw_deg c) (refined_yaw !! idx).

(** The keys of a list are pairwise different. *)
Definition distinct_keys (keys : list (Q * Q)) : Prop :=
  forall (i j : nat) k1 k2,
    keys !! i = Some k1 -> keys !! j = Some k2 ->
    key_eqb k1 k2 = true -> i = j.

Lemma distinct_keys_snoc (keys : list (Q * Q)) (k : Q * Q) :
  distinct_keys keys -> existsb (key_eqb k) keys = false ->
  distinct_keys (keys ++ [k]).
Proof.
  intros Hd Hnew i j k1 k2 Hi Hj Heq.
  assert (Hfresh : forall k', k' ∈ keys -> key_eqb k k' = false).
  { intros k' Hin. apply not_true_iff_false. intros Hk.
    apply not_true_iff_false in Hnew. apply Hnew, existsb_exists.
    exists k'. split; [now apply list_elem_of_In | exact Hk]. }
  apply lookup_app_Some in Hi as [Hi | [Hil Hi]];
    apply lookup_app_Some in Hj as [Hj | [Hjl Hj]].
  - eauto.
  - apply list_lookup_singleton_Some in Hj as [_ <-].
    rewrite key_eqb_sym, (Hfresh k1) in Heq; [discriminate |].
    apply list_elem_of_lookup. eauto.
  - apply list_lookup_singleton_Some in Hi as [_ <-].
    rewrite (Hfresh k2) in Heq; [discriminate |].
    apply list_elem_of_lookup. eauto.
  - apply list_lookup_singleton_Some in Hi as [Hi _].
    apply list_lookup_singleton_Some in Hj as [Hj _]. lia.
Qed.

(** X13.  The output holds one entry per rounded position of the selected
    candidates: no two entries share a position rounded to 4 decimals,
    every entry is the position of a selected candidate with its refined
    yaw, or its own yaw when it has none, and the rounded position of
    every selected candidate is in the output; so there are at most as
    many entries as selected indices. *)
Theorem output_positions_spec (selected_indices : list Z)
    (cmap : gmap Z Candidate.t) (refined_yaw : gmap Z Q)
    (positions : list Position) :
  output_positions selected_indices cmap refined_yaw = Returns positions ->
  distinct_keys (map output_key positions) /\
  Forall (entry_of cmap refined_yaw selected_indices) positions /\
  (forall idx, idx ∈ selected_indices ->
     exists c p, cmap !! idx = Some c /\ p ∈ positions /\
                 key_eqb (position_key c) (output_key p) = true) /\
  (length positions <= length selected_indices)%nat.
Proof.
  unfold output_positions. intros Hr.
  apply bind_Returns in Hr as ([seen positions'] & Hloop & Hr).
  injection Hr as ->.
  assert (Hgen : forall (sel done : list Z) seen0 pos0 seen1 pos1,
    for_each
      (fun '(seen_positions, selected_positions) idx =>
         c ← getitem cmap idx;
         let pos_key := position_key c in
         if existsb (key_eqb pos_key) seen_positions
         then Returns (seen_positions, selected_positions)
         else
           let yaw := default (Candidate.yaw_deg c) (refined_yaw !! idx) in
           Returns (seen_positions ++ [pos_key],
                    selected_positions
                      ++ [{| pos_x := Candidate.x c; pos_z := Candidate.z c;
                             pos_yaw := yaw |}]))
      sel (seen0, pos0) = Returns (seen1, pos1) ->
    seen0 = map output_key pos0 -> distinct_keys seen0 ->
    Forall (entry_of cmap refined_yaw done) pos0 ->
    (forall idx, idx ∈ done ->
       exists c p, cmap !! idx = Some c /\ p ∈ pos0 /\
                   key_eqb (position_key c) (output_key p) = true) ->
    (length pos0 <= length done)%nat ->
    seen1 = map output_key pos1 /\ distinct_keys seen1 /\
    Forall (entry_of cmap refined_yaw (done ++ sel)) pos1 /\
    (forall idx, idx ∈ done ++ sel ->
       exists c p, cmap !! idx = Some c /\ p ∈ pos1 /\
                   key_eqb (position_key c) (output_key p) = true) /\
    (length pos1 <= length (done ++ sel))%nat).
  { induction sel as [| idx sel IH];
      intros done seen0 pos0 seen1 pos1 Hfor Hseen Hd Hentries Hall Hlen;
      cbn [for_each] in Hfor.
    - injection Hfor as <- <-. rewrite app_nil_r. auto.
    - apply bind_Returns in Hfor as ([seen2 pos2] & Hstep & Hfor).
      apply bind_Returns in Hstep as (c & Hc & Hstep).
      unfold getitem in Hc. destruct (cmap !! idx) as [c0 |] eqn:Hidx; [| discriminate].
      injection Hc as ->. cbv zeta in Hstep.
      replace (done ++ idx :: sel) with ((done ++ [idx]) ++ sel)
        by (now rewrite <- app_assoc).
      assert (Hweaken : forall ps, Forall (entry_of cmap refined_yaw done) ps ->
                Forall (entry_of cmap refined_yaw (done ++ [idx])) ps).
      { intros ps Hps. eapply Forall_impl; [exact Hps |].
        intros p (i & c' & Hi & Hrest).
        exists i, c'. split; [apply elem_of_app; now left | exact Hrest]. }
      destruct (existsb (key_eqb (position_key c)) seen0) eqn:Hex;
        injection Hstep as <- <-.
      + apply (IH (done ++ [idx]) _ _ _ _ Hfor Hseen Hd (Hweaken _ Hentries)).
        * intros i Hi. apply elem_of_app in Hi as [Hi | Hi]; [auto |].
          apply list_elem_of_singleton in Hi. subst i.
          apply existsb_exists in Hex as (k & Hk & Heq).
          rewrite Hseen in Hk. apply list_elem_of_In, list_elem_of_fmap in Hk
            as (p & -> & Hp).
          exists c, p. auto.
        * rewrite length_app. simpl. lia.
      + apply (IH (done ++ [idx]) _ _ _ _ Hfor).
        * rewrite map_app, Hseen. reflexivity.
        * now apply distinct_keys_snoc.
        * apply Forall_app. split; [now apply Hweaken |].
          repeat constructor. exists idx, c.
          split; [apply elem_of_app; right; left |]. auto.
        * intros i Hi. apply elem_of_app in Hi as [Hi | Hi].
          -- destruct (Hall i Hi) as (c' & p & Hc' & Hp & Hk).
             exists c', p. split; [exact Hc' |].
             split; [apply elem_of_app; now left | exact Hk].
          -- apply list_elem_of_singleton in Hi. subst i.
             eexists c, _. split; [exact Hidx |].
             split; [apply elem_of_app; right; left |].
             apply key_eqb_refl.
        * rewrite !length_app. simpl. lia. }
  destruct (Hgen selected_indices [] [] [] seen positions Hloop eq_refl)
    as (Hseen & Hd & Hentries & Hall & Hlen).
  - intros i j k1 k2 Hi. now rewrite lookup_nil in Hi.
  - constructor.
  - intros idx Hin. now apply not_elem_of_nil in Hin.
  - reflexivity.
  - simpl in *. rewrite <- Hseen. auto.
Qed.

End OutputPositions.

Section OutputPositionsExample.

(** Two selected variants at one position and one at another: two
    entries. *)
Lemma output_positions_spec_witness :
  exists positions,
    output_positions [0; 1; 2]%Z
      (candidate_map [Candidate.mk 0 1 1 0 []; Candidate.mk 1 1 1 30 [];
                      Candidate.mk 2 3 1 0 []])
      {[0%Z := 30; 1%Z := 30]}
    = Returns positions /\
    positions = [{| pos_x := 1; pos_z := 1; pos_yaw := 30 |};
                 {| pos_x := 3; pos_z := 1; pos_yaw := 0 |}] /\
    (length positions <= 3)%nat.
Proof.
  eexists. split; [vm_compute; reflexivity |]. split; [reflexivity |].
  apply (output_positions_spec [0; 1; 2]%Z
    (candidate_map [Candidate.mk 0 1 1 0 []; Candidate.mk 1 1 1 30 [];
                    Candidate.mk 2 3 1 0 []])
    {[0%Z := 30; 1%Z := 30]}).
  vm_compute. reflexivity.
Defined.

End OutputPositionsExample.
(** ** The solve as a whole *)

Section Completion.
Context {ML : Math} {RL : Random} {SL : Shapely} {PS : PySet} {CP : CpSat}.

Lemma zero_counts_lookup (points : list SamplePoint.t) (k : Z) :
  zero_counts points !! k
  = if decide (k ∈ map SamplePoint.idx points) then Some 0%Z else None.
Proof.
  unfold zero_counts.
  rewrite (fold_insert_const_lookup SamplePoint.idx 0%Z).
  now rewrite lookup_empty.
Qed.

(** What the preparation hands to the solver: at least one sample point,
    candidates with the indices 0, 1, 2, ..., and coverage lists that
    hold indices of sample points only. *)
Lemma prepare_spec (params : Params) (points : list SamplePoint.t)
    (candidates : list Candidate.t) (r_eff : Q) :
  prepare params = Returns (inr (points, candidates, r_eff)) ->
  points <> [] /\
  map Candidate.idx candidates = range (Py.len candidates) /\
  covers_samples candidates points.
Proof.
  unfold prepare. cbv zeta. intros Hr.
  destruct (length (roi_polygon params) <? 3)%nat; [discriminate |].
  apply bind_Returns in Hr as (points0 & _ & Hr).
  destruct (length points0 =? 0)%nat eqn:Hlen0; [discriminate |].
  apply bind_Returns in Hr as (points1 & Hmark & Hr).
  assert (Hlen1 : length points1 = length points0).
  { destruct (critical_polygon params) as [[| v cp] |];
      try (injection Hmark as <-; reflexivity).
    unfold mark_critical_points in Hmark.
    destruct (3 <=? length (v :: cp))%nat;
      [| injection Hmark as <-; reflexivity].
    apply bind_Returns in Hmark as (crit_poly & _ & Hmark).
    injection Hmark as <-. now rewrite length_map. }
  apply bind_Returns in Hr as (candidates0 & Hgen & Hr).
  destruct (length candidates0 =? 0)%nat; [discriminate |].
  apply bind_Returns in Hr as ([obstacle_grid grid_bounds] & _ & Hr).
  apply bind_Returns in Hr as (candidates1 & Hcov & Hr).
  injection Hr as -> -> _.
  destruct (generate_candidates_structure _ _ _ _ _ _ _ Hgen)
    as (_ & _ & _ & _ & _ & Hidx).
  unfold compute_coverage_sets in Hcov.
  apply coverage_outer_loop in Hcov as (new & -> & Hnew). simpl.
  split; [| split].
  - apply Nat.eqb_neq in Hlen0. intros ->. simpl in Hlen1. lia.
  - assert (Hsame : map Candidate.idx new = map Candidate.idx candidates0).
    { clear -Hnew. induction Hnew as [| c c' cs cs' Hc _ IH]; [reflexivity |].
      simpl. destruct Hc as (-> & _). now rewrite IH. }
    rewrite Hsame, Hidx. unfold Py.len.
    now rewrite <- (length_map Candidate.idx new), Hsame, length_map.
  - unfold covers_samples. clear -Hnew.
    induction Hnew as [| c c' cs cs' Hc _ IH]; constructor; [| exact IH].
    destruct Hc as (_ & _ & _ & _ & ->).
    apply Forall_forall. intros k Hk.
    apply list_elem_of_fmap in Hk as (p & -> & Hp).
    apply list_elem_of_filter in Hp as [_ Hp].
    apply list_elem_of_fmap. eauto.
Qed.

(** With coverage lists of sample indices the solver is called and the
    selection is made of indices of candidates. *)
Lemma solve_k_coverage_returns (candidates : list Candidate.t)
    (points : list SamplePoint.t) (s : PlannerSettings) (w : cp_world) :
  covers_samples candidates points ->
  exists selected status_str ok w',
    solve_k_coverage candidates points s w
    = Returns (selected, status_str, ok, w') /\
    forall idx, idx ∈ selected -> idx ∈ map Candidate.idx candidates.
Proof.
  intros Hall. unfold solve_k_coverage.
  destruct (proj1 (point_covers_outcome candidates points) Hall)
    as (pc & Hpc & Hval).
  rewrite Hpc, bind_ret.
  destruct (coverage_constraints_returns pc points s) as [[ys cs] Hcs].
  { intros p Hp. rewrite Hval, decide_True; [eexists; reflexivity |].
    apply list_elem_of_fmap. eauto. }
  rewrite Hcs, bind_ret. cbv beta iota zeta.
  destruct (cp_solve _ _ _ w) as [[status value] w'].
  assert (Hsub : forall idx,
    idx ∈ map Candidate.idx
            (filter (fun c => value (X (Candidate.idx c)) = 1%Z) candidates) ->
    idx ∈ map Candidate.idx candidates).
  { intros idx Hin. apply list_elem_of_fmap in Hin as (c & -> & Hc).
    apply list_elem_of_filter in Hc as [_ Hc]. apply list_elem_of_fmap. eauto. }
  destruct status; do 4 eexists; (split; [reflexivity |]);
    try exact Hsub; intros idx Hin; now apply not_elem_of_nil in Hin.
Qed.

(** The refiner finds every selected index that is a key of the
    dictionary, and no group of its first loop is empty. *)
Lemma refine_yaw_angles_returns (selected_indices : list Z)
    (candidates : list Candidate.t) (points : list SamplePoint.t)
    (model : LidarModel) (r_eff : Q) :
  (forall idx, idx ∈ selected_indices ->
     is_Some (candidate_map candidates !! idx)) ->
  exists refined_yaw,
    refine_yaw_angles selected_indices candidates points model r_eff
    = Returns refined_yaw.
Proof.
  intros Hsel. unfold refine_yaw_angles.
  destruct (Py.ge (hfov_deg model) 360 || dome_mode model); [eauto |].
  cbv zeta.
  match goal with
  | |- exists _, for_each ?body ?l ?s0 ≫= _ = _ =>
      destruct (for_each_returns body l s0) as [positions Hpos]
  end.
  { intros positions idx Hin. destruct (Hsel idx Hin) as [c Hc].
    rewrite (getitem_Some _ _ _ Hc), bind_ret. eauto. }
  rewrite Hpos, bind_ret.
  destruct (grouping_loop _ _ [] [] _ Hpos) as (cs & _ & _ & Hgrouped & _).
  - constructor.
  - constructor.
  - intros c Hc. now apply not_elem_of_nil in Hc.
  - rewrite assign_loop; [eauto |].
    eapply Forall_impl; [exact Hgrouped |]. intros e [_ He]. exact He.
Qed.

(** The output loop finds every selected index that is a key of the
    dictionary, and makes at most one entry per index. *)
Lemma output_positions_returns (selected_indices : list Z)
    (cmap : gmap Z Candidate.t) (refined_yaw : gmap Z Q) :
  (forall idx, idx ∈ selected_indices -> is_Some (cmap !! idx)) ->
  exists positions,
    output_positions selected_indices cmap refined_yaw = Returns positions /\
    (length positions <= length selected_indices)%nat.
Proof.
  intros Hsel. unfold output_positions.
  assert (Hgen : forall sel seen pos,
    (forall idx, idx ∈ sel -> is_Some (cmap !! idx)) ->
    exists seen' pos',
      for_each
        (fun '(seen_positions, selected_positions) idx =>
           c ← getitem cmap idx;
           let pos_key := position_key c in
           if existsb (key_eqb pos_key) seen_positions
           then Returns (seen_positions, selected_positions)
           else
             let yaw := default (Candidate.yaw_deg c) (refined_yaw !! idx) in
             Returns (seen_positions ++ [pos_key],
                      selected_positions
                        ++ [{| pos_x := Candidate.x c; pos_z := Candidate.z c;
                               pos_yaw := yaw |}]))
        sel (seen, pos) = Returns (seen', pos') /\
      (length pos' <= length pos + length sel)%nat).
  { induction sel as [| idx sel IH]; intros seen pos Hin; cbn [for_each].
    - exists seen, pos. split; [reflexivity | simpl; lia].
    - destruct (Hin idx) as [c Hc]; [left |].
      rewrite (getitem_Some _ _ _ Hc), bind_ret. cbv zeta.
      destruct (existsb (key_eqb (position_key c)) seen); rewrite bind_ret.
      + destruct (IH seen pos) as (seen' & pos' & Hr & Hlen).
        { intros j Hj. apply Hin. now right. }
        exists seen', pos'. split; [exact Hr | simpl; lia].
      + match goal with
        | |- context [for_each _ sel (?s1, ?p1)] =>
            destruct (IH s1 p1) as (seen' & pos' & Hr & Hlen)
        end.
        { intros j Hj. apply Hin. now right. }
        exists seen', pos'. split; [exact Hr |].
        rewrite length_app in Hlen. simpl in *. lia. }
  destruct (Hgen selected_indices [] [] Hsel) as (seen & pos & Hr & Hlen).
  exists pos. split; [| exact Hlen].
  etransitivity; [apply bind_congr; [exact Hr | reflexivity] |].
  reflexivity.
Qed.

(** The statistics are computed without a raise when every selected
    index is a key and every covered index a sample index. *)
Lemma compute_coverage_stats_returns (selected_indices : list Z)
    (candidates : list Candidate.t) (points : list SamplePoint.t)
    (k_required : Z) :
  covers_samples candidates points ->
  (forall idx, idx ∈ selected_indices ->
     is_Some (candidate_map candidates !! idx)) ->
  exists stats,
    compute_coverage_stats selected_indices candidates points k_required
    = Returns stats.
Proof.
  intros Hall Hsel. unfold compute_coverage_stats. cbv zeta.
  destruct (count_from_returns (candidate_map candidates) selected_indices
              (zero_counts points)) as [count Hcount].
  { intros idx Hin. split; [auto |].
    intros p Hp. unfold covered_of in Hp.
    destruct (candidate_map candidates !! idx) as [c |] eqn:Hc;
      [| now apply not_elem_of_nil in Hp].
    apply candidate_map_elem in Hc.
    unfold covers_samples in Hall.
    rewrite Forall_forall in Hall. specialize (Hall c Hc).
    rewrite Forall_forall in Hall. specialize (Hall p Hp).
    rewrite zero_counts_lookup, decide_True by exact Hall. eauto. }
  change (count_coverage (candidate_map candidates) points selected_indices)
    with (count_from (candidate_map candidates) selected_indices
            (zero_counts points)).
  rewrite Hcount, bind_ret. eauto.
Qed.

Lemma slice_to_elem {A} (l : list A) (n : Z) (x : A) :
  x ∈ Py.slice_to l n -> x ∈ l.
Proof.
  unfold Py.slice_to. destruct (0 <=? n)%Z; apply subseteq_take.
Qed.

Lemma slice_to_len {A} (l : list A) (n : Z) :
  (0 <= n)%Z -> (Py.len (Py.slice_to l n) <= n)%Z.
Proof.
  intros Hn. unfold Py.slice_to, Py.len.
  apply Z.leb_le in Hn as Hb. rewrite Hb, length_take. lia.
Qed.

(** The output loop makes at most one entry per index. *)
Lemma output_positions_length (selected_indices : list Z)
    (cmap : gmap Z Candidate.t) (refined_yaw : gmap Z Q)
    (positions : list Position) :
  output_positions selected_indices cmap refined_yaw = Returns positions ->
  (length positions <= length selected_indices)%nat.
Proof.
  unfold output_positions. intros Hr.
  apply bind_Returns in Hr as ([seen positions'] & Hloop & Hr).
  injection Hr as ->.
  enough (Hgen : forall sel seen0 pos0 seen1 pos1,
    for_each
      (fun '(seen_positions, selected_positions) idx =>
         c ← getitem cmap idx;
         let pos_key := position_key c in
         if existsb (key_eqb pos_key) seen_positions
         then Returns (seen_positions, selected_positions)
         else
           let yaw := default (Candidate.yaw_deg c) (refined_yaw !! idx) in
           Returns (seen_positions ++ [pos_key],
                    selected_positions
                      ++ [{| pos_x := Candidate.x c; pos_z := Candidate.z c;
                             pos_yaw := yaw |}]))
      sel (seen0, pos0) = Returns (seen1, pos1) ->
    (length pos1 <= length pos0 + length sel)%nat).
  { apply (Hgen _ _ _ _ _ Hloop). }
  induction sel as [| idx sel IH]; intros seen0 pos0 seen1 pos1 Hfor;
    cbn [for_each] in Hfor.
  - injection Hfor as _ <-. simpl. lia.
  - apply bind_Returns in Hfor as ([seen2 pos2] & Hstep & Hfor).
    apply bind_Returns in Hstep as (c & _ & Hstep). cbv zeta in Hstep.
    apply IH in Hfor.
    destruct (existsb _ seen0); injection Hstep as <- <-;
      rewrite ?length_app in Hfor; simpl in *; lia.
Qed.

(** After a successful solve nothing raises: every index the later steps
    look up is a key of the dictionary they look it up in. *)
Lemma finish_returns (settings : PlannerSettings) (model : LidarModel)
    (points : list SamplePoint.t) (candidates : list Candidate.t) (r_eff : Q)
    (selected_indices : list Z) (solver_status : string)
    (warnings : list string) :
  covers_samples candidates points ->
  (forall idx, idx ∈ selected_indices ->
     idx ∈ map Candidate.idx candidates) ->
  exists out,
    finish settings model points candidates r_eff selected_indices
      solver_status warnings = Returns out.
Proof.
  intros Hall Hsel. unfold finish.
  assert (Hcover : forall c p, c ∈ candidates ->
            p ∈ Candidate.covered_points c ->
            p ∈ map SamplePoint.idx points).
  { intros c p Hc Hp. unfold covers_samples in Hall.
    rewrite Forall_forall in Hall. specialize (Hall c Hc).
    rewrite Forall_forall in Hall. exact (Hall p Hp). }
  destruct (prune_redundant_sensors_returns selected_indices candidates
              points settings) as [pruned Hpruned].
  { intros idx Hin.
    destruct (candidate_map_is_Some candidates idx (Hsel idx Hin)) as [c Hc].
    exists c. split; [exact Hc |]. intros p Hp.
    rewrite zero_counts_lookup, decide_True; [eauto |].
    eapply Hcover; [eapply candidate_map_elem |]; eassumption. }
  { intros p Hp. rewrite zero_counts_lookup, decide_True; [eauto |].
    apply list_elem_of_fmap. eauto. }
  rewrite Hpruned, bind_ret.
  assert (Hsub : forall idx, idx ∈ pruned ->
            is_Some (candidate_map candidates !! idx)).
  { intros idx Hin. apply candidate_map_is_Some, Hsel.
    unfold prune_redundant_sensors in Hpruned. cbv zeta in Hpruned.
    apply bind_Returns in Hpruned as (selected' & Hpass & Hpruned).
    injection Hpruned as <-.
    destruct (prune_pass_spec _ _ _ _ _ _ Hpass) as [Hsubset _].
    apply set_iter_elem, Hsubset in Hin.
    now apply elem_of_list_to_set in Hin. }
  set (cut := if (max_sensors settings <? Py.len pruned)%Z
              then _ else _).
  assert (Hcut : forall idx, idx ∈ snd cut ->
            is_Some (candidate_map candidates !! idx)).
  { intros idx Hin. apply Hsub. unfold cut in Hin.
    destruct (max_sensors settings <? Py.len pruned)%Z; simpl in Hin;
      [now apply slice_to_elem in Hin | exact Hin]. }
  destruct cut as [warnings' selected'] eqn:Hc. simpl in Hcut.
  destruct (refine_yaw_angles_returns selected' candidates points model r_eff
              Hcut) as [refined_yaw Hyaw].
  rewrite Hyaw, bind_ret. cbv zeta.
  destruct (output_positions_returns selected' (candidate_map candidates)
              refined_yaw Hcut) as (positions & Hpos & _).
  rewrite Hpos, bind_ret.
  destruct (compute_coverage_stats_returns selected' candidates points
              (k_required settings) Hall Hcut) as [[cov kcov] Hstats].
  rewrite Hstats, bind_ret. eauto.
Qed.

(** The result of the steps after a successful solve. *)
Lemma finish_spec (settings : PlannerSettings) (model : LidarModel)
    (points : list SamplePoint.t) (candidates : list Candidate.t) (r_eff : Q)
    (selected_indices : list Z) (solver_status : string)
    (warnings : list string) (out : SolverOutput) :
  finish settings model points candidates r_eff selected_indices
    solver_status warnings = Returns out ->
  success out = true /\ error out = None /\ traceback out = None /\
  num_sensors out = Py.len (selected_positions out) /\
  out_overlap_mode out = Some (overlap_mode settings) /\
  out_k_required out = Some (k_required settings) /\
  ((0 <= max_sensors settings)%Z ->
   (num_sensors out <= max_sensors settings)%Z).
Proof.
  unfold finish. intros Hr.
  apply bind_Returns in Hr as (pruned & _ & Hr).
  set (cut := if (max_sensors settings <? Py.len pruned)%Z
              then _ else _) in Hr.
  assert (Hcut : (0 <= max_sensors settings)%Z ->
            (Py.len (snd cut) <= max_sensors settings)%Z).
  { intros Hmax. unfold cut.
    destruct (max_sensors settings <? Py.len pruned)%Z eqn:Hlt; simpl.
    - now apply slice_to_len.
    - now apply Z.ltb_ge in Hlt. }
  destruct cut as [warnings' selected']. simpl in Hcut.
  apply bind_Returns in Hr as (refined_yaw & _ & Hr). cbv zeta in Hr.
  apply bind_Returns in Hr as (positions & Hpos & Hr).
  apply bind_Returns in Hr as ([cov kcov] & _ & Hr).
  injection Hr as <-. simpl. repeat split.
  intros Hmax. apply output_positions_length in Hpos.
  specialize (Hcut Hmax). unfold Py.len in *. lia.
Qed.

(** X14.  Once the preparation has produced sample points and candidates,
    the solve completes without an exception: no dictionary lookup of the
    solver, the pruner, the refiner, the output loop or the statistics
    fails, so the result carries no traceback, and it is either a success
    or the failure reported by the solver. *)
Theorem solve_lidar_placement_completes (params : Params) (w : cp_world)
    (points : list SamplePoint.t) (candidates : list Candidate.t)
    (r_eff : Q) :
  prepare params = Returns (inr (points, candidates, r_eff)) ->
  exists out w',
    solve_lidar_placement params w = Returns (out, w') /\
    traceback out = None /\
    (success out = true \/
     exists status,
       success out = false /\
       error out = Some ("Solver failed: " ++ status)%string).
Proof.
  intros Hprep. destruct (prepare_spec _ _ _ _ Hprep) as (_ & _ & Hall).
  unfold solve_lidar_placement, solve_body. rewrite Hprep, bind_ret.
  cbv beta iota.
  assert (Hretry : exists selected status ok warnings w',
    solve_with_retry candidates points (settings params) w
    = Returns (selected, status, ok, warnings, w') /\
    forall idx, idx ∈ selected -> idx ∈ map Candidate.idx candidates).
  { unfold solve_with_retry. cbv zeta.
    destruct (solve_k_coverage_returns candidates points (settings params) w
                Hall) as (sel1 & st1 & ok1 & w1 & Hs1 & Hsub1).
    rewrite Hs1, bind_ret. cbv beta iota. destruct ok1; simpl negb; cbv iota.
    - do 5 eexists. split; [reflexivity | exact Hsub1].
    - destruct (solve_k_coverage_returns candidates points
                  (relaxed (settings params)) w1 Hall)
        as (sel2 & st2 & ok2 & w2 & Hs2 & Hsub2).
      rewrite Hs2, bind_ret. cbv beta iota.
      do 5 eexists. split; [reflexivity | exact Hsub2]. }
  destruct Hretry as (selected & status & ok & warnings & w' & Hretry & Hsub).
  rewrite Hretry, bind_ret. cbv beta iota.
  destruct ok; simpl negb; cbv iota.
  - destruct (finish_returns (settings params) (model params) points
                candidates r_eff selected status warnings Hall Hsub)
      as [out Hout].
    rewrite Hout, bind_ret.
    destruct (finish_spec _ _ _ _ _ _ _ _ _ Hout) as (Hok & _ & Htb & _).
    exists out, w'. split; [reflexivity |]. split; [exact Htb | now left].
  - eexists _, w'. split; [reflexivity |]. split; [reflexivity |].
    right. exists status. split; reflexivity.
Qed.

(** X15.  The solve never raises: an exception of its body becomes a
    result.  In every result [num_sensors] is the number of output
    positions; a failure has an error message and no position; a success
    has no error, reports the overlap mode and the [k_required] of the
    request, also when the solve succeeded only after the relaxation to
    [k = 1], and, for a [max_sensors] that is not negative, has at most
    [max_sensors] positions. *)
Theorem solve_lidar_placement_result (params : Params) (w : cp_world) :
  (forall e, solve_lidar_placement params w <> Raises e) /\
  forall out w',
    solve_lidar_placement params w = Returns (out, w') ->
    num_sensors out = Py.len (selected_positions out) /\
    (success out = false ->
     is_Some (error out) /\ selected_positions out = [] /\
     coverage_pct out = None) /\
    (success out = true ->
     error out = None /\ traceback out = None /\
     out_overlap_mode out = Some (overlap_mode (settings params)) /\
     out_k_required out = Some (k_required (settings params)) /\
     ((0 <= max_sensors (settings params))%Z ->
      (num_sensors out <= max_sensors (settings params))%Z)).
Proof.
  split.
  { intros e. unfold solve_lidar_placement.
    destruct (solve_body params w); congruence. }
  intros out w' Hr.
  assert (Hfail : forall msg tb warns,
    let out := failure msg tb warns in
    num_sensors out = Py.len (selected_positions out) /\
    (success out = false ->
     is_Some (error out) /\ selected_positions out = [] /\
     coverage_pct out = None) /\
    (success out = true ->
     error out = None /\ traceback out = None /\
     out_overlap_mode out = Some (overlap_mode (settings params)) /\
     out_k_required out = Some (k_required (settings params)) /\
     ((0 <= max_sensors (settings params))%Z ->
      (num_sensors out <= max_sensors (settings params))%Z))).
  { intros msg tb warns. simpl. split; [reflexivity |].
    split; [eauto | discriminate]. }
  unfold solve_lidar_placement in Hr.
  destruct (solve_body params w) as [[out0 w0] | e |] eqn:Hbody;
    [| injection Hr as <- _; apply Hfail | discriminate].
  injection Hr as -> ->. unfold solve_body in Hbody.
  apply bind_Returns in Hbody as (prepared & Hprep & Hbody).
  destruct prepared as [early | [[points candidates] r_eff]].
  { injection Hbody as <- _. unfold prepare in Hprep. cbv zeta in Hprep.
    destruct (length (roi_polygon params) <? 3)%nat;
      [injection Hprep as <-; apply Hfail |].
    apply bind_Returns in Hprep as (points0 & _ & Hprep).
    destruct (length points0 =? 0)%nat;
      [injection Hprep as <-; apply Hfail |].
    apply bind_Returns in Hprep as (points1 & _ & Hprep).
    apply bind_Returns in Hprep as (candidates0 & _ & Hprep).
    destruct (length candidates0 =? 0)%nat;
      [injection Hprep as <-; apply Hfail |].
    apply bind_Returns in Hprep as ([obstacle_grid grid_bounds] & _ & Hprep).
    apply bind_Returns in Hprep as (candidates1 & _ & Hprep).
    discriminate. }
  apply bind_Returns in Hbody
    as ([[[[selected status] ok] warnings] w1] & _ & Hbody).
  destruct ok; simpl negb in Hbody; cbv iota in Hbody.
  - apply bind_Returns in Hbody as (out1 & Hfin & Hbody).
    injection Hbody as <- _.
    destruct (finish_spec _ _ _ _ _ _ _ _ _ Hfin)
      as (Hok & Herr & Htb & Hnum & Hmode & Hk & Hmax).
    split; [exact Hnum |]. split; [rewrite Hok; discriminate | auto 10].
  - injection Hbody as <- _. apply Hfail.
Qed.

End Completion.

Section CompletionExample.
Import Ref.

(** The request on the 2 by 2 square with the solver that selects every
    candidate: four candidates, two of them kept by the pruner. *)
Lemma solve_lidar_placement_completes_witness :
  exists out w',
    solve_lidar_placement (CP := cp_take_all) request_los 0%nat
    = Returns (out, w') /\
    traceback out = None /\
    (success out = true \/
     exists status,
       success out = false /\
       error out = Some ("Solver failed: " ++ status)%string).
Proof.
  apply (solve_lidar_placement_completes (ML := math) (RL := random)
    (SL := shapely) (PS := pyset) (CP := cp_take_all) request_los 0%nat
    _ _ _ ltac:(vm_compute; reflexivity)).
Defined.

Lemma solve_lidar_placement_result_witness :
  exists out,
    solve_lidar_placement (CP := cp_take_all) request_los 0%nat
    = Returns (out, 1%nat) /\
    success out = true /\
    out_k_required out = Some 2%Z /\
    (num_sensors out <= 50)%Z.
Proof.
  eexists. split; [vm_compute; reflexivity |]. split; [reflexivity |].
  destruct (proj2 (solve_lidar_placement_result (ML := math) (RL := random)
    (SL := shapely) (PS := pyset) (CP := cp_take_all) request_los 0%nat)
    _ _ ltac:(vm_compute; reflexivity)) as (_ & _ & Hok).
  destruct (Hok eq_refl) as (_ & _ & _ & Hk & Hmax).
  split; [exact Hk |]. apply Hmax. vm_compute. discriminate.
Defined.

End CompletionExample.
(** ** Termination of the grid loops, the candidates and the grid *)

Section GridLoops.
Context {RL : Random} {SL : Shapely}.

Lemma list_min_le_max (xs : list Q) (lo hi : Q) :
  list_min xs = Returns lo -> list_max xs = Returns hi -> lo <= hi.
Proof.
  destruct xs as [| x r]; [discriminate |]. simpl.
  intros [= <-] [= <-].
  assert (Hmin : forall l m,
    fold_left (fun m y => if Py.lt y m then y else m) l m <= m).
  { induction l as [| y l IH]; intros m; simpl; [lra |].
    destruct (Py.lt y m) eqn:Hlt; [| apply IH].
    apply lt_true in Hlt. specialize (IH y). lra. }
  assert (Hmax : forall l m,
    m <= fold_left (fun m y => if Py.gt y m then y else m) l m).
  { induction l as [| y l IH]; intros m; simpl; [lra |].
    destruct (Py.gt y m) eqn:Hlt; [| apply IH].
    apply gt_true in Hlt. specialize (IH y). lra. }
  specialize (Hmin r x). specialize (Hmax r x). lra.
Qed.

Lemma bounding_box_ordered (p : vertices) (min_x max_x min_z max_z : Q) :
  bounding_box p = Returns (min_x, max_x, min_z, max_z) ->
  min_x <= max_x /\ min_z <= max_z.
Proof.
  unfold bounding_box. intros Hbox.
  apply bind_Returns in Hbox as (x0 & Hmin_x & Hbox).
  apply bind_Returns in Hbox as (x1 & Hmax_x & Hbox).
  apply bind_Returns in Hbox as (z0 & Hmin_z & Hbox).
  apply bind_Returns in Hbox as (z1 & Hmax_z & Hbox).
  injection Hbox as -> -> -> ->.
  split; eapply list_min_le_max; eassumption.
Qed.

Lemma bounding_box_returns (p : vertices) :
  p <> [] -> exists box, bounding_box p = Returns box.
Proof.
  destruct p as [| v p]; [congruence |]. intros _.
  unfold bounding_box. simpl. eauto.
Qed.

Lemma bounding_box_empty : bounding_box [] = Raises ValueError.
Proof. reflexivity. Qed.

(** A loop entered with a step that is not positive does not end. *)
Lemma scan_diverges {S} (lo hi step : Q) (body : Q -> S -> outcome S)
    (s : S) :
  step <= 0 -> lo <= hi -> scan lo hi step body s = Diverges.
Proof.
  intros Hstep Hlo. unfold scan, scan_fuel.
  assert (Hgt : Py.gt step 0 = false).
  { apply not_true_iff_false. rewrite gt_true. lra. }
  apply le_true in Hlo. now rewrite Hgt, Hlo.
Qed.

Lemma half_step_le (lo hi step : Q) :
  step <= 0 -> lo <= hi -> lo + step / 2 <= hi.
Proof.
  intros Hstep Hlo.
  assert (Hhalf : step / 2 <= 0) by (apply Qle_shift_div_r; lra).
  lra.
Qed.

(** X16.  For a polygon that is not empty and can be constructed, and a
    seed that [numpy] accepts, the sampler returns exactly when the
    spacing is positive: with a spacing of zero or below its loops never
    end. *)
Theorem sample_points_in_polygon_termination (polygon : vertices)
    (spacing_m : Q) (seed : Z) (obstacles : option (list vertices)) :
  polygon <> [] -> (0 <= seed < 2 ^ 32)%Z ->
  Polygon (coords polygon) <> None ->
  (0 < spacing_m ->
   exists points,
     sample_points_in_polygon polygon spacing_m seed obstacles
     = Returns points) /\
  (spacing_m <= 0 ->
   sample_points_in_polygon polygon spacing_m seed obstacles = Diverges).
Proof.
  intros Hne Hseed Hpoly. split.
  - intros Hs. now apply sample_points_in_polygon_returns.
  - intros Hs. unfold sample_points_in_polygon, np_random_seed.
    assert (Hb : ((0 <=? seed) && (seed <? 2 ^ 32))%Z = true).
    { apply andb_true_iff. split; [apply Z.leb_le | apply Z.ltb_lt]; lia. }
    rewrite Hb.
    destruct (bounding_box_returns polygon Hne)
      as [[[[min_x max_x] min_z] max_z] Hbox].
    destruct (bounding_box_ordered _ _ _ _ _ Hbox) as [Hx Hz].
    unfold make_polygon.
    destruct (Polygon (coords polygon)) as [poly |]; [| congruence].
    cbn [mbind outcome_bind]. rewrite Hbox, !bind_ret.
    rewrite scan_diverges; [reflexivity | exact Hs |].
    now apply half_step_le.
Qed.

(** X17.  For a polygon that is not empty and can be constructed, the
    generator returns exactly when the candidate spacing is positive:
    with a spacing of zero or below its loops never end. *)
Theorem generate_candidates_termination (polygon : vertices)
    (spacing_m keepout_m : Q) (model : LidarModel) (seed : Z)
    (obstacles : option (list vertices)) :
  polygon <> [] -> Polygon (coords polygon) <> None ->
  (0 < spacing_m ->
   exists candidates,
     generate_candidates polygon spacing_m keepout_m model seed obstacles
     = Returns candidates) /\
  (spacing_m <= 0 ->
   generate_candidates polygon spacing_m keepout_m model seed obstacles
   = Diverges).
Proof.
  intros Hne Hpoly. unfold generate_candidates.
  destruct (bounding_box_returns polygon Hne)
    as [[[[min_x max_x] min_z] max_z] Hbox].
  destruct (bounding_box_ordered _ _ _ _ _ Hbox) as [Hx Hz].
  unfold make_polygon.
  destruct (Polygon (coords polygon)) as [poly |]; [| congruence].
  rewrite Hbox, !bind_ret. cbv zeta. split.
  - intros Hs.
    match goal with
    | |- exists _, scan ?lo ?hi ?st ?body ?s ≫= _ = _ =>
        destruct (scan_returns hi st body lo s Hs) as [[cs idx] Hscan]
    end.
    + intros x s. apply scan_returns; [assumption |]. intros z s0. eauto.
    + rewrite Hscan, bind_ret. eauto.
  - intros Hs. rewrite scan_diverges; [reflexivity | exact Hs |].
    now apply half_step_le.
Qed.


(** X19.  [build_obstacle_grid] raises [ValueError] on an empty ROI and
    [ZeroDivisionError] on a cell size of zero; with a positive cell size,
    a ROI that is not empty and obstacles that can be constructed it
    returns a grid. *)
Theorem build_obstacle_grid_outcome (polygon : vertices)
    (obstacles : list vertices) (cell_size : Q) :
  (polygon = [] ->
   build_obstacle_grid polygon obstacles cell_size = Raises ValueError) /\
  (polygon <> [] -> cell_size == 0 ->
   build_obstacle_grid polygon obstacles cell_size
   = Raises ZeroDivisionError) /\
  (polygon <> [] -> 0 < cell_size ->
   Forall (fun obs => (3 <= length obs)%nat ->
                      Polygon (coords obs) <> None) obstacles ->
   exists grid bounds,
     build_obstacle_grid polygon obstacles cell_size
     = Returns (grid, bounds)).
Proof.
  split; [| split].
  - intros ->. reflexivity.
  - intros Hne Hcell. unfold build_obstacle_grid.
    destruct (bounding_box_returns polygon Hne)
      as [[[[min_x max_x] min_z] max_z] Hbox].
    rewrite Hbox, bind_ret. cbv beta iota.
    now rewrite (truediv_zero (max_x - min_x) _ Hcell).
  - intros Hne Hcell Hobs. unfold build_obstacle_grid.
    destruct (bounding_box_returns polygon Hne)
      as [[[[min_x max_x] min_z] max_z] Hbox].
    destruct (bounding_box_ordered _ _ _ _ _ Hbox) as [Hx Hz].
    rewrite Hbox, bind_ret. cbv beta iota.
    rewrite !truediv_nonzero by lra. rewrite !bind_ret. cbv zeta.
    assert (Hint : forall d, 0 <= d -> (0 <= Py.int (d / cell_size))%Z).
    { intros d Hd. unfold Py.int.
      assert (Hq : 0 <= d / cell_size) by (apply Qle_shift_div_l; lra).
      destruct (d / cell_size) as [n dn]. unfold Qle in Hq. simpl in *.
      apply Z.quot_pos; lia. }
    pose proof (Hint (max_x - min_x) ltac:(lra)) as Hw.
    pose proof (Hint (max_z - min_z) ltac:(lra)) as Hh.
    unfold np_zeros.
    assert (Hdims : ((Py.int ((max_z - min_z) / cell_size) + 1 <? 0)
                     || (Py.int ((max_x - min_x) / cell_size) + 1 <? 0))%Z
                    = false).
    { apply orb_false_iff. split; apply Z.ltb_ge; lia. }
    rewrite Hdims, bind_ret.
    match goal with
    | |- exists _ _, for_each ?body ?l ?s0 ≫= _ = _ =>
        destruct (for_each_returns body l s0) as [grid Hgrid]
    end.
    + intros grid obs Hin. rewrite Forall_forall in Hobs.
      specialize (Hobs obs Hin).
      destruct (3 <=? length obs)%nat eqn:Hlen; [| eauto].
      apply Nat.leb_le in Hlen. specialize (Hobs Hlen).
      unfold make_polygon.
      destruct (Polygon (coords obs)) as [obs_poly |]; [| congruence].
      rewrite bind_ret. destruct (negb (is_valid obs_poly)); eauto.
    + rewrite Hgrid, bind_ret. eauto.
Qed.

End GridLoops.

Section Hang.
Context {ML : Math} {RL : Random} {SL : Shapely} {PS : PySet} {CP : CpSat}.

(** X20.  A request with a sample spacing of zero or below, a ROI of at
    least 3 vertices that can be constructed and a seed that [numpy]
    accepts makes the solve loop for ever: no result is returned, not
    even a failure. *)
Theorem solve_lidar_placement_hangs (params : Params) (w : cp_world) :
  (3 <= length (roi_polygon params))%nat ->
  (0 <= seed (settings params) < 2 ^ 32)%Z ->
  Polygon (coords (roi_polygon params)) <> None ->
  sample_spacing_m (settings params) <= 0 ->
  solve_lidar_placement params w = Diverges.
Proof.
  intros Hlen Hseed Hpoly Hs.
  unfold solve_lidar_placement, solve_body, prepare. cbv zeta.
  assert (Hb : (length (roi_polygon params) <? 3)%nat = false)
    by (apply Nat.ltb_ge; exact Hlen).
  rewrite Hb.
  assert (Hne : roi_polygon params <> []).
  { intros Heq. rewrite Heq in Hlen. simpl in Hlen. lia. }
  unfold sample_points_in_polygon, np_random_seed.
  assert (Hseedb : ((0 <=? seed (settings params))
                    && (seed (settings params) <? 2 ^ 32))%Z = true).
  { apply andb_true_iff. split; [apply Z.leb_le | apply Z.ltb_lt]; lia. }
  rewrite Hseedb.
  destruct (bounding_box_returns _ Hne)
    as [[[[min_x max_x] min_z] max_z] Hbox].
  destruct (bounding_box_ordered _ _ _ _ _ Hbox) as [Hx Hz].
  unfold make_polygon.
  destruct (Polygon (coords (roi_polygon params))) as [poly |];
    [| congruence].
  cbn [mbind outcome_bind]. rewrite Hbox, !bind_ret.
  rewrite scan_diverges; [reflexivity | exact Hs |].
  now apply half_step_le.
Qed.

End Hang.

Section GridLoopsExample.
Import Ref.

(** The 2 by 2 square. *)
Definition square : vertices :=
  [Vertex.mk 0 0; Vertex.mk 2 0; Vertex.mk 2 2; Vertex.mk 0 2].

Lemma sample_points_in_polygon_termination_witness :
  (exists points,
     sample_points_in_polygon square 1 42 None = Returns points) /\
  sample_points_in_polygon square 0 42 None = Diverges.
Proof.
  split.
  - apply (proj1 (sample_points_in_polygon_termination (RL := random)
      (SL := shapely) square 1 42 None ltac:(discriminate) ltac:(lia)
      ltac:(discriminate))).
    reflexivity.
  - apply (proj2 (sample_points_in_polygon_termination (RL := random)
      (SL := shapely) square 0 42 None ltac:(discriminate) ltac:(lia)
      ltac:(discriminate))).
    apply Qle_refl.
Defined.

Lemma generate_candidates_termination_witness :
  (exists candidates,
     generate_candidates square 1 (1 # 2) default_model 42 None
     = Returns candidates) /\
  generate_candidates square (-1) (1 # 2) default_model 42 None = Diverges.
Proof.
  split.
  - apply (proj1 (generate_candidates_termination (SL := shapely) square 1
      (1 # 2) default_model 42 None ltac:(discriminate) ltac:(discriminate))).
    reflexivity.
  - apply (proj2 (generate_candidates_termination (SL := shapely) square (-1)
      (1 # 2) default_model 42 None ltac:(discriminate) ltac:(discriminate))).
    discriminate.
Defined.


Lemma build_obstacle_grid_outcome_witness :
  build_obstacle_grid square [] 0 = Raises ZeroDivisionError /\
  exists grid bounds,
    build_obstacle_grid square [[Vertex.mk 0 0; Vertex.mk 1 0; Vertex.mk 1 1]]
      (1 # 2)
    = Returns (grid, bounds).
Proof.
  split.
  - apply (proj1 (proj2 (build_obstacle_grid_outcome (SL := shapely) square
      [] 0))); [discriminate | reflexivity].
  - apply (proj2 (proj2 (build_obstacle_grid_outcome (SL := shapely) square
      [[Vertex.mk 0 0; Vertex.mk 1 0; Vertex.mk 1 1]] (1 # 2))));
      [discriminate | reflexivity |].
    repeat constructor. discriminate.
Defined.

(** The request of the default settings with a sample spacing of zero. *)
Definition request_zero_spacing : Params :=
  {| roi_polygon := square;
     obstacles := [];
     critical_polygon := None;
     model := default_model;
     settings :=
       {| mount_y_m := 3; sample_spacing_m := 0; candidate_spacing_m := 2;
          keepout_distance_m := 1 # 2; overlap_mode := "everywhere";
          k_required := 2; overlap_target_pct := 4 # 5; los_enabled := false;
          los_cell_m := 1 # 4; yaw_step_deg := 30; max_sensors := 50;
          solver_time_limit_s := 10; seed := 42 |} |}.

Lemma solve_lidar_placement_hangs_witness :
  solve_lidar_placement (CP := cp_take_all) request_zero_spacing 0%nat
  = Diverges.
Proof.
  apply (solve_lidar_placement_hangs (ML := math) (RL := random)
    (SL := shapely) (PS := pyset) (CP := cp_take_all) request_zero_spacing
    0%nat).
  - simpl. lia.
  - simpl. lia.
  - discriminate.
  - apply Qle_refl.
Defined.

End GridLoopsExample.
(** ** The meaning of the constraints *)

(** The value of a sum of variables under an assignment, and what a
    constraint asks of an assignment: the sum of its terms reaches its
    bound, whenever its enforcement literal, if it has one, is 1. *)
Definition sum_of (value : cpvar -> Z) (vars : list cpvar) : Z :=
  foldr (fun v acc => (value v + acc)%Z) 0%Z vars.

Definition satisfies (value : cpvar -> Z) (c : linear_ge) : Prop :=
  match only_enforce_if c with
  | None => (bound c <= sum_of value (terms c))%Z
  | Some lit => value lit = 1%Z -> (bound c <= sum_of value (terms c))%Z
  end.

Section Constraints.
Context {PS : PySet}.
Variables (pc : gmap Z (list Z)) (points : list SamplePoint.t)
          (s : PlannerSettings) (value : cpvar -> Z).

(** The candidates listed for a point index, none for a missing key; a
    point is coverable when some candidate is listed for it; and the sum
    of the variables of the candidates listed for it. *)
Definition listed (p_idx : Z) : list Z := default [] (pc !! p_idx).

Definition coverable (p : SamplePoint.t) : Prop :=
  listed (SamplePoint.idx p) <> [].

Definition cover_of (p_idx : Z) : Z := sum_of value (map X (listed p_idx)).

(** The indices of the critical points, as the source collects them. *)
Definition critical_indices : gset Z :=
  list_to_set (map SamplePoint.idx
                 (filter (fun p => SamplePoint.is_critical p = true) points)).

Lemma for_each_collect {A B} (key : A -> Z) (g : A -> list Z -> list B)
    (l : list A) (cs0 cs : list B) :
  for_each
    (fun cs a => covering ← getitem pc (key a); Returns (cs ++ g a covering))
    l cs0 = Returns cs ->
  cs = cs0 ++ (l ≫= fun a => g a (listed (key a))).
Proof.
  revert cs0. induction l as [| a l IH]; intros cs0 Hr; cbn [for_each] in Hr.
  - injection Hr as <-. simpl. now rewrite app_nil_r.
  - apply bind_Returns in Hr as (cs1 & Hstep & Hr).
    apply bind_Returns in Hstep as (covering & Hcov & Hstep).
    injection Hstep as <-. apply IH in Hr. subst cs.
    assert (Hl : listed (key a) = covering).
    { unfold listed. unfold getitem in Hcov.
      destruct (pc !! key a) as [l0 |]; [| discriminate].
      now injection Hcov as ->. }
    rewrite bind_cons, Hl, app_assoc. reflexivity.
Qed.

(** The loop of the mode [percent_target]. *)
Lemma percent_loop (pts : list SamplePoint.t) (ys0 ys : list Z)
    (cs0 cs : list linear_ge) :
  for_each
    (fun '(ys, cs) p =>
       covering ← getitem pc (SamplePoint.idx p);
       match covering with
       | [] => Returns (ys, cs)
       | _ =>
           let y := Y (SamplePoint.idx p) in
           Returns (ys ++ [SamplePoint.idx p],
                    cs ++ [cover_ge covering 1 None;
                           cover_ge covering (k_required s) (Some y)])
       end)
    pts (ys0, cs0) = Returns (ys, cs) ->
  ys = ys0 ++ map SamplePoint.idx (filter coverable pts) /\
  cs = cs0 ++ (filter coverable pts ≫= fun p =>
                 [cover_ge (listed (SamplePoint.idx p)) 1 None;
                  cover_ge (listed (SamplePoint.idx p)) (k_required s)
                    (Some (Y (SamplePoint.idx p)))]).
Proof.
  revert ys0 cs0. induction pts as [| p pts IH]; intros ys0 cs0 Hr;
    cbn [for_each] in Hr.
  - injection Hr as <- <-. simpl. now rewrite !app_nil_r.
  - apply bind_Returns in Hr as ([ys1 cs1] & Hstep & Hr).
    apply bind_Returns in Hstep as (covering & Hcov & Hstep).
    apply IH in Hr as [-> ->].
    unfold getitem in Hcov.
    destruct (pc !! SamplePoint.idx p) as [l0 |] eqn:Hl0; [| discriminate].
    injection Hcov as ->.
    assert (Hlisted : listed (SamplePoint.idx p) = covering)
      by (unfold listed; now rewrite Hl0).
    rewrite filter_cons.
    destruct (decide (coverable p)) as [Hc | Hc];
      unfold coverable in Hc; rewrite Hlisted in Hc.
    + destruct covering as [| ci covering]; [congruence |].
      cbv zeta in Hstep. injection Hstep as <- <-. split.
      * rewrite <- app_assoc. reflexivity.
      * rewrite bind_cons, Hlisted, <- app_assoc. reflexivity.
    + destruct covering as [| ci covering];
        [| exfalso; apply Hc; discriminate].
      injection Hstep as <- <-. auto.
Qed.

(** X21.  What the constraints of each overlap mode ask of an assignment.
    In the mode [everywhere] they hold iff every coverable sample point
    has selected covering candidates summing to [k_required] at least; in
    [critical_only] iff they sum to [k_required] for the critical points
    and to 1 for the others; in [percent_target], for sample points with
    pairwise different indices, iff they sum to 1 for every coverable
    point, to [k_required] for every point whose indicator is 1, and the
    indicators sum to [int(overlap_target_pct * len(points))], a count
    taken over all the points.  A sample point that no candidate covers is constrained in no
    mode, and any other mode string gives no constraint at all. *)
Theorem coverage_constraints_meaning (ys : list cpvar) (cs : list linear_ge) :
  coverage_constraints pc points s = Returns (ys, cs) ->
  (overlap_mode s = "everywhere"%string ->
   ys = [] /\
   (Forall (satisfies value) cs <->
    forall p, p ∈ points -> coverable p ->
      (k_required s <= cover_of (SamplePoint.idx p))%Z)) /\
  (overlap_mode s = "critical_only"%string ->
   ys = [] /\
   (Forall (satisfies value) cs <->
    forall p, p ∈ points -> coverable p ->
      ((if bool_decide (SamplePoint.idx p ∈ critical_indices)
        then k_required s else 1) <= cover_of (SamplePoint.idx p))%Z)) /\
  (overlap_mode s = "percent_target"%string ->
   NoDup (map SamplePoint.idx points) ->
   ys = map Y (map SamplePoint.idx (filter coverable points)) /\
   (Forall (satisfies value) cs <->
    (forall p, p ∈ points -> coverable p ->
       (1 <= cover_of (SamplePoint.idx p))%Z /\
       (value (Y (SamplePoint.idx p)) = 1%Z ->
        (k_required s <= cover_of (SamplePoint.idx p))%Z)) /\
    (filter coverable points <> [] ->
     (Py.int (overlap_target_pct s * inject_Z (Py.len points))
      <= sum_of value
           (map Y (dict_keys (map SamplePoint.idx
                                (filter coverable points)))))%Z))) /\
  (overlap_mode s <> "everywhere"%string ->
   overlap_mode s <> "critical_only"%string ->
   overlap_mode s <> "percent_target"%string ->
   ys = [] /\ cs = []).
Proof.
  unfold coverage_constraints. cbv zeta. intros Hr.
  assert (Hiter : forall p_idx,
    p_idx ∈ set_iter (list_to_set (map SamplePoint.idx points))
    <-> exists p, p ∈ points /\ SamplePoint.idx p = p_idx).
  { intros p_idx.
    rewrite set_iter_perm, elem_of_elements, elem_of_list_to_set,
      list_elem_of_fmap.
    split; intros (p & H1 & H2); eauto. }
  destruct (String.eqb (overlap_mode s) "everywhere") eqn:Hev.
  { apply String.eqb_eq in Hev.
    apply bind_Returns in Hr as (cs' & Hloop & Hr). injection Hr as <- <-.
    rewrite (for_each_ext _
      (fun cs a => covering ← getitem pc (id a);
                   Returns (cs ++ match covering with
                                  | [] => []
                                  | _ => [cover_ge covering (k_required s) None]
                                  end))) in Hloop.
    2: { intros cs a. unfold id. destruct (getitem pc a) as [[| ci l] | |];
           simpl; try reflexivity. now rewrite app_nil_r. }
    apply (for_each_collect id) in Hloop. simpl in Hloop. subst cs'.
    split; [| split; [| split]]; try (rewrite Hev; discriminate).
    - intros _. split; [reflexivity |].
      rewrite Forall_bind, Forall_forall. split.
      + intros Hall p Hp Hcov.
        specialize (Hall (SamplePoint.idx p)
                      (proj2 (Hiter _) (ex_intro _ p (conj Hp eq_refl)))).
        unfold compose, id, coverable, cover_of in *. cbv beta in *.
        destruct (listed (SamplePoint.idx p)); [congruence |].
        apply Forall_cons in Hall as [Hall _]. exact Hall.
      + intros Hall p_idx Hin. apply Hiter in Hin as (p & Hp & <-).
        specialize (Hall p Hp). unfold compose, id, coverable, cover_of in *. cbv beta in *.
        destruct (listed (SamplePoint.idx p)); [constructor |].
        repeat constructor. apply Hall. discriminate.
    - intros Hne. congruence. }
  apply String.eqb_neq in Hev.
  destruct (String.eqb (overlap_mode s) "critical_only") eqn:Hcr.
  { apply String.eqb_eq in Hcr.
    apply bind_Returns in Hr as (cs' & Hloop & Hr). injection Hr as <- <-.
    rewrite (for_each_ext _
      (fun cs a => covering ← getitem pc (id a);
                   Returns (cs ++ match covering with
                                  | [] => []
                                  | _ =>
                                      [cover_ge covering
                                         (if bool_decide (a ∈ critical_indices)
                                          then k_required s else 1) None]
                                  end))) in Hloop.
    2: { intros cs a. unfold id, critical_indices.
         destruct (getitem pc a) as [[| ci l] | |];
           simpl; try reflexivity; [now rewrite app_nil_r |].
         now destruct (bool_decide _). }
    apply (for_each_collect id) in Hloop. simpl in Hloop. subst cs'.
    split; [| split; [| split]]; try (rewrite Hcr; discriminate).
    - intros _. split; [reflexivity |].
      rewrite Forall_bind, Forall_forall. split.
      + intros Hall p Hp Hcov.
        specialize (Hall (SamplePoint.idx p)
                      (proj2 (Hiter _) (ex_intro _ p (conj Hp eq_refl)))).
        unfold compose, id, coverable, cover_of in *. cbv beta in *.
        destruct (listed (SamplePoint.idx p)); [congruence |].
        apply Forall_cons in Hall as [Hall _]. exact Hall.
      + intros Hall p_idx Hin. apply Hiter in Hin as (p & Hp & <-).
        specialize (Hall p Hp). unfold compose, id, coverable, cover_of in *. cbv beta in *.
        destruct (listed (SamplePoint.idx p)); [constructor |].
        repeat constructor. apply Hall. discriminate.
    - intros _ Hne. congruence. }
  apply String.eqb_neq in Hcr.
  destruct (String.eqb (overlap_mode s) "percent_target") eqn:Hpt.
  { apply String.eqb_eq in Hpt.
    apply bind_Returns in Hr as ([ys' cs'] & Hloop & Hr).
    apply percent_loop in Hloop as [-> ->]. simpl in Hr.
    set (cov := filter coverable points) in *.
    assert (Hpairs :
      Forall (satisfies value)
        (cov ≫= fun p =>
           [cover_ge (listed (SamplePoint.idx p)) 1 None;
            cover_ge (listed (SamplePoint.idx p)) (k_required s)
              (Some (Y (SamplePoint.idx p)))])
      <-> forall p, p ∈ points -> coverable p ->
            (1 <= cover_of (SamplePoint.idx p))%Z /\
            (value (Y (SamplePoint.idx p)) = 1%Z ->
             (k_required s <= cover_of (SamplePoint.idx p))%Z)).
    { rewrite Forall_bind, Forall_forall. unfold cov. split.
      - intros Hall p Hp Hcov.
        specialize (Hall p (proj2 (list_elem_of_filter _ _ _) (conj Hcov Hp))).
        apply Forall_cons in Hall as [H1 Hall].
        apply Forall_cons in Hall as [H2 _]. split; [exact H1 | exact H2].
      - intros Hall p Hp. apply list_elem_of_filter in Hp as [Hcov Hp].
        destruct (Hall p Hp Hcov) as [H1 H2]. repeat constructor; assumption. }
    split; [| split; [| split]]; try (rewrite Hpt; discriminate).
    - intros _ _. destruct (map SamplePoint.idx cov) as [| y0 yr] eqn:Hys.
      + injection Hr as <- <-. split; [reflexivity |].
        assert (Hnil : cov = []) by (destruct cov; [reflexivity | discriminate]).
        rewrite Hpairs. split; [| tauto].
        intros Hall. split; [exact Hall | congruence].
      + injection Hr as <- <-. split; [reflexivity |].
        rewrite Forall_app, Hpairs, Forall_singleton.
        assert (Hne : cov <> []) by (intros Heq; rewrite Heq in Hys; discriminate).
        unfold satisfies. cbn [only_enforce_if bound terms]. tauto.
    - intros _ _ Hne. congruence. }
  apply String.eqb_neq in Hpt. injection Hr as <- <-.
  split; [| split; [| split]]; try congruence. auto.
Qed.

End Constraints.

Section ConstraintsExample.
Import Ref.

(** One point covered by the candidates 0 and 1, in the mode
    [everywhere] with [k_required = 2]. *)
Definition one_point_cover : gmap Z (list Z) := {[0%Z := [0; 1]%Z]}.

Lemma coverage_constraints_meaning_witness :
  exists ys cs,
    coverage_constraints one_point_cover [SamplePoint.mk 0 0 0 false]
      default_settings
    = Returns (ys, cs) /\
    ys = [] /\
    Forall (satisfies (fun _ => 1%Z)) cs.
Proof.
  eexists _, _. split; [vm_compute; reflexivity |].
  destruct (proj1 (coverage_constraints_meaning (PS := pyset)
    one_point_cover [SamplePoint.mk 0 0 0 false] default_settings
    (fun _ => 1%Z) _ _ ltac:(vm_compute; reflexivity)) eq_refl)
    as [Hys Hiff].
  split; [exact Hys |]. apply Hiff.
  intros p Hp _. apply list_elem_of_singleton in Hp. subst p.
  vm_compute. discriminate.
Defined.

End ConstraintsExample.
(** ** What the statistics count *)

Section StatsMeaning.

Lemma length_filter_map {A B} (f : A -> B) (P : B -> Prop)
    `{!forall y, Decision (P y)} (l : list A) :
  length (filter P (map f l)) = length (filter (fun x => P (f x)) l).
Proof.
  induction l as [| a l IH]; [reflexivity |].
  cbn [map]. rewrite !filter_cons.
  destruct (decide (P (f a))); simpl; now rewrite IH.
Qed.

(** With pairwise different sample indices the values of the cover count
    are, up to their order, the numbers of listings of the points. *)
Lemma count_values (cmap : gmap Z Candidate.t) (points : list SamplePoint.t)
    (sel : list Z) (count : gmap Z Z) :
  NoDup (map SamplePoint.idx points) ->
  count_coverage cmap points sel = Returns count ->
  (map_to_list count).*2
  ≡ₚ map (fun p => total cmap (SamplePoint.idx p) sel) points.
Proof.
  intros Hnd Hr.
  change (count_from cmap sel (zero_counts points) = Returns count) in Hr.
  destruct (count_from_spec _ _ _ _ Hr) as [_ Hval].
  set (g := fun p => (SamplePoint.idx p, total cmap (SamplePoint.idx p) sel)).
  assert (Hperm : map_to_list count ≡ₚ map g points).
  { apply NoDup_Permutation.
    - apply NoDup_map_to_list.
    - apply (NoDup_fmap_1 fst).
      change (NoDup (map fst (map g points))).
      rewrite map_map. exact Hnd.
    - intros [k v]. rewrite elem_of_map_to_list, Hval, zero_counts_lookup.
      destruct (decide (k ∈ map SamplePoint.idx points)) as [Hin | Hnin];
        simpl.
      + apply list_elem_of_fmap in Hin as (p & -> & Hp). split.
        * intros [= <-]. apply list_elem_of_fmap.
          exists p. split; [reflexivity | exact Hp].
        * intros Hin. apply list_elem_of_fmap in Hin as (q & Heq & _).
          unfold g in Heq. injection Heq as Hk ->. now rewrite Hk.
      + split; [discriminate |].
        intros Hin. apply list_elem_of_fmap in Hin as (q & Heq & Hq).
        unfold g in Heq. injection Heq as -> _.
        exfalso. apply Hnin, list_elem_of_fmap. eauto. }
  rewrite Hperm.
  change ((map g points).*2) with (map snd (map g points)).
  now rewrite map_map.
Qed.

(** X22.  For sample points with pairwise different indices, as the
    sampler makes them, the coverage fraction is the share of the sample
    points listed at least once by the selected candidates, and the
    k-coverage fraction the share of those listed at least [k_required]
    times. *)
Theorem compute_coverage_stats_meaning (selected_indices : list Z)
    (candidates : list Candidate.t) (points : list SamplePoint.t)
    (k_required : Z) (coverage_pct k_coverage_pct : Q) :
  NoDup (map SamplePoint.idx points) -> points <> [] ->
  compute_coverage_stats selected_indices candidates points k_required
  = Returns (coverage_pct, k_coverage_pct) ->
  let times p :=
    total (candidate_map candidates) (SamplePoint.idx p) selected_indices in
  coverage_pct
  = inject_Z (Py.len (filter (fun p => (1 <= times p)%Z) points))
    / inject_Z (Py.len points) /\
  k_coverage_pct
  = inject_Z (Py.len (filter (fun p => (k_required <= times p)%Z) points))
    / inject_Z (Py.len points).
Proof.
  intros Hnd Hne Hr times. unfold compute_coverage_stats in Hr.
  cbv zeta in Hr.
  apply bind_Returns in Hr as (count & Hcount & Hr).
  pose proof (count_values _ _ _ _ Hnd Hcount) as Hperm.
  assert (Hpos : (0 <? Py.len points)%Z = true).
  { apply Z.ltb_lt. unfold Py.len. destruct points; [congruence |].
    simpl. lia. }
  rewrite Hpos in Hr.
  assert (Hlen : forall n : Z,
    Py.len (filter (fun c => (n <= c)%Z) (map_to_list count).*2)
    = Py.len (filter (fun p => (n <= times p)%Z) points)).
  { intros n. unfold Py.len. f_equal.
    rewrite (Permutation_length (filter_Permutation _ _ _ Hperm)).
    apply (length_filter_map
             (fun p => total (candidate_map candidates) (SamplePoint.idx p)
                         selected_indices)
             (fun c => (n <= c)%Z)). }
  rewrite !Hlen in Hr. injection Hr as <- <-. split; reflexivity.
Qed.

End StatsMeaning.

Section StatsMeaningExample.

(** Two sensors over three points: the first two points are listed, the
    first one twice. *)
Lemma compute_coverage_stats_meaning_witness :
  exists coverage_pct k_coverage_pct,
    compute_coverage_stats [0; 1]%Z
      [Candidate.mk 0 0 0 0 [0; 1]%Z; Candidate.mk 1 1 0 0 [0]%Z]
      [SamplePoint.mk 0 0 0 false; SamplePoint.mk 1 1 1 false;
       SamplePoint.mk 2 2 2 false] 2
    = Returns (coverage_pct, k_coverage_pct) /\
    coverage_pct = inject_Z 2 / inject_Z 3 /\
    k_coverage_pct = inject_Z 1 / inject_Z 3.
Proof.
  eexists _, _. split; [vm_compute; reflexivity |].
  exact (compute_coverage_stats_meaning [0; 1]%Z
    [Candidate.mk 0 0 0 0 [0; 1]%Z; Candidate.mk 1 1 0 0 [0]%Z]
    [SamplePoint.mk 0 0 0 false; SamplePoint.mk 1 1 1 false;
     SamplePoint.mk 2 2 2 false] 2 _ _
    ltac:(apply (NoDup_fmap_2 Z.of_nat [0; 1; 2]%nat), (NoDup_seq 0 3))
    ltac:(discriminate) ltac:(vm_compute; reflexivity)).
Defined.

End StatsMeaningExample.
